(** * Content relevance search of the Contentstack service

    A shallow embedding of the search engine of [ContentstackService]
    (src/unnamed/part_002, which the routes require as
    services/contentstackService; the line numbers below are its):
    [enhanceQuery], [fuzzyMatch],
    [calculateSimilarity], [levenshteinDistance], [searchContent] and
    [intelligentSearch], with the statements of the specification proved
    or refuted on it.  Further parts embed the creation of entries of the
    same service ([createEntry], [publishEntry], [bulkCreateEntries]) and
    its callers: the upload service (src/unnamed/part_003) and the test of
    a bot in the bot service (src/unnamed/part_001).

    Modelling conventions.
    - A JavaScript string is a [string]; its characters are the code units
      [ascii] (the code units below 256), and [toLowerCase] lowers the
      capitals among them: A-Z and those of Latin-1.
    - A JavaScript number that the code only counts with (scores, lengths,
      matrix cells) is a [Z] or a [nat]; the two quotients the code takes
      ([relevance] and the similarity) are exact rationals [Q].  Both are
      quotients of integers far below 2^53; the double nearest to such a
      quotient exceeds the double 0.7 exactly when the quotient exceeds
      7/10, which is how [similarity > 0.7] is read here.
    - An exception is a value of [exn]; code that can throw returns a
      [result].
    - The content store is an oracle answering the n-th request; the number
      of requests made so far is threaded through the calls.  The
      management API and the LLM are oracles likewise, with the requests
      made kept in a log.
    - An object that is sent, stored or spread is a finite map from
      property names to values; identifiers and times that the code draws
      ([uuidv4()], [new Date()]) are parameters of the calls. *)

From Stdlib Require Import ZArith QArith Lia Ascii String.
From stdpp Require Import base list strings sorting gmap pretty.

Local Open Scope nat_scope.

(** ** Strings *)

Module Str.

(** [String.prototype.toLowerCase] on one code unit below 256: the
    capitals are A-Z (65-90) and, of Latin-1, 192-214 and 216-222; each has
    its small letter 32 above. *)
Definition lower_char (c : ascii) : ascii :=
  let n := nat_of_ascii c in
  if (65 <=? n) && (n <=? 90)
     || (192 <=? n) && (n <=? 214)
     || (216 <=? n) && (n <=? 222)
  then ascii_of_nat (n + 32) else c.

Fixpoint toLowerCase (s : string) : string :=
  match s with
  | EmptyString => EmptyString
  | String c s' => String (lower_char c) (toLowerCase s')
  end.

(** [t] starts the string [s]. *)
Fixpoint starts_with (t s : string) : bool :=
  match t, s with
  | EmptyString, _ => true
  | String a t', String b s' => if decide (a = b) then starts_with t' s' else false
  | String _ _, EmptyString => false
  end.

(** [s.includes(t)]: [t] occurs in [s] as a contiguous substring. *)
Fixpoint includes (s t : string) : bool :=
  starts_with t s ||
  match s with
  | EmptyString => false
  | String _ s' => includes s' t
  end.

(** [s.split(sep)] for a one-character separator: the pieces between
    the separators, empty pieces included; never the empty list. *)
Fixpoint split (sep : ascii) (s : string) : list string :=
  match s with
  | EmptyString => [EmptyString]
  | String c s' =>
      if decide (c = sep) then EmptyString :: split sep s'
      else match split sep s' with
           | [] => [String c EmptyString]
           | w :: ws => String c w :: ws
           end
  end.

(** [arr.join(sep)]. *)
Fixpoint join (sep : string) (l : list string) : string :=
  match l with
  | [] => EmptyString
  | [w] => w
  | w :: ws => w +:+ sep +:+ join sep ws
  end.

Definition chars (s : string) : list ascii := list_ascii_of_string s.

(** [s.charAt(i)]; [None] stands for the empty string that JavaScript
    returns past the end. *)
Definition charAt (s : string) (i : nat) : option ascii := chars s !! i.

End Str.

(** ** Edit distance *)

(** The reference: the Levenshtein distance by its recurrence on the two
    words, and the edit scripts it is the least cost of. *)
Section Lev.
Context {A : Type} `{EqDecision A}.

Fixpoint lev (s t : list A) : nat :=
  match s with
  | [] => length t
  | x :: s' =>
      (fix lev_x (t : list A) : nat :=
         match t with
         | [] => S (length s')
         | y :: t' =>
             if decide (x = y) then lev s' t'
             else S (lev s' t' `min` (lev_x t' `min` lev s' t))
         end) t
  end.

(** Edit scripts: [edit s t n] when [s] is turned into [t] by keeping
    characters and by [n] insertions, deletions and substitutions. *)
Inductive edit : list A → list A → nat → Prop :=
| edit_nil : edit [] [] 0
| edit_keep x s t n : edit s t n → edit (x :: s) (x :: t) n
| edit_subst x y s t n : edit s t n → edit (x :: s) (y :: t) (S n)
| edit_delete x s t n : edit s t n → edit (x :: s) t (S n)
| edit_insert y s t n : edit s t n → edit s (y :: t) (S n).

#[global] Arguments lev : simpl never.

(** [d] is the least cost of an edit script from [s] to [t]. *)
Definition min_edit_cost (s t : list A) (d : nat) : Prop :=
  edit s t d ∧ ∀ n, edit s t n → d ≤ n.
End Lev.

(** [levenshteinDistance] (lines 353-379), with its matrix. *)
Module Levenshtein.

Abbreviation matrix := (list (list nat)).

(** [arr[i] = v]: replaces a cell, or appends one when [i] is the length
    of the array.  A write further out would leave holes; it is [None]
    here, and the code is shown never to make one. *)
Definition assign {A} (arr : list A) (i : nat) (v : A) : option (list A) :=
  if decide (i < length arr) then Some (<[i := v]> arr)
  else if decide (i = length arr) then Some (arr ++ [v])
  else None.

(** [matrix[i][j]]; [None] when the cell was never written. *)
Definition cell (m : matrix) (i j : nat) : option nat :=
  row ← m !! i; row !! j.

(** [matrix[i][j] = v]. *)
Definition assign_cell (m : matrix) (i j v : nat) : option matrix :=
  row ← m !! i; row' ← assign row j v; assign m i row'.

(** [for (let i = lo; i < lo + count; i++) body]. *)
Fixpoint for_loop {St} (lo count : nat) (body : nat → St → option St)
    (s : St) : option St :=
  match count with
  | 0 => Some s
  | S count' => s' ← body lo s; for_loop (S lo) count' body s'
  end.

Definition fill_cell (str1 str2 : string) (i j : nat) (m : matrix)
  : option matrix :=
  v ← (if decide (Str.charAt str2 (i - 1) = Str.charAt str1 (j - 1))
       then cell m (i - 1) (j - 1)
       else
         diag ← cell m (i - 1) (j - 1);
         left ← cell m i (j - 1);
         up ← cell m (i - 1) j;
         Some ((diag + 1) `min` ((left + 1) `min` (up + 1))));
  assign_cell m i j v.

Definition levenshteinMatrix (str1 str2 : string) : option matrix :=
  let len1 := String.length str1 in
  let len2 := String.length str2 in
  m ← for_loop 0 (S len2) (λ i m, assign m i [i]) [];
  m ← for_loop 0 (S len1) (λ j m, assign_cell m 0 j j) m;
  for_loop 1 len2 (λ i, for_loop 1 len1 (λ j, fill_cell str1 str2 i j)) m.

Definition levenshteinDistance (str1 str2 : string) : option nat :=
  m ← levenshteinMatrix str1 str2;
  cell m (String.length str2) (String.length str1).

(** What the cell [matrix[i][j]] is to hold: the distance between the
    first [i] characters of [str2] and the first [j] of [str1]. *)
Definition prefix_distance (str1 str2 : string) (i j : nat) : nat :=
  lev (take i (Str.chars str2)) (take j (Str.chars str1)).

(** The matrix of these distances in which row [i] has its first
    [width i] cells. *)
Definition distance_matrix (str1 str2 : string) (width : nat → nat)
  : matrix :=
  (λ i, prefix_distance str1 str2 i <$> seq 0 (width i))
    <$> seq 0 (S (String.length str2)).

(** The widths of the rows while the loops run.  After the first loop
    every row has one cell; the second loop brings the first row to [j]
    cells. *)
Definition first_row_width (j : nat) : nat → nat :=
  λ k, if decide (k = 0) then j else 1.

(** In the third loop the rows above [i] are full, row [i] has [j]
    cells, the rows below have their first cell. *)
Definition fill_width (len1 i j : nat) : nat → nat :=
  λ k, if decide (k < i) then S len1 else if decide (k = i) then j else 1.

End Levenshtein.

(** ** Values, entries and exceptions *)

(** The values an entry of the content store holds, as a JSON document
    has them.  [VObj] stands for any object or array.  Numbers are
    integers here: the code asks of a number only whether it is zero. *)
Inductive value :=
| VUndefined
| VNull
| VBool (b : bool)
| VNum (z : Z)
| VStr (s : string)
| VObj.

Definition truthy (v : value) : bool :=
  match v with
  | VUndefined | VNull => false
  | VBool b => b
  | VNum z => negb (z =? 0)%Z
  | VStr s => negb (String.eqb s "")
  | VObj => true
  end.

(** [a || b]. *)
Definition or_else (a b : value) : value := if truthy a then a else b.
Infix "|||" := or_else (at level 50, left associativity).

(** An entry: its properties in enumeration order. *)
Definition Entry := list (string * value).

(** [entry.key]. *)
Fixpoint field (e : Entry) (key : string) : value :=
  match e with
  | [] => VUndefined
  | (k, v) :: e' => if decide (k = key) then v else field e' key
  end.

(** [Object.values(entry).filter(value => typeof value === 'string')]. *)
Definition string_values (e : Entry) : list string :=
  omap (λ kv, match kv.2 with VStr s => Some s | _ => None end) e.

Inductive exn :=
| RequestError (error_message message : string)
    (* a failed request: [error.response.data.error_message], empty when
       the response has none, and [error.message] *)
| TypeError (message : string)
| Error (message : string).

(** [error.response?.data?.error_message || error.message]. *)
Definition describe (e : exn) : string :=
  match e with
  | RequestError error_message message =>
      if String.eqb error_message "" then message else error_message
  | TypeError message | Error message => message
  end.

Inductive result (A : Type) :=
| Ok (a : A)
| Throw (e : exn).
Arguments Ok {A} a.
Arguments Throw {A} e.

#[global] Instance result_bind : MBind result := λ A B k r,
  match r with
  | Ok a => k a
  | Throw e => Throw e
  end.

(** [entries.map(f)] for a callback that can throw. *)
Fixpoint map_result {A B} (f : A → result B) (l : list A) : result (list B) :=
  match l with
  | [] => Ok []
  | a :: l' =>
      b ← f a;
      bs ← map_result f l';
      Ok (b :: bs)
  end.

(** [v.toLowerCase()]: only a string has the method.  Engines word the
    message of the [TypeError] each in their way; one text stands for it. *)
Definition toLowerCase_of (v : value) : result string :=
  match v with
  | VStr s => Ok (Str.toLowerCase s)
  | _ => Throw (TypeError "toLowerCase is not a function")
  end.

(** ** Numbers as array bounds *)

(** A number as [slice] sees it: a finite number by its integral part
    (fractions are cut off by ToIntegerOrInfinity), NaN, or an infinity.
    A non-numeric argument reaches [slice] as the number it converts to. *)
Inductive number :=
| Num (z : Z)
| NaN
| PosInf
| NegInf.

(** [arr.slice(0, end)]. *)
Definition slice0 {A} (arr : list A) (end_ : number) : list A :=
  let len := Z.of_nat (length arr) in
  match end_ with
  | NaN => []
  | NegInf => []
  | PosInf => arr
  | Num z =>
      if (z <? 0)%Z then take (Z.to_nat (Z.max (len + z) 0)) arr
      else take (Z.to_nat (Z.min z len)) arr
  end.

(** [arr.sort(compare)].  The sort is stable (ECMAScript 2019), so for a
    consistent comparator its result is the one stable arrangement, which
    insertion from the right computes. *)
Section Sort.
Context {A : Type} (compare : A → A → Z).

Fixpoint sort_insert (a : A) (l : list A) : list A :=
  match l with
  | [] => [a]
  | b :: l' =>
      if (0 <? compare a b)%Z then b :: sort_insert a l' else a :: l
  end.

Fixpoint sort (l : list A) : list A :=
  match l with
  | [] => []
  | a :: l' => sort_insert a (sort l')
  end.
End Sort.

(** ** The content store *)

Inductive response :=
| Entries (entries : option (list Entry))   (* [response.data.entries] *)
| Failed (error_message message : string).

(** What the store answers to the n-th request, for a content type and a
    limit. *)
Definition store := nat → string → Z → response.

(** [getAllEntries] (lines 16-37): one request; a failed one is thrown
    again with the message of the response, or else of the error. *)
Definition getAllEntries (cs : store) (contentType : string) (limit : Z)
    (n : nat) : result (list Entry) * nat :=
  match cs n contentType limit with
  | Entries entries => (Ok (default [] entries), S n)
  | Failed error_message message =>
      (Throw (Error ("Failed to fetch entries: "
                      +:+ describe (RequestError error_message message))),
       S n)
  end.

(** ** Query enhancement and fuzzy matching *)

(** [enhanceQuery] (lines 314-331).  [Object.keys(synonyms)] lists the
    keys as they are declared. *)
Definition synonyms : list (string * list string) :=
  [ ("travel", ["trip"; "journey"; "vacation"; "tour"]);
    ("food", ["cuisine"; "dining"; "restaurant"; "meal"]);
    ("hotel", ["accommodation"; "lodging"; "stay"]);
    ("activity", ["attraction"; "experience"; "thing to do"]) ].

Definition enhanceQuery (query : string) : string :=
  fold_left
    (λ enhancedQuery kv,
       if Str.includes (Str.toLowerCase query) kv.1
       then enhancedQuery +:+ " " +:+ Str.join " " kv.2
       else enhancedQuery)
    synonyms query.

(** [calculateSimilarity] (lines 343-351).  [None] stands for NaN, the
    quotient of an undefined distance. *)
Definition calculateSimilarity (str1 str2 : string) : option Q :=
  let longer :=
    if String.length str2 <? String.length str1 then str1 else str2 in
  let shorter :=
    if String.length str2 <? String.length str1 then str2 else str1 in
  if String.length longer =? 0 then Some 1%Q
  else
    editDistance ← Levenshtein.levenshteinDistance longer shorter;
    Some ((Z.of_nat (String.length longer) - Z.of_nat editDistance)
          # Pos.of_nat (String.length longer))%Q.

(** [similarity > 0.7]. *)
Definition exceeds_threshold (similarity : option Q) : bool :=
  match similarity with
  | Some q => negb (Qle_bool q (7 # 10))
  | None => false
  end.

(** [fuzzyMatch] (lines 333-341). *)
Definition fuzzyMatch (term content : string) : bool :=
  existsb
    (λ word,
       if (String.length word <? 3) || (String.length term <? 3) then false
       else exceeds_threshold (calculateSimilarity term word))
    (Str.split " " content).

(** ** Scoring and ranking *)

(** [{ ...entry, score, relevance }]: the entry with its annotations, which
    shadow properties of the same names.  Plain search sets no relevance. *)
Record ScoredEntry := {
  entry : Entry;
  score : Z;
  relevance : option Q;
}.

Inductive SearchResult :=
| Unranked (entries : list Entry)
| Ranked (entries : list ScoredEntry).

Record SearchParams := {
  query : string;                  (* empty when absent *)
  contentType : option string;
  maxResults : option number;
}.

(** [.filter(entry => entry.score > 0).sort((a, b) => b.score - a.score)
     .slice(0, maxResults)]. *)
Definition rank (scoredEntries : list ScoredEntry) (maxResults : number)
    : list ScoredEntry :=
  slice0
    (sort (λ a b, score b - score a)%Z
       (filter (λ e, 0 < score e)%Z scoredEntries))
    maxResults.

Definition plain_description (e : Entry) : value :=
  field e "description" ||| field e "paris" ||| field e "india"
    ||| field e "content" ||| field e "body" ||| VStr "".

(** The callback of [searchTerms.forEach], from the score before the
    term to the score after it. *)
Definition plain_term (title description allText : string) (score : Z)
    (term : string) : Z :=
  (let score := if Str.includes title term then score + 5 else score in
   let score := if Str.includes description term then score + 3 else score in
   if Str.includes allText term then score + 1 else score)%Z.

Definition allText_of (e : Entry) : string :=
  Str.toLowerCase (Str.join " " (string_values e)).

(** The callback of [entries.map] in plain search (lines 49-76). *)
Definition plain_score (searchTerms : list string) (e : Entry)
    : result ScoredEntry :=
  title ← toLowerCase_of (field e "title" ||| VStr "");
  description ← toLowerCase_of (plain_description e);
  let allText := allText_of e in
  let score :=
    fold_left (plain_term title description allText) searchTerms 0%Z in
  Ok {| entry := e; score := score; relevance := None |}.

(** What the [catch] of [searchContent] throws. *)
Definition search_failure (e : exn) : exn :=
  Error ("Failed to search content: " +:+ describe e).

(** [searchContent] (lines 39-86). *)
Definition searchContent (cs : store) (p : SearchParams) (n : nat)
    : result SearchResult * nat :=
  let contentType := default "tours" (contentType p) in
  let maxResults := default (Num 10) (maxResults p) in
  let (fetched, n) := getAllEntries cs contentType 100 n in
  let body :=
    entries ← fetched;
    if String.eqb (query p) "" then Ok (Unranked (slice0 entries maxResults))
    else
      let searchTerms := Str.split " " (Str.toLowerCase (query p)) in
      scoredEntries ← map_result (plain_score searchTerms) entries;
      Ok (Ranked (rank scoredEntries maxResults)) in
  match body with
  | Ok r => (Ok r, n)
  | Throw e => (Throw (search_failure e), n)
  end.

Definition intelligent_description (e : Entry) : value :=
  field e "description" ||| field e "paris" ||| field e "india" ||| VStr "".

Definition intelligent_term (title description content : string) (score : Z)
    (term : string) : Z :=
  (let score := if Str.includes title term then score + 5 else score in
   let score := if Str.includes description term then score + 2 else score in
   if fuzzyMatch term content then score + 1 else score)%Z.

(** The callback of [allEntries.map] in intelligent search
    (lines 278-301). *)
Definition intelligent_score (query : string) (searchTerms : list string)
    (e : Entry) : result ScoredEntry :=
  title ← toLowerCase_of (field e "title" ||| VStr "");
  description ← toLowerCase_of (intelligent_description e);
  let content := title +:+ " " +:+ description in
  let score :=
    if Str.includes content (Str.toLowerCase query) then 10%Z else 0%Z in
  let score :=
    fold_left (intelligent_term title description content) searchTerms score in
  Ok {| entry := e; score := score;
        relevance :=
          Some (score # Pos.of_nat (length searchTerms `max` 1))%Q |}.

(** [intelligentSearch] (lines 265-312).  Whatever the [try] block
    throws, the [catch] calls plain search with the parameters as they
    were resolved, after the request already made. *)
Definition intelligentSearch (cs : store) (p : SearchParams) (n : nat)
    : result SearchResult * nat :=
  let contentType := default "tour" (contentType p) in
  let maxResults := default (Num 10) (maxResults p) in
  let (fetched, n) := getAllEntries cs contentType 100 n in
  let body :=
    allEntries ← fetched;
    if String.eqb (query p) "" || (length allEntries =? 0)
    then Ok (Unranked (slice0 allEntries maxResults))
    else
      let enhancedQuery := enhanceQuery (query p) in
      let searchTerms := Str.split " " (Str.toLowerCase enhancedQuery) in
      scoredEntries ←
        map_result (intelligent_score (query p) searchTerms) allEntries;
      Ok (Ranked (rank scoredEntries maxResults)) in
  match body with
  | Ok r => (Ok r, n)
  | Throw _ =>
      searchContent cs
        {| query := query p; contentType := Some contentType;
           maxResults := Some maxResults |} n
  end.

(** ** Notions the statements use *)

(** The similarity as the specification words it:
    [1 - editDistance(longer, shorter) / length(longer)], and 1 when the
    longer string is empty. *)
Definition similarity (a b : string) : Q :=
  let longer := if String.length b <? String.length a then a else b in
  let shorter := if String.length b <? String.length a then b else a in
  if String.length longer =? 0 then 1%Q
  else (1 - (Z.of_nat (lev (Str.chars longer) (Str.chars shorter))
             # Pos.of_nat (String.length longer)))%Q.

(** The score of intelligent search in closed form, for a list of terms:
    10 for the phrase, and for each term 5 for the title, 2 for the
    description and 1 for a fuzzy match. *)
Definition weighted_score (query : string) (terms : list string)
    (title description : string) : Z :=
  let content := title +:+ " " +:+ description in
  ((if Str.includes content (Str.toLowerCase query) then 10 else 0)
   + foldr Z.add 0
       ((λ term,
           (if Str.includes title term then 5 else 0)
           + (if Str.includes description term then 2 else 0)
           + (if fuzzyMatch term content then 1 else 0)) <$> terms))%Z.

(** The terms intelligent search scores with. *)
Definition search_terms (query : string) : list string :=
  Str.split " " (Str.toLowerCase (enhanceQuery query)).

(** What the enhancement appends for one trigger. *)
Definition enhancement (query : string) (kv : string * list string) : string :=
  if Str.includes (Str.toLowerCase query) (Str.toLowerCase kv.1)
  then " " +:+ Str.join " " kv.2
  else "".

(** The call plain search receives when intelligent search falls back. *)
Definition fallback_params (p : SearchParams) : SearchParams :=
  {| query := query p;
     contentType := Some (default "tour" (contentType p));
     maxResults := Some (default (Num 10) (maxResults p)) |}.

Definition with_maxResults (p : SearchParams) (m : number) : SearchParams :=
  {| query := query p; contentType := contentType p; maxResults := Some m |}.

Definition result_length (r : SearchResult) : nat :=
  match r with
  | Unranked l => length l
  | Ranked l => length l
  end.

Definition slice_result (m : number) (r : SearchResult) : SearchResult :=
  match r with
  | Unranked l => Unranked (slice0 l m)
  | Ranked l => Ranked (slice0 l m)
  end.

Definition map_Ok {A B} (f : A → B) (r : result A) : result B :=
  match r with
  | Ok a => Ok (f a)
  | Throw e => Throw e
  end.

(** [l] is a ranking of the scored entries [scored] within [limit]: only
    positive scores, at most [limit] entries, scores never increasing,
    and the entries of one score in the order of [scored]. *)
Definition well_ranked (scored : list ScoredEntry) (limit : Z)
    (l : list ScoredEntry) : Prop :=
  Forall (λ e, 0 < score e)%Z l ∧
  (Z.of_nat (length l) ≤ limit)%Z ∧
  StronglySorted (λ a b, score b ≤ score a)%Z l ∧
  ∀ k, filter (λ e, score e = k) l `prefix_of` filter (λ e, score e = k) scored.

(** A field the scoring can read: a string, or a value that [||] passes
    over. *)
Definition readable (v : value) : Prop :=
  match v with
  | VStr _ => True
  | _ => truthy v = false
  end.

(** The lowercased text of a field the scoring can read: of a string its
    lowercase form, of a value that [||] passes over the empty string. *)
Definition lowered (v : value) : string :=
  match v ||| VStr "" with
  | VStr s => Str.toLowerCase s
  | _ => ""
  end.

(** An entry intelligent search can score: its title and the fields it
    probes for a description are strings, or values that [||] passes
    over. *)
Definition scorable (e : Entry) : Prop :=
  Forall (λ key, readable (field e key))
    ["title"; "description"; "paris"; "india"].

(** The entry with the score and the relevance of the formula: the
    weighted score over the terms of the enhanced query, on the lowercased
    title and description, and that score divided by the number of
    terms. *)
Definition annotated (query : string) (e : Entry) : ScoredEntry :=
  let terms := search_terms query in
  let score :=
    weighted_score query terms (lowered (field e "title"))
      (lowered (field e "description" ||| field e "paris"
                  ||| field e "india")) in
  {| entry := e; score := score;
     relevance := Some (score # Pos.of_nat (length terms `max` 1))%Q |}.

(** The recurrence as the specification words it, read on a matrix [m] for
    the strings [a] and [b]: the first row and column count from 0, and a
    cell copies the diagonal when the characters match and is otherwise 1
    more than the least of the diagonal, the left and the upper cell. *)
Definition reference_recurrence (a b : string) (m : list (list nat)) : Prop :=
  (∀ j, j ≤ String.length a → Levenshtein.cell m 0 j = Some j)
  ∧ (∀ i, i ≤ String.length b → Levenshtein.cell m i 0 = Some i)
  ∧ ∀ i j, i < String.length b → j < String.length a →
      Levenshtein.cell m (S i) (S j)
      = if decide (Str.charAt b i = Str.charAt a j)
        then Levenshtein.cell m i j
        else
          diag ← Levenshtein.cell m i j;
          left ← Levenshtein.cell m (S i) j;
          up ← Levenshtein.cell m i (S j);
          Some (1 + (left `min` (up `min` diag))).

(** A text of two words with a tab between them, and a query of two words
    on two lines. *)
Definition tabbed_text : string := "abc" +:+ String "009" "def".
Definition two_line_query : string := "rome" +:+ String "010" "paris".
Definition paris_only : Entry := [("title", VStr "paris")].

(** Entries and stores of the examples. *)
Definition paris_getaway : Entry :=
  [("title", VStr "Paris Getaway"); ("description", VStr "romantic trip")].
Definition tokyo_adventure : Entry :=
  [("title", VStr "Tokyo Adventure"); ("description", VStr "city tour")].
Definition paris_museums : Entry :=
  [("title", VStr "Paris Museums"); ("body", VStr "art in paris")].
Definition numbered : Entry := [("title", VNum 42)].
Definition rich_text : Entry :=
  [("title", VStr "Paris Getaway"); ("description", VObj)].

Definition tours_store : store :=
  λ _ _ _, Entries (Some [paris_getaway; tokyo_adventure; paris_museums]).
Definition numbered_store : store := λ _ _ _, Entries (Some [numbered]).
Definition rich_text_store : store :=
  λ _ _ _, Entries (Some [tokyo_adventure; rich_text]).
Definition paris_only_store : store := λ _ _ _, Entries (Some [paris_only]).
Definition failing_store : store := λ _ _ _, Failed "" "timeout".
(** Fails once, then answers. *)
Definition recovering_store : store :=
  λ n _ _,
    match n with
    | 0 => Failed "Unauthorized" "Request failed with status code 401"
    | _ => Entries (Some [paris_getaway; tokyo_adventure])
    end.

Definition search_for (q : string) (m : option number) : SearchParams :=
  {| query := q; contentType := None; maxResults := m |}.

(** ** Creating entries: the management API

    [createEntry], [publishEntry] and [bulkCreateEntries] of the same
    service (lines 89-119, 153-180 and 204-240).  The API is an oracle as
    the store is; the requests made are kept in a log, the latest last. *)

Inductive request :=
| CreateEntry (contentType : string) (entryData : gmap string value)
| PublishEntry (contentType : string) (uid : value).

Inductive reply :=
| Replied (entry : option (gmap string value))   (* [response.data.entry] *)
| Refused (error_message message : string).

(** What the API answers to the n-th request. *)
Definition management := nat → request → reply.

(** [obj.key] on an object kept as a map. *)
Definition prop (obj : gmap string value) (key : string) : value :=
  default VUndefined (obj !! key).

(** [error.message]. *)
Definition message_of (e : exn) : string :=
  match e with
  | RequestError _ message | TypeError message | Error message => message
  end.

(** [{ title, description: description || '', ...additionalFields }]: the
    properties that are spread last replace those of the same name. *)
Definition entry_data (title description : value)
    (additionalFields : gmap string value) : gmap string value :=
  additionalFields
  ∪ <["title" := title]> {["description" := description ||| VStr ""]}.

Definition createEntry (api : management) (title description : value)
    (contentType : option string) (additionalFields : gmap string value)
    (log : list request) : result (option (gmap string value)) * list request :=
  let req :=
    CreateEntry (default "tours" contentType)
      (entry_data title description additionalFields) in
  match api (length log) req with
  | Replied entry => (Ok entry, log ++ [req])
  | Refused error_message message =>
      (Throw (Error ("Failed to create entry: "
                      +:+ describe (RequestError error_message message))),
       log ++ [req])
  end.

Definition publishEntry (api : management) (uid : value)
    (contentType : option string) (log : list request)
    : result unit * list request :=
  let req := PublishEntry (default "tours" contentType) uid in
  match api (length log) req with
  | Replied _ => (Ok (), log ++ [req])
  | Refused error_message message =>
      (Throw (Error ("Failed to publish entry: "
                      +:+ describe (RequestError error_message message))),
       log ++ [req])
  end.

(** An element of [entries]: [{ title, description, additionalFields }]. *)
Record Upload := {
  up_title : value;
  up_description : value;
  up_additionalFields : option (gmap string value);
}.

Record Created := {
  created_uid : value;
  created_title : value;
  published : bool;
}.

Record Rejected := {
  rejected_title : value;
  rejected_error : string;
}.

Record BulkResults := {
  successful : list Created;
  failed : list Rejected;
}.

(** The body of the loop of [bulkCreateEntries] for one element.  Reading
    [entry.uid] of an entry the response did not hold is a [TypeError],
    which the [catch] of the loop records like any other failure. *)
Definition bulk_step (api : management) (contentType : string) (publish : bool)
    (st : BulkResults * list request) (entryData : Upload)
    : BulkResults * list request :=
  let (results, log) := st in
  let (created, log) :=
    createEntry api (up_title entryData) (up_description entryData)
      (Some contentType) (default ∅ (up_additionalFields entryData)) log in
  let (attempt, log) :=
    match created with
    | Throw e => (Throw e, log)
    | Ok None =>
        (Throw (TypeError "Cannot read properties of undefined (reading 'uid')"),
         log)
    | Ok (Some entry) =>
        if publish then
          let (done, log) :=
            publishEntry api (prop entry "uid") (Some contentType) log in
          (_ ← done; Ok entry, log)
        else (Ok entry, log)
    end in
  match attempt with
  | Ok entry =>
      ({| successful :=
            successful results
            ++ [{| created_uid := prop entry "uid";
                   created_title := prop entry "title";
                   published := publish |}];
          failed := failed results |},
       log)
  | Throw e =>
      ({| successful := successful results;
          failed :=
            failed results
            ++ [{| rejected_title := up_title entryData;
                   rejected_error := message_of e |}] |},
       log)
  end.

Definition bulkCreateEntries (api : management) (entries : list Upload)
    (contentType : option string) (publish : bool) (log : list request)
    : BulkResults * list request :=
  fold_left (bulk_step api (default "tour" contentType) publish) entries
    ({| successful := []; failed := [] |}, log).

(** The request [createEntry] makes for an element. *)
Definition create_request (contentType : string) (entryData : Upload)
    : request :=
  CreateEntry contentType
    (entry_data (up_title entryData) (up_description entryData)
       (default ∅ (up_additionalFields entryData))).

Definition is_publish (r : request) : bool :=
  match r with
  | PublishEntry _ _ => true
  | CreateEntry _ _ => false
  end.

(** ** Rows of a sheet: the upload service

    [processData], [suggestColumnMapping], [processJsonData] and
    [getUploadHistory] of the service that feeds [bulkCreateEntries]
    (src/unnamed/part_003, lines 130-153, 155-176, 178-237 and 239-247).
    A row is an [Entry]: the cells of the row under the names of their
    columns. *)

(** The white space [trim] removes, among the code units below 256. *)
Definition is_white (c : ascii) : bool :=
  match nat_of_ascii c with
  | 9 | 10 | 11 | 12 | 13 | 32 | 160 => true
  | _ => false
  end.

Fixpoint trimStart (s : string) : string :=
  match s with
  | EmptyString => EmptyString
  | String c s' => if is_white c then trimStart s' else s
  end.

Fixpoint trimEnd (s : string) : string :=
  match s with
  | EmptyString => EmptyString
  | String c s' =>
      match trimEnd s' with
      | EmptyString => if is_white c then EmptyString else String c EmptyString
      | t => String c t
      end
  end.

(** [s.trim()]. *)
Definition trim (s : string) : string := trimEnd (trimStart s).

(** [v.trim()]: only a string has the method; one text stands for the
    message of the [TypeError], as for [toLowerCase_of]. *)
Definition trim_of (v : value) : result string :=
  match v with
  | VStr s => Ok (trim s)
  | _ => Throw (TypeError "trim is not a function")
  end.

(** [row[titleColumn] || row.title || row.Title || row.NAME || row.name
    || '']. *)
Definition title_cell (titleColumn : string) (row : Entry) : value :=
  field row titleColumn ||| field row "title" ||| field row "Title"
    ||| field row "NAME" ||| field row "name" ||| VStr "".

Definition description_cell (descriptionColumn : string) (row : Entry)
    : value :=
  field row descriptionColumn ||| field row "description"
    ||| field row "Description" ||| field row "DESC" ||| field row "desc"
    ||| VStr "".

(** The columns that go to the additional fields. *)
Definition is_additional (titleColumn descriptionColumn key : string) : bool :=
  negb (String.eqb key titleColumn) && negb (String.eqb key descriptionColumn)
  && negb (String.eqb key "title") && negb (String.eqb key "description").

(** The loop over [Object.keys(row)]: a later column replaces an earlier
    one of the same lowercased name. *)
Definition additional_fields (titleColumn descriptionColumn : string)
    (row : Entry) : gmap string value :=
  fold_left
    (λ additionalFields key,
       if is_additional titleColumn descriptionColumn key
       then <[Str.toLowerCase key := field row key]> additionalFields
       else additionalFields)
    row.*1 ∅.

Section ProcessData.
(** [JSON.stringify], of which only the error message makes use. *)
Variable stringify : Entry → string.

(** The callback of [jsonData.map] in [processData]. *)
Definition process_row (titleColumn descriptionColumn : string) (row : Entry)
    : result Upload :=
  let title := title_cell titleColumn row in
  let description := description_cell descriptionColumn row in
  trimmed ← trim_of title;
  if String.eqb trimmed ""
  then Throw (Error ("Missing title in row: " +:+ stringify row))
  else
    let additionalFields :=
      additional_fields titleColumn descriptionColumn row in
    title' ← trim_of title;
    description' ← trim_of description;
    Ok {| up_title := VStr title'; up_description := VStr description';
          up_additionalFields := Some additionalFields |}.

Definition processData (jsonData : list Entry)
    (titleColumn descriptionColumn : string) : result (list Upload) :=
  map_result (process_row titleColumn descriptionColumn) jsonData.
End ProcessData.

(** [columns.find(col => suggestions.some(s =>
    col.toLowerCase().includes(s)))]. *)
Definition suggested (suggestions : list string) (columns : list string)
    : option string :=
  List.find
    (λ col, existsb (λ suggestion,
                       Str.includes (Str.toLowerCase col) suggestion)
              suggestions)
    columns.

(** [found || columns[i]], where [found] is a column found or undefined. *)
Definition or_column (found : option string) (columns : list string) (i : nat)
    : option string :=
  match found with
  | Some col => if String.eqb col "" then columns !! i else Some col
  | None => columns !! i
  end.

Record ColumnMapping := {
  titleColumn : option string;          (* [None]: undefined *)
  descriptionColumn : option string;
  availableColumns : list string;
}.

Definition titleSuggestions : list string :=
  ["title"; "name"; "heading"; "subject"; "topic"].
Definition descriptionSuggestions : list string :=
  ["description"; "desc"; "content"; "details"; "info"; "summary"].

Definition suggestColumnMapping (columns : list string) : ColumnMapping :=
  {| titleColumn := or_column (suggested titleSuggestions columns) columns 0;
     descriptionColumn :=
       or_column (suggested descriptionSuggestions columns) columns 1;
     availableColumns := columns |}.

(** A record of the upload history; [None] for a bot id that was not
    given. *)
Record UploadRecord := {
  rec_id : string;
  rec_fileName : string;
  rec_botId : option string;
  rec_contentType : string;
  rec_totalEntries : nat;
  rec_successful : nat;
  rec_failed : nat;
  rec_published : bool;
  rec_uploadedAt : string;
  rec_titleColumn : option string;      (* set by [processExcelFile] only *)
  rec_descriptionColumn : option string;
  rec_source : option string;           (* set by [processJsonData] only *)
}.

(** [getUploadHistory({ botId, limit = 10 })]: an empty bot id is as none. *)
Definition getUploadHistory (uploadHistory : list UploadRecord)
    (botId : option string) (limit : option number) : list UploadRecord :=
  let history :=
    match botId with
    | Some id =>
        if String.eqb id "" then uploadHistory
        else filter (λ record, rec_botId record = Some id) uploadHistory
    | None => uploadHistory
    end in
  slice0 history (default (Num 10) limit).

(** An element of the [data] of [processJsonData]. *)
Record JsonItem := {
  item_title : value;
  item_description : value;
  item_additionalFields : option (gmap string value);
}.

(** The callback of [data.map] in [processJsonData]. *)
Definition validate_item (index : nat) (item : JsonItem) : result Upload :=
  match item_title item with
  | VStr title =>
      if String.eqb title ""
      then Throw (Error ("Missing or invalid title at index " +:+ pretty index))
      else
        description ← trim_of (item_description item ||| VStr "");
        Ok {| up_title := VStr (trim title);
              up_description := VStr description;
              up_additionalFields :=
                Some (default ∅ (item_additionalFields item)) |}
  | _ => Throw (Error ("Missing or invalid title at index " +:+ pretty index))
  end.

(** [data.map((item, index) => ...)]. *)
Fixpoint map_indexed {A B} (f : nat → A → result B) (index : nat) (l : list A)
    : result (list B) :=
  match l with
  | [] => Ok []
  | a :: l' =>
      b ← f index a;
      bs ← map_indexed f (S index) l';
      Ok (b :: bs)
  end.

Record UploadOutcome := {
  uploadId : string;
  totalProcessed : nat;
  out_successful : list Created;
  out_failed : list Rejected;
  out_published : bool;
}.

(** What the service keeps: the requests made and the upload history. *)
Record UploadState := {
  requests : list request;
  uploadHistory : list UploadRecord;
}.

(** The check and the [data.map] that open [processJsonData]; [data] is
    [None] when it is no array. *)
Definition validate_data (data : option (list JsonItem))
    : result (list Upload) :=
  match data with
  | None | Some [] =>
      Throw (Error "Invalid data format. Expected non-empty array.")
  | Some items => map_indexed validate_item 0 items
  end.

(** [processJsonData].  The id of
    the record and the time come from outside ([uuidv4()],
    [new Date().toISOString()]); writing the history to its file is left
    out, as the code goes on when it fails. *)
Definition processJsonData (api : management) (uuid now : string)
    (data : option (list JsonItem)) (contentType : option string)
    (publish : bool) (botId : option string) (st : UploadState)
    : result UploadOutcome * UploadState :=
  let contentType := default "tour" contentType in
  match validate_data data with
  | Throw e =>
      (Throw (Error ("Failed to process JSON data: " +:+ message_of e)), st)
  | Ok processedEntries =>
      let (result, log) :=
        bulkCreateEntries api processedEntries (Some contentType) publish
          (requests st) in
      let uploadRecord :=
        {| rec_id := uuid; rec_fileName := "JSON Data"; rec_botId := botId;
           rec_contentType := contentType;
           rec_totalEntries := length processedEntries;
           rec_successful := length (successful result);
           rec_failed := length (failed result);
           rec_published := publish; rec_uploadedAt := now;
           rec_titleColumn := None; rec_descriptionColumn := None;
           rec_source := Some "json" |} in
      (Ok {| uploadId := uuid; totalProcessed := length processedEntries;
             out_successful := successful result;
             out_failed := failed result; out_published := publish |},
       {| requests := log;
          uploadHistory := uploadRecord :: uploadHistory st |})
  end.

Section ProcessExcel.
Variable stringify : Entry → string.

(** [processExcelFile] (lines 41-101).  Reading the sheet is the work of
    a library: [sheet] is what it gives, the rows of the first sheet or an
    error, and [fileName] the base name of the path. *)
Definition processExcelFile (api : management) (uuid now fileName : string)
    (sheet : result (list Entry)) (contentType : option string)
    (publish : bool) (titleColumn descriptionColumn botId : option string)
    (st : UploadState) : result UploadOutcome * UploadState :=
  let contentType := default "tour" contentType in
  let titleColumn := default "title" titleColumn in
  let descriptionColumn := default "description" descriptionColumn in
  let processed :=
    jsonData ← sheet;
    if length jsonData =? 0
    then Throw (Error "No data found in the Excel file")
    else processData stringify jsonData titleColumn descriptionColumn in
  match processed with
  | Throw e =>
      (Throw (Error ("Failed to process Excel file: " +:+ message_of e)), st)
  | Ok processedEntries =>
      let (result, log) :=
        bulkCreateEntries api processedEntries (Some contentType) publish
          (requests st) in
      let uploadRecord :=
        {| rec_id := uuid; rec_fileName := fileName; rec_botId := botId;
           rec_contentType := contentType;
           rec_totalEntries := length processedEntries;
           rec_successful := length (successful result);
           rec_failed := length (failed result);
           rec_published := publish; rec_uploadedAt := now;
           rec_titleColumn := Some titleColumn;
           rec_descriptionColumn := Some descriptionColumn;
           rec_source := None |} in
      (Ok {| uploadId := uuid; totalProcessed := length processedEntries;
             out_successful := successful result;
             out_failed := failed result; out_published := publish |},
       {| requests := log;
          uploadHistory := uploadRecord :: uploadHistory st |})
  end.
End ProcessExcel.

(** ** Bots: the bot service

    [getBotById], [updateBot], [deleteBot], [testBot] and [updateBotUsage]
    of the service that tests a bot against the content it finds with
    [intelligentSearch] (src/unnamed/part_001, lines 50-52, 85-105,
    107-118, 138-195 and 197-205).  A bot is an object, kept as a map; the
    bots are the array [this.bots]. *)

Abbreviation Bot := (gmap string value).

(** [bot.id === id], for the id of a route, which is a string. *)
Definition has_id (id : string) (bot : Bot) : bool :=
  match prop bot "id" with
  | VStr s => String.eqb s id
  | _ => false
  end.

(** [arr.findIndex(p)]; [None] stands for -1. *)
Fixpoint findIndex {A} (p : A → bool) (arr : list A) : option nat :=
  match arr with
  | [] => None
  | a :: arr' => if p a then Some 0 else S <$> findIndex p arr'
  end.

(** [getBotById]; [None] stands for undefined. *)
Definition getBotById (bots : list Bot) (id : string) : option Bot :=
  List.find (has_id id) bots.

(** [saveBots]: writing the file can fail; [written] says whether the
    write of the call succeeds. *)
Definition saveBots (written : bool) : result unit :=
  if written then Ok () else Throw (Error "Failed to save bot data").

(** [{ ...bot, ...updateData, id: bot.id, createdAt: bot.createdAt,
       updatedAt: new Date().toISOString() }], with the time as [now]. *)
Definition updated (bot updateData : gmap string value) (now : string) : Bot :=
  <["updatedAt" := VStr now]>
    (<["createdAt" := prop bot "createdAt"]>
       (<["id" := prop bot "id"]> (updateData ∪ bot))).

(** [updateBot]; [Ok None] stands for the null it returns for an id that
    no bot has.  The array is changed before the file is written. *)
Definition updateBot (id : string) (updateData : gmap string value)
    (now : string) (written : bool) (bots : list Bot)
    : result (option Bot) * list Bot :=
  match findIndex (has_id id) bots with
  | None => (Ok None, bots)
  | Some botIndex =>
      let bot := default ∅ (bots !! botIndex) in
      let updatedBot := updated bot updateData now in
      let bots := <[botIndex := updatedBot]> bots in
      (_ ← saveBots written; Ok (Some updatedBot), bots)
  end.

(** [deleteBot]. *)
Definition deleteBot (id : string) (written : bool) (bots : list Bot)
    : result bool * list Bot :=
  match findIndex (has_id id) bots with
  | None => (Ok false, bots)
  | Some botIndex =>
      let bots := delete botIndex bots in
      (_ ← saveBots written; Ok true, bots)
  end.

Record ContextMessage := {
  msg_role : string;
  msg_content : value;
}.

(** What [testBot] hands to [LLMService.generateResponse]. *)
Record LlmRequest := {
  llm_message : string;
  llm_provider : value;
  llm_model : value;
  llm_context : list ContextMessage;
  llm_botId : value;
}.

Record LlmResponse := {
  res_content : value;
  res_provider : value;
  res_model : value;
}.

(** [LLMService.generateResponse], a collaborator: what it returns or
    throws for a request. *)
Definition llm := LlmRequest → result LlmResponse.

(** What [testBot] returns. *)
Record TestReply := {
  reply_message : value;
  reply_provider : value;
  reply_model : value;
  relevantContent : nat;
  sources : SearchResult;
}.

(** What the service keeps and what it has asked of its collaborators:
    the bots, the number of requests made to the content store, and the
    requests made to the LLM, the latest last. *)
Record BotState := {
  bots : list Bot;
  fetches : nat;
  prompts : list LlmRequest;
}.

(** The entries of a result, as [relevantContent.map] meets them: the
    annotations of a scored entry leave its other properties as they
    are. *)
Definition items (r : SearchResult) : list Entry :=
  match r with
  | Unranked entries => entries
  | Ranked entries => entry <$> entries
  end.

Definition newline : string := String "010" "".

Section BotService.
(** The text of a value that is no string, as a template or a sum with a
    string gives it ([String(v)]). *)
Variable text_of : value → string.

(** [`${v}`]. *)
Definition text (v : value) : string :=
  match v with
  | VStr s => s
  | _ => text_of v
  end.

(** [(conversationCount || 0) + 1], on integers: the sum is exact while
    the count is a safe integer.  [||] has replaced undefined, null and
    false by 0 before the sum. *)
Definition next_count (conversationCount : value) : value :=
  match conversationCount ||| VNum 0 with
  | VNum z => VNum (z + 1)
  | VStr s => VStr (s +:+ "1")
  | VBool _ => VNum 2
  | VObj => VStr (text_of VObj +:+ "1")
  | VUndefined | VNull => VNum 1
  end.

(** [updateBotUsage]: the bot is changed in place, then the file is
    written. *)
Definition updateBotUsage (id now : string) (written : bool)
    (bots : list Bot) : result unit * list Bot :=
  match findIndex (has_id id) bots with
  | Some botIndex =>
      let bot := default ∅ (bots !! botIndex) in
      let bot :=
        <["conversationCount" := next_count (prop bot "conversationCount")]>
          bot in
      let bot := <["lastUsed" := VStr now]> bot in
      (saveBots written, <[botIndex := bot]> bots)
  | None => (Ok (), bots)
  end.

(** The content type [intelligentSearch] receives: its default stands in
    for undefined only. *)
Definition contentType_of (v : value) : option string :=
  match v with
  | VUndefined => None
  | v => Some (text v)
  end.

(** [`Title: ${item.title}\nDescription: ${item.description ||
    item.content || ''}`]. *)
Definition knowledge_item (item : Entry) : string :=
  "Title: " +:+ text (field item "title") +:+ newline +:+ "Description: "
    +:+ text (field item "description" ||| field item "content" ||| VStr "").

Definition knowledge (relevantContent : SearchResult) : string :=
  "Here's some relevant information from our knowledge base:" +:+ newline
    +:+ newline
    +:+ Str.join (newline +:+ newline)
          (knowledge_item <$> items relevantContent).

(** The context of the request: the system prompt, and the knowledge
    when the search found something. *)
Definition context_of (bot : Bot) (relevantContent : SearchResult)
    : list ContextMessage :=
  {| msg_role := "system"; msg_content := prop bot "systemPrompt" |}
  :: (if 0 <? result_length relevantContent
      then [{| msg_role := "system";
               msg_content := VStr (knowledge relevantContent) |}]
      else []).

(** What the [catch] of [testBot] throws. *)
Definition test_failure (e : exn) : exn :=
  Error ("Bot test failed: " +:+ message_of e).

(** [testBot] (lines 138-195). *)
Definition testBot (cs : store) (generateResponse : llm)
    (id message now : string) (written : bool) (st : BotState)
    : result TestReply * BotState :=
  match getBotById (bots st) id with
  | None => (Throw (Error "Bot not found"), st)
  | Some bot =>
      if negb (truthy (prop bot "isActive"))
      then (Throw (Error "Bot is not active"), st)
      else
        let (found, n) :=
          intelligentSearch cs
            {| query := message;
               contentType := contentType_of (prop bot "contentType");
               maxResults := Some (Num 3) |}
            (fetches st) in
        match found with
        | Throw e =>
            (Throw (test_failure e),
             {| bots := bots st; fetches := n; prompts := prompts st |})
        | Ok relevantContent =>
            let request :=
              {| llm_message := message;
                 llm_provider := prop bot "llmProvider";
                 llm_model := prop bot "llmModel";
                 llm_context := context_of bot relevantContent;
                 llm_botId := prop bot "id" |} in
            let asked := prompts st ++ [request] in
            match generateResponse request with
            | Throw e =>
                (Throw (test_failure e),
                 {| bots := bots st; fetches := n; prompts := asked |})
            | Ok response =>
                let (saved, bots) := updateBotUsage id now written (bots st) in
                (match saved with
                 | Throw e => Throw (test_failure e)
                 | Ok _ =>
                     Ok {| reply_message := res_content response;
                           reply_provider := res_provider response;
                           reply_model := res_model response;
                           relevantContent := result_length relevantContent;
                           sources := relevantContent |}
                 end,
                 {| bots := bots; fetches := n; prompts := asked |})
            end
        end
  end.
End BotService.

(** ** Uploads of the examples *)

(** An API that creates every entry, under the uid [blt1], and refuses to
    publish any. *)
Definition publish_refusing : management :=
  λ _ req,
    match req with
    | CreateEntry _ entryData =>
        Replied (Some (<["uid" := VStr "blt1"]> entryData))
    | PublishEntry _ _ => Refused "" "Request failed with status code 422"
    end.

Definition paris_upload : Upload :=
  {| up_title := VStr "Paris Tour"; up_description := VStr "Three days";
     up_additionalFields := None |}.

(** Rows of a sheet with the columns Title and Price. *)
Definition priced_row : Entry :=
  [("Title", VStr "  Paris Tour "); ("Price", VStr "$299")].
Definition unnamed_row : Entry :=
  [("Title", VStr "   "); ("Price", VStr "$99")].

Definition priced_upload : Upload :=
  {| up_title := VStr "Paris Tour"; up_description := VStr "";
     up_additionalFields :=
       Some (<["price" := VStr "$299"]> {["title" := VStr "  Paris Tour "]}) |}.

(** A printer of rows for the examples, which gives the names of the
    columns only. *)
Definition column_names (row : Entry) : string :=
  "{" +:+ Str.join "," row.*1 +:+ "}".

Definition rome_item : JsonItem :=
  {| item_title := VStr "Rome"; item_description := VUndefined;
     item_additionalFields := None |}.
Definition numbered_item : JsonItem :=
  {| item_title := VNum 7; item_description := VStr "a week";
     item_additionalFields := None |}.

Definition upload_of (id : string) (bot : option string) : UploadRecord :=
  {| rec_id := id; rec_fileName := "tours.xlsx"; rec_botId := bot;
     rec_contentType := "tour"; rec_totalEntries := 2; rec_successful := 2;
     rec_failed := 0; rec_published := false;
     rec_uploadedAt := "2024-05-01T10:00:00.000Z";
     rec_titleColumn := Some "title";
     rec_descriptionColumn := Some "description"; rec_source := None |}.

Definition no_uploads : UploadState := {| requests := []; uploadHistory := [] |}.

(** ** Bots of the examples *)

Definition guide : Bot :=
  <["id" := VStr "b1"]>
    (<["name" := VStr "Guide"]>
       (<["isActive" := VBool true]>
          (<["systemPrompt" := VStr "You are Guide."]>
             {["conversationCount" := VNum 4]}))).

(** The text of the values of the examples. *)
Definition plain_text (v : value) : string :=
  match v with
  | VStr s => s
  | VNum z => pretty z
  | VBool true => "true"
  | VBool false => "false"
  | VNull => "null"
  | VUndefined => "undefined"
  | VObj => "[object Object]"
  end.

(** An LLM that answers every request in the same words. *)
Definition answering : llm :=
  λ request,
    Ok {| res_content := VStr "Try the Paris Getaway.";
          res_provider := llm_provider request;
          res_model := llm_model request |}.

Definition one_guide : BotState :=
  {| bots := [guide]; fetches := 0; prompts := [] |}.

(** * Proofs *)

(** ** The edit distance *)

Section LevFacts.
Context {A : Type} `{EqDecision A}.
Implicit Types s t : list A.

Lemma lev_nil_l t : lev [] t = length t.
Proof. reflexivity. Qed.

Lemma lev_nil_r s : lev s [] = length s.
Proof. by destruct s. Qed.

Lemma lev_cons x y s t :
  lev (x :: s) (y :: t) =
    if decide (x = y) then lev s t
    else S (lev s t `min` (lev (x :: s) t `min` lev s (y :: t))).
Proof. reflexivity. Qed.

Lemma edit_lev s t : edit s t (lev s t).
Proof.
  revert t. induction s as [|x s IHs]; intros t.
  - induction t as [|y t IHt]; [constructor|]. by apply edit_insert.
  - induction t as [|y t IHt].
    + rewrite lev_nil_r. cbn [length]. apply edit_delete.
      specialize (IHs []). by rewrite lev_nil_r in IHs.
    + rewrite lev_cons. case_decide as Hxy.
      * subst y. by apply edit_keep.
      * destruct (Nat.min_spec (lev s t) (lev (x :: s) t `min` lev s (y :: t)))
          as [[_ ->]|[_ ->]]; [by apply edit_subst|].
        destruct (Nat.min_spec (lev (x :: s) t) (lev s (y :: t)))
          as [[_ ->]|[_ ->]]; [by apply edit_insert|by apply edit_delete].
Qed.

(** One character more or less on either side moves the distance by at
    most one. *)
Lemma lev_step n s t a :
  length s + length t ≤ n →
  lev s t ≤ S (lev (a :: s) t) ∧ lev s t ≤ S (lev s (a :: t)) ∧
  lev (a :: s) t ≤ S (lev s t) ∧ lev s (a :: t) ≤ S (lev s t).
Proof.
  revert s t a. induction n as [n IH] using lt_wf_ind. intros s t a Hn.
  destruct s as [|x s], t as [|y t]; cbn [length] in Hn.
  - rewrite !lev_nil_r, !lev_nil_l. cbn [length]. lia.
  - pose proof (IH (length t) ltac:(lia) [] t a ltac:(cbn [length]; lia)) as Ht.
    rewrite lev_cons, !lev_nil_l in *. cbn [length] in *.
    case_decide; lia.
  - pose proof (IH (length s) ltac:(lia) s [] a ltac:(cbn [length]; lia)) as Hs.
    rewrite lev_cons, !lev_nil_r in *. cbn [length] in *.
    case_decide; lia.
  - pose proof (IH (length s + S (length t)) ltac:(lia) s (y :: t) x
                  ltac:(cbn [length]; lia)) as H1.
    pose proof (IH (length s + S (length t)) ltac:(lia) s (y :: t) a
                  ltac:(cbn [length]; lia)) as H1a.
    pose proof (IH (S (length s) + length t) ltac:(lia) (x :: s) t y
                  ltac:(cbn [length]; lia)) as H2.
    pose proof (IH (S (length s) + length t) ltac:(lia) (x :: s) t a
                  ltac:(cbn [length]; lia)) as H2a.
    rewrite !(lev_cons a), (lev_cons x a).
    rewrite (lev_cons x y) in *.
    repeat case_decide; subst; lia.
Qed.

Lemma lev_delete_le a s t : lev (a :: s) t ≤ S (lev s t).
Proof. by eapply lev_step. Qed.

Lemma lev_insert_le a s t : lev s (a :: t) ≤ S (lev s t).
Proof. by eapply lev_step. Qed.

Lemma lev_least s t n : edit s t n → lev s t ≤ n.
Proof.
  induction 1 as [|x s t n _ IH|x y s t n _ IH|x s t n _ IH|y s t n _ IH].
  - done.
  - rewrite lev_cons. by case_decide.
  - rewrite lev_cons. case_decide; lia.
  - pose proof (lev_delete_le x s t). lia.
  - pose proof (lev_insert_le y s t). lia.
Qed.

Lemma lev_min_edit_cost s t : min_edit_cost s t (lev s t).
Proof. split; [apply edit_lev|apply lev_least]. Qed.

Lemma edit_sym s t n : edit s t n → edit t s n.
Proof. induction 1; by constructor. Qed.

Lemma lev_sym s t : lev s t = lev t s.
Proof.
  apply Nat.le_antisymm; apply lev_least, edit_sym, edit_lev.
Qed.

Lemma edit_snoc_keep x s t n : edit s t n → edit (s ++ [x]) (t ++ [x]) n.
Proof. induction 1; simpl; by repeat constructor. Qed.

Lemma edit_snoc_subst x y s t n :
  edit s t n → edit (s ++ [x]) (t ++ [y]) (S n).
Proof. induction 1; simpl; by repeat constructor. Qed.

Lemma edit_snoc_delete x s t n : edit s t n → edit (s ++ [x]) t (S n).
Proof. induction 1; simpl; by repeat constructor. Qed.

Lemma edit_snoc_insert y s t n : edit s t n → edit s (t ++ [y]) (S n).
Proof. induction 1; simpl; by repeat constructor. Qed.

Lemma edit_reverse s t n : edit s t n → edit (reverse s) (reverse t) n.
Proof.
  induction 1; rewrite ?reverse_cons;
    eauto using edit_nil, edit_snoc_keep, edit_snoc_subst,
      edit_snoc_delete, edit_snoc_insert.
Qed.

Lemma lev_reverse s t : lev (reverse s) (reverse t) = lev s t.
Proof.
  apply Nat.le_antisymm.
  - apply lev_least, edit_reverse, edit_lev.
  - rewrite <-(reverse_involutive s), <-(reverse_involutive t) at 1.
    apply lev_least, edit_reverse, edit_lev.
Qed.
End LevFacts.

(** ** The matrix of [levenshteinDistance] *)

Section LevSnoc.
Context {A : Type} `{EqDecision A}.
Implicit Types s t : list A.

Lemma lev_snoc x y s t :
  lev (s ++ [x]) (t ++ [y]) =
    if decide (x = y) then lev s t
    else S (lev s t `min` (lev (s ++ [x]) t `min` lev s (t ++ [y]))).
Proof.
  rewrite <-(lev_reverse (s ++ [x]) (t ++ [y])), !reverse_snoc, lev_cons.
  rewrite <-(reverse_snoc s x), <-(reverse_snoc t y), !lev_reverse.
  done.
Qed.
End LevSnoc.

Module LevenshteinFacts.
Import Levenshtein.

Lemma length_chars s : length (Str.chars s) = String.length s.
Proof. induction s; simpl; congruence. Qed.

Lemma assign_inside {A} (arr : list A) i v :
  i < length arr → assign arr i v = Some (<[i := v]> arr).
Proof. intros Hi. unfold assign. by rewrite decide_True. Qed.

Lemma assign_end {A} (arr : list A) i v :
  i = length arr → assign arr i v = Some (arr ++ [v]).
Proof.
  intros ->. unfold assign. rewrite decide_False by lia.
  by rewrite decide_True.
Qed.

Lemma for_loop_step {St} lo count (body : nat → St → option St) s s' :
  body lo s = Some s' →
  for_loop lo (S count) body s = for_loop (S lo) count body s'.
Proof. intros Hs. simpl. by rewrite Hs. Qed.

Lemma for_loop_invariant {St} (P : nat → St → Prop) lo count
    (body : nat → St → option St) s :
  P lo s →
  (∀ i s, lo ≤ i < lo + count → P i s → ∃ s', body i s = Some s' ∧ P (S i) s') →
  ∃ s', for_loop lo count body s = Some s' ∧ P (lo + count) s'.
Proof.
  revert lo s. induction count as [|count IH]; intros lo s HP Hbody.
  - exists s. by rewrite Nat.add_0_r.
  - destruct (Hbody lo s ltac:(lia) HP) as (s1 & Hs1 & HP1).
    destruct (IH (S lo) s1 HP1) as (s2 & Hs2 & HP2).
    { intros i s' ? ?. apply Hbody; [lia|done]. }
    exists s2. rewrite (for_loop_step _ _ _ _ _ Hs1), Hs2.
    by rewrite Nat.add_succ_r.
Qed.

Section Matrix.
Variables str1 str2 : string.
Local Abbreviation len1 := (String.length str1).
Local Abbreviation len2 := (String.length str2).
Local Abbreviation D := (prefix_distance str1 str2).
Local Abbreviation mat := (distance_matrix str1 str2).

Lemma distance_matrix_ext w w' :
  (∀ i, i ≤ len2 → w i = w' i) → mat w = mat w'.
Proof.
  intros Hw. apply list_fmap_ext. intros k i [-> ?]%lookup_seq.
  rewrite Hw; [done|]. lia.
Qed.

Lemma distance_matrix_row w i :
  i ≤ len2 → mat w !! i = Some (D i <$> seq 0 (w i)).
Proof.
  intros Hi. unfold distance_matrix.
  rewrite list_lookup_fmap, lookup_seq_lt; [done|]. lia.
Qed.

Lemma distance_matrix_cell w i j :
  i ≤ len2 → j < w i → cell (mat w) i j = Some (D i j).
Proof.
  intros Hi Hj. unfold cell. rewrite distance_matrix_row by done. simpl.
  by rewrite list_lookup_fmap, lookup_seq_lt.
Qed.

Lemma prefix_distance_0_r i : i ≤ len2 → D i 0 = i.
Proof.
  intros Hi. unfold prefix_distance. rewrite take_0, lev_nil_r.
  rewrite length_take_le; [done|]. rewrite length_chars. done.
Qed.

Lemma prefix_distance_0_l j : j ≤ len1 → D 0 j = j.
Proof.
  intros Hj. unfold prefix_distance. rewrite take_0, lev_nil_l.
  rewrite length_take_le; [done|]. rewrite length_chars. done.
Qed.

(** The recurrence of the code, as the cells obey it. *)
Lemma prefix_distance_S i j :
  i < len2 → j < len1 →
  D (S i) (S j) =
    if decide (Str.charAt str2 i = Str.charAt str1 j) then D i j
    else (D i j + 1) `min` ((D (S i) j + 1) `min` (D i (S j) + 1)).
Proof.
  intros Hi Hj. unfold prefix_distance, Str.charAt.
  destruct (lookup_lt_is_Some_2 (Str.chars str2) i) as [x Hx];
    [rewrite length_chars; done|].
  destruct (lookup_lt_is_Some_2 (Str.chars str1) j) as [y Hy];
    [rewrite length_chars; done|].
  rewrite Hx, Hy, (take_S_r _ _ _ Hx), (take_S_r _ _ _ Hy), lev_snoc.
  repeat case_decide; simplify_eq; lia.
Qed.

(** Writing the next cell of row [i]. *)
Lemma assign_cell_next w w' i j v :
  i ≤ len2 → w i = j → w' i = S j → (∀ k, k ≠ i → w' k = w k) →
  v = D i j →
  assign_cell (mat w) i j v = Some (mat w').
Proof.
  intros Hi Hw Hw' Hother ->. unfold assign_cell.
  rewrite distance_matrix_row by done. simpl.
  rewrite (assign_end (D i <$> _)) by (by rewrite length_fmap, length_seq).
  simpl. rewrite assign_inside.
  2:{ unfold distance_matrix. rewrite length_fmap, length_seq.
      lia. }
  f_equal. apply list_eq. intros k.
  destruct (decide (k = i)) as [->|Hk].
  - rewrite list_lookup_insert_eq.
    2:{ unfold distance_matrix. rewrite length_fmap, length_seq.
        lia. }
    rewrite distance_matrix_row, Hw', Hw by done.
    by rewrite seq_S, fmap_app.
  - rewrite list_lookup_insert_ne by done.
    unfold distance_matrix. rewrite !list_lookup_fmap.
    destruct (seq 0 (S (String.length str2)) !! k) as [k'|] eqn:Hk';
      [|done].
    apply lookup_seq in Hk' as [-> _]. simpl. by rewrite Hother.
Qed.

(** Writing again a cell that is already there. *)
Lemma assign_cell_again w i j v :
  i ≤ len2 → j < w i → v = D i j →
  assign_cell (mat w) i j v = Some (mat w).
Proof.
  intros Hi Hj ->. unfold assign_cell.
  rewrite distance_matrix_row by done. simpl.
  rewrite (assign_inside (D i <$> _)) by (by rewrite length_fmap, length_seq).
  simpl. rewrite assign_inside.
  2:{ unfold distance_matrix. rewrite length_fmap, length_seq.
      lia. }
  f_equal. apply list_insert_id. rewrite distance_matrix_row by done.
  f_equal. symmetry. apply list_insert_id.
  by rewrite list_lookup_fmap, lookup_seq_lt.
Qed.

Lemma init_rows :
  for_loop 0 (S len2) (λ i m, assign m i [i]) [] = Some (mat (λ _, 1)).
Proof.
  destruct (for_loop_invariant
              (λ i m, m = (λ k, [k]) <$> seq 0 i) 0 (S len2)
              (λ i (m : matrix), assign m i [i]) []) as (m & -> & ->);
    [done| |].
  - intros i m _ ->. eexists. split; [|by rewrite seq_S, fmap_app].
    apply assign_end. by rewrite length_fmap, length_seq.
  - f_equal. apply list_fmap_ext. intros k i [-> ?]%lookup_seq. simpl.
    rewrite prefix_distance_0_r; [done|lia].
Qed.

Lemma init_first_row :
  for_loop 0 (S len1) (λ j m, assign_cell m 0 j j) (mat (λ _, 1))
  = Some (mat (first_row_width (S len1))).
Proof.
  rewrite (for_loop_step _ _ _ _ (mat (first_row_width 1))).
  2:{ rewrite assign_cell_again;
        [|lia|lia|by rewrite prefix_distance_0_l by lia].
      f_equal. apply distance_matrix_ext. intros k _.
      unfold first_row_width. by case_decide. }
  destruct (for_loop_invariant
              (λ j m, m = mat (first_row_width j)) 1 len1
              (λ j (m : matrix), assign_cell m 0 j j)
              (mat (first_row_width 1))) as (m & -> & ->); [done| |done].
  intros j m Hj ->. eexists. split; [|done].
  apply assign_cell_next; unfold first_row_width; try done; [lia| |].
  - intros k Hk. by rewrite !decide_False.
  - rewrite prefix_distance_0_l; [done|lia].
Qed.

Local Abbreviation fill_width := (Levenshtein.fill_width len1).

Lemma fill_cell_next i j :
  1 ≤ i ≤ len2 → 1 ≤ j ≤ len1 →
  fill_cell str1 str2 i j (mat (fill_width i j))
  = Some (mat (fill_width i (S j))).
Proof.
  intros Hi Hj. unfold fill_cell.
  assert (cell (mat (fill_width i j)) (i - 1) (j - 1)
          = Some (D (i - 1) (j - 1))) as ->.
  { apply distance_matrix_cell; [lia|]. unfold fill_width.
    rewrite decide_True; lia. }
  assert (cell (mat (fill_width i j)) i (j - 1) = Some (D i (j - 1)))
    as ->.
  { apply distance_matrix_cell; [lia|]. unfold fill_width.
    rewrite decide_False by lia. rewrite decide_True; lia. }
  assert (cell (mat (fill_width i j)) (i - 1) j = Some (D (i - 1) j))
    as ->.
  { apply distance_matrix_cell; [lia|]. unfold fill_width.
    rewrite decide_True; lia. }
  pose proof (prefix_distance_S (i - 1) (j - 1) ltac:(lia) ltac:(lia))
    as HD.
  replace (S (i - 1)) with i in HD by lia.
  replace (S (j - 1)) with j in HD by lia.
  assert ((if decide (Str.charAt str2 (i - 1) = Str.charAt str1 (j - 1))
           then Some (D (i - 1) (j - 1))
           else
             diag ← Some (D (i - 1) (j - 1));
             left ← Some (D i (j - 1));
             up ← Some (D (i - 1) j);
             Some ((diag + 1) `min` ((left + 1) `min` (up + 1))))
          = Some (D i j)) as Hv.
  { rewrite HD. by case_decide. }
  rewrite Hv. simpl.
  apply assign_cell_next; unfold fill_width; try done; try lia.
  - repeat case_decide; lia.
  - repeat case_decide; lia.
  - intros k Hk. repeat case_decide; lia.
Qed.

Lemma fill_rows :
  for_loop 1 len2
    (λ i, for_loop 1 len1 (λ j, fill_cell str1 str2 i j))
    (mat (first_row_width (S len1)))
  = Some (mat (λ _, S len1)).
Proof.
  destruct (for_loop_invariant
              (λ i m, m = mat (fill_width i 1)) 1 len2
              (λ i, for_loop 1 len1 (λ j, fill_cell str1 str2 i j))
              (mat (first_row_width (S len1)))) as (m & -> & ->).
  - apply distance_matrix_ext. intros k _.
    unfold first_row_width, fill_width. repeat case_decide; lia.
  - intros i m Hi ->.
    destruct (for_loop_invariant
                (λ j m, m = mat (fill_width i j)) 1 len1
                (λ j, fill_cell str1 str2 i j)
                (mat (fill_width i 1))) as (m & -> & ->); [done| |].
    + intros j m Hj ->. eexists. split; [|done].
      apply fill_cell_next; lia.
    + eexists. split; [done|]. apply distance_matrix_ext. intros k _.
      unfold fill_width. repeat case_decide; lia.
  - f_equal. apply distance_matrix_ext. intros k Hk.
    unfold fill_width. rewrite decide_True; lia.
Qed.

Lemma levenshteinMatrix_full :
  levenshteinMatrix str1 str2 = Some (mat (λ _, S len1)).
Proof.
  unfold levenshteinMatrix.
  rewrite init_rows. cbn [mbind option_bind].
  rewrite init_first_row. cbn [mbind option_bind]. apply fill_rows.
Qed.

Lemma levenshteinDistance_lev :
  levenshteinDistance str1 str2
  = Some (lev (Str.chars str1) (Str.chars str2)).
Proof.
  unfold levenshteinDistance. rewrite levenshteinMatrix_full.
  cbn [mbind option_bind].
  rewrite distance_matrix_cell by lia. f_equal.
  unfold prefix_distance.
  rewrite !take_ge by (rewrite length_chars; lia).
  apply lev_sym.
Qed.
End Matrix.
End LevenshteinFacts.

(** ** Strings *)

Module StrFacts.
Import Str.

Lemma append_cons a s t : String a s +:+ t = String a (s +:+ t).
Proof. reflexivity. Qed.

Lemma append_nil_l s : "" +:+ s = s.
Proof. reflexivity. Qed.

Lemma append_nil_r s : s +:+ "" = s.
Proof. induction s as [|a s IH]; [done|]. by rewrite append_cons, IH. Qed.

Lemma append_assoc s t u : (s +:+ t) +:+ u = s +:+ t +:+ u.
Proof.
  induction s as [|a s IH]; [done|]. by rewrite !append_cons, IH.
Qed.

Lemma starts_with_spec t s :
  starts_with t s = true ↔ ∃ post, s = t +:+ post.
Proof.
  revert s. induction t as [|a t IH]; intros s; simpl.
  - split; [by exists s|done].
  - destruct s as [|b s]; [split; [done|by intros [? ?]]|].
    case_decide as Hab.
    + subst b. rewrite IH. split; intros [post Hpost]; exists post.
      * by rewrite Hpost.
      * rewrite append_cons in Hpost. by simplify_eq.
    + split; [done|]. intros [post Hpost].
      rewrite append_cons in Hpost. by simplify_eq.
Qed.

Lemma includes_spec s t :
  includes s t = true ↔ ∃ pre post, s = pre +:+ t +:+ post.
Proof.
  induction s as [|a s IH].
  - simpl. rewrite orb_false_r, starts_with_spec.
    split; [intros [post ?]; by exists "", post|].
    intros ([|??] & post & Hs); [by exists post|done].
  - cbn [includes]. rewrite orb_true_iff, starts_with_spec, IH.
    split.
    + intros [[post Hs]|(pre & post & Hs)].
      * by exists "", post.
      * exists (String a pre), post. by rewrite Hs.
    + intros ([|b pre] & post & Hs).
      * left. by exists post.
      * right. exists pre, post. rewrite append_cons in Hs.
        by simplify_eq.
Qed.

Lemma includes_refl s : includes s s = true.
Proof. apply includes_spec. exists "", "". by rewrite append_nil_r. Qed.

Lemma includes_empty s : includes s "" = true.
Proof. apply includes_spec. by exists "", s. Qed.


Lemma includes_append_l s t u :
  includes s u = true → includes (s +:+ t) u = true.
Proof.
  rewrite !includes_spec. intros (p & q & ->).
  exists p, (q +:+ t). by rewrite !append_assoc.
Qed.

Lemma includes_append_r s t u :
  includes t u = true → includes (s +:+ t) u = true.
Proof.
  rewrite !includes_spec. intros (p & q & ->).
  exists (s +:+ p), q. by rewrite !append_assoc.
Qed.

Lemma toLowerCase_append s t :
  toLowerCase (s +:+ t) = toLowerCase s +:+ toLowerCase t.
Proof.
  induction s as [|a s IH]; [done|]. rewrite append_cons. simpl.
  by rewrite append_cons, IH.
Qed.

Lemma join_cons sep w ws :
  ws ≠ [] → join sep (w :: ws) = w +:+ sep +:+ join sep ws.
Proof. by destruct ws. Qed.

Lemma join_includes sep l w : w ∈ l → includes (join sep l) w = true.
Proof.
  induction l as [|v l IH]; [by intros ?%elem_of_nil|].
  intros Hw. destruct l as [|v' l].
  - apply list_elem_of_singleton in Hw as ->. apply includes_refl.
  - rewrite join_cons by done. apply elem_of_cons in Hw as [->|Hw].
    + apply includes_append_l, includes_refl.
    + by apply includes_append_r, includes_append_r, IH.
Qed.

Lemma split_nonempty sep s : split sep s ≠ [].
Proof.
  destruct s as [|c s]; simpl; [done|].
  case_decide; [done|]. by destruct (split sep s).
Qed.
(** The capitals of Latin-1 are lowered as those of A-Z: CAFE with its
    last letter the code unit 201 becomes cafe with the code unit 233; the
    signs 215 and 223 stay. *)
Lemma toLowerCase_latin1 :
  Str.toLowerCase ("CAF" +:+ String "201" "") = "caf" +:+ String "233" ""
  ∧ Str.toLowerCase (String "215" (String "223" ""))
    = String "215" (String "223" "").
Proof. split; by vm_compute. Qed.
End StrFacts.

(** ** Sorting by score *)

Section SortFacts.
Context {A : Type} (key : A → Z).
Local Abbreviation compare := (λ a b : A, (key b - key a)%Z).
Implicit Types l : list A.

Lemma sort_insert_Forall (P : A → Prop) a l :
  P a → Forall P l → Forall P (sort_insert compare a l).
Proof.
  intros Ha. induction 1 as [|b l Hb Hl IH]; simpl; [by repeat constructor|].
  case_match; repeat constructor; done.
Qed.

Lemma sort_Forall (P : A → Prop) l : Forall P l → Forall P (sort compare l).
Proof. induction 1; simpl; [done|]. by apply sort_insert_Forall. Qed.

Lemma sort_insert_length a l :
  length (sort_insert compare a l) = S (length l).
Proof. induction l; simpl; [done|]. case_match; simpl; congruence. Qed.

Lemma sort_length l : length (sort compare l) = length l.
Proof.
  induction l; simpl; [done|]. rewrite sort_insert_length. congruence.
Qed.

Lemma sort_insert_sorted a l :
  StronglySorted (λ x y, key y ≤ key x)%Z l →
  StronglySorted (λ x y, key y ≤ key x)%Z (sort_insert compare a l).
Proof.
  induction 1 as [|b l Hl IH Hb]; simpl; [by repeat constructor|].
  destruct (0 <? key b - key a)%Z eqn:Hab.
  - apply Z.ltb_lt in Hab. constructor; [done|].
    apply sort_insert_Forall; [lia|done].
  - apply Z.ltb_ge in Hab. constructor; [by constructor|].
    constructor; [lia|]. eapply Forall_impl; [done|]. simpl. lia.
Qed.

Lemma sort_sorted l :
  StronglySorted (λ x y, key y ≤ key x)%Z (sort compare l).
Proof. induction l; simpl; [constructor|]. by apply sort_insert_sorted. Qed.

(** Stability: the entries of one score stay in the order they had. *)
Lemma sort_insert_stable k a l :
  filter (λ x, key x = k) (sort_insert compare a l)
  = filter (λ x, key x = k) (a :: l).
Proof.
  induction l as [|b l IH]; simpl; [done|].
  destruct (0 <? key b - key a)%Z eqn:Hab; [|done].
  apply Z.ltb_lt in Hab. rewrite (filter_cons _ b), IH, !filter_cons.
  repeat case_decide; try done; lia.
Qed.

Lemma sort_stable k l :
  filter (λ x, key x = k) (sort compare l) = filter (λ x, key x = k) l.
Proof.
  induction l as [|a l IH]; simpl; [done|].
  by rewrite sort_insert_stable, !filter_cons, IH.
Qed.

Lemma sort_insert_perm a l : sort_insert compare a l ≡ₚ a :: l.
Proof.
  induction l as [|b l IH]; simpl; [done|].
  case_match; [|done]. by rewrite IH, Permutation_swap.
Qed.

Lemma sort_perm l : sort compare l ≡ₚ l.
Proof.
  induction l as [|a l IH]; simpl; [done|].
  by rewrite sort_insert_perm, IH.
Qed.
End SortFacts.

Lemma filter_prefix {A} (P : A → Prop) `{∀ x, Decision (P x)} (l1 l2 : list A) :
  l1 `prefix_of` l2 → filter P l1 `prefix_of` filter P l2.
Proof. intros [k ->]. rewrite filter_app. by eexists. Qed.

(** ** Query enhancement *)

Lemma fold_left_append {A} (c : A → bool) (suffix : A → string) l q :
  fold_left (λ acc a, if c a then acc +:+ suffix a else acc) l q
  = q +:+ foldr String.append "" ((λ a, if c a then suffix a else "") <$> l).
Proof.
  revert q. induction l as [|a l IH]; intros q; simpl.
  - by rewrite StrFacts.append_nil_r.
  - rewrite IH. destruct (c a); [|done]. by rewrite StrFacts.append_assoc.
Qed.

(** C5.  [enhanceQuery] returns the query as given, followed, for each
    trigger (travel, food, hotel, activity, in this order) whose lowercase
    form occurs in the lowercased query, by a space and the trigger's
    synonyms joined by spaces; it is defined on every string, and returns
    the query unchanged when no trigger occurs in it. *)
Theorem enhanceQuery_appends_synonyms (query : string) :
  enhanceQuery query
  = query +:+ foldr String.append "" (enhancement query <$> synonyms)
  ∧ synonyms.*1 = ["travel"; "food"; "hotel"; "activity"]
  ∧ (Forall (λ kv, Str.includes (Str.toLowerCase query)
                     (Str.toLowerCase kv.1) = false) synonyms →
     enhanceQuery query = query).
Proof.
  assert (enhanceQuery query
          = query +:+ foldr String.append "" (enhancement query <$> synonyms))
    as Heq.
  { unfold enhanceQuery.
    rewrite (fold_left_append
               (λ kv, Str.includes (Str.toLowerCase query) kv.1)
               (λ kv, " " +:+ Str.join " " kv.2)).
    reflexivity. }
  split; [done|]. split; [done|].
  intros Hnone. rewrite Heq.
  assert (enhancement query <$> synonyms = (λ _, "") <$> synonyms) as ->.
  { apply list_fmap_ext. intros j kv Hkv.
    rewrite Forall_lookup in Hnone. unfold enhancement.
    by rewrite (Hnone _ _ Hkv). }
  apply StrFacts.append_nil_r.
Qed.

Lemma enhanceQuery_appends_synonyms_witness :
  Forall (λ kv, Str.includes (Str.toLowerCase "Rome by night")
                  (Str.toLowerCase kv.1) = false) synonyms
  ∧ enhanceQuery "Rome by night" = "Rome by night".
Proof.
  assert (Forall (λ kv, Str.includes (Str.toLowerCase "Rome by night")
                          (Str.toLowerCase kv.1) = false) synonyms) as H.
  { repeat constructor. }
  split; [exact H|].
  exact (proj2 (proj2 (enhanceQuery_appends_synonyms "Rome by night")) H).
Defined.

(** C8, as the code has it.  The enhancement of "Paris food tour" appends
    the synonyms of food only: no trigger occurs in the query but "food".
    The terms are those of the query and cuisine, dining, restaurant and
    meal; of the synonyms of travel they hold "tour", which the query
    brings itself, and none of trip, journey and vacation. *)
Theorem paris_food_tour_terms :
  enhanceQuery "Paris food tour"
  = "Paris food tour cuisine dining restaurant meal"
  ∧ search_terms "Paris food tour"
    = ["paris"; "food"; "tour"; "cuisine"; "dining"; "restaurant"; "meal"]
  ∧ Forall (λ w, w ∉ search_terms "Paris food tour")
      ["trip"; "journey"; "vacation"].
Proof.
  split; [by vm_compute|]. split; [by vm_compute|].
  assert (search_terms "Paris food tour"
          = ["paris"; "food"; "tour"; "cuisine"; "dining"; "restaurant"; "meal"])
    as -> by (by vm_compute).
  repeat constructor; intros Hin;
    repeat (apply elem_of_cons in Hin as [?|Hin]; [done|]);
    by apply elem_of_nil in Hin.
Qed.

(** C8 as stated fails: the terms of the enhanced "Paris food tour" do not
    include all the synonyms of travel ("trip" is not among them). *)
Lemma paris_food_tour_lacks_travel_synonyms :
  ¬ (∀ w, w ∈ ["cuisine"; "dining"; "restaurant"; "meal";
                "trip"; "journey"; "vacation"; "tour"] →
          w ∈ search_terms "Paris food tour").
Proof.
  intros Hall. specialize (Hall "trip").
  assert (search_terms "Paris food tour"
          = ["paris"; "food"; "tour"; "cuisine"; "dining"; "restaurant"; "meal"])
    as Hterms by (by vm_compute).
  rewrite Hterms in Hall.
  assert ("trip" ∈ ["paris"; "food"; "tour"; "cuisine"; "dining";
                    "restaurant"; "meal"]) as Hin.
  { apply Hall. do 4 apply list_elem_of_further. apply list_elem_of_here. }
  repeat (apply elem_of_cons in Hin as [?|Hin]; [done|]).
  by apply elem_of_nil in Hin.
Qed.

(** ** Plain search: the title is part of the whole text *)







(** ** Ranking *)

Lemma slice0_nonneg {A} (l : list A) z :
  (0 ≤ z)%Z → slice0 l (Num z) = take (Z.to_nat z) l.
Proof.
  intros Hz. unfold slice0. rewrite (proj2 (Z.ltb_ge z 0)) by done.
  destruct (decide (z ≤ Z.of_nat (length l))%Z).
  - by rewrite Z.min_l by done.
  - rewrite Z.min_r by lia. rewrite Nat2Z.id.
    by rewrite !take_ge by lia.
Qed.

Lemma slice0_negative {A} (l : list A) k :
  slice0 l (Num (Z.neg k)) = take (length l - Pos.to_nat k) l.
Proof.
  unfold slice0. rewrite (proj2 (Z.ltb_lt (Z.neg k) 0)) by lia.
  f_equal. lia.
Qed.

Lemma slice0_prefix {A} (l : list A) m : slice0 l m `prefix_of` l.
Proof.
  destruct m as [z| | |]; simpl; try apply prefix_nil; [|done].
  case_match; apply prefix_take.
Qed.

Lemma slice0_PosInf {A} (l : list A) m : slice0 (slice0 l PosInf) m = slice0 l m.
Proof. done. Qed.

Lemma filter_positive_score k (l : list ScoredEntry) :
  filter (λ e, score e = k) (filter (λ e, 0 < score e)%Z l)
  = if decide (0 < k)%Z then filter (λ e, score e = k) l else [].
Proof.
  induction l as [|e l IH]; [by case_decide|].
  rewrite (filter_cons (λ e, 0 < score e)%Z), (filter_cons _ e l).
  repeat case_decide; rewrite ?filter_cons, ?IH;
    repeat case_decide; try done; lia.
Qed.

Lemma rank_prefix scored m :
  rank scored m
  `prefix_of` sort (λ a b, score b - score a)%Z
                (filter (λ e, 0 < score e)%Z scored).
Proof. apply slice0_prefix. Qed.

Lemma rank_positive scored m : Forall (λ e, 0 < score e)%Z (rank scored m).
Proof.
  destruct (rank_prefix scored m) as [k Hk].
  assert (Forall (λ e, 0 < score e)%Z (rank scored m ++ k)) as H.
  { rewrite <-Hk. apply (sort_Forall score).
    apply Forall_forall. by intros e [? _]%list_elem_of_filter. }
  by apply Forall_app in H as [? _].
Qed.

Lemma rank_sorted scored m :
  StronglySorted (λ a b, score b ≤ score a)%Z (rank scored m).
Proof.
  destruct (rank_prefix scored m) as [k Hk].
  pose proof (sort_sorted score (filter (λ e, 0 < score e)%Z scored)) as H.
  rewrite Hk in H. by apply StronglySorted_app_1_l in H.
Qed.

Lemma rank_stable scored m k :
  filter (λ e, score e = k) (rank scored m)
  `prefix_of` filter (λ e, score e = k) scored.
Proof.
  pose proof (filter_prefix (λ e, score e = k) _ _ (rank_prefix scored m))
    as H.
  rewrite (sort_stable score), filter_positive_score in H.
  case_decide; [done|]. destruct H as [k' Hk'].
  symmetry in Hk'. apply app_eq_nil in Hk' as [-> _]. apply prefix_nil.
Qed.

Lemma rank_well_ranked scored z :
  (0 ≤ z)%Z → well_ranked scored z (rank scored (Num z)).
Proof.
  intros Hz. split; [apply rank_positive|].
  split; [|split; [apply rank_sorted|intros k; apply rank_stable]].
  unfold rank. rewrite slice0_nonneg, length_take by done. lia.
Qed.

(** ** The two searches *)

Lemma map_result_entries (f : Entry → result ScoredEntry) l scored :
  (∀ e se, f e = Ok se → entry se = e) →
  map_result f l = Ok scored → entry <$> scored = l.
Proof.
  intros Hf. revert scored.
  induction l as [|e l IH]; intros scored; simpl; [by intros [= <-]|].
  destruct (f e) as [se|] eqn:He; simpl; [|done].
  destruct (map_result f l) as [ses|]; simpl; [|done].
  intros [= <-]. rewrite fmap_cons. by rewrite (Hf _ _ He), (IH ses).
Qed.

Lemma plain_score_entry searchTerms e se :
  plain_score searchTerms e = Ok se → entry se = e.
Proof.
  unfold plain_score.
  destruct (toLowerCase_of (field e "title" ||| VStr "")); simpl; [|done].
  destruct (toLowerCase_of (plain_description e)); simpl; [|done].
  by intros [= <-].
Qed.

Lemma intelligent_score_entry query searchTerms e se :
  intelligent_score query searchTerms e = Ok se → entry se = e.
Proof.
  unfold intelligent_score.
  destruct (toLowerCase_of (field e "title" ||| VStr "")); simpl; [|done].
  destruct (toLowerCase_of (intelligent_description e)); simpl; [|done].
  by intros [= <-].
Qed.

Lemma getAllEntries_next cs contentType limit n :
  (getAllEntries cs contentType limit n).2 = S n.
Proof. unfold getAllEntries. by case_match. Qed.

(** What plain search returns once the entries are fetched. *)
Lemma searchContent_fetched cs p n entries :
  (getAllEntries cs (default "tours" (contentType p)) 100 n).1 = Ok entries →
  searchContent cs p n =
    (if String.eqb (query p) ""
     then Ok (Unranked (slice0 entries (default (Num 10) (maxResults p))))
     else
       match map_result
               (plain_score (Str.split " " (Str.toLowerCase (query p))))
               entries with
       | Ok scored => Ok (Ranked (rank scored (default (Num 10) (maxResults p))))
       | Throw e => Throw (search_failure e)
       end,
     S n).
Proof.
  intros Hfetch. unfold searchContent.
  pose proof (getAllEntries_next cs (default "tours" (contentType p)) 100 n)
    as Hn.
  destruct (getAllEntries _ _ _ _) as [fetched n']. simpl in *. subst.
  cbn [mbind result_bind]. destruct (String.eqb (query p) ""); [done|].
  cbn [mbind result_bind]. by destruct (map_result _ _).
Qed.

Lemma searchContent_failed cs p n e :
  (getAllEntries cs (default "tours" (contentType p)) 100 n).1 = Throw e →
  searchContent cs p n = (Throw (search_failure e), S n).
Proof.
  intros Hfetch. unfold searchContent.
  pose proof (getAllEntries_next cs (default "tours" (contentType p)) 100 n)
    as Hn.
  destruct (getAllEntries _ _ _ _) as [fetched n']. simpl in *. by subst.
Qed.

Lemma intelligentSearch_fetched cs p n allEntries :
  (getAllEntries cs (default "tour" (contentType p)) 100 n).1 = Ok allEntries →
  intelligentSearch cs p n =
    if String.eqb (query p) "" || (length allEntries =? 0)
    then (Ok (Unranked (slice0 allEntries (default (Num 10) (maxResults p)))),
          S n)
    else
      match map_result (intelligent_score (query p) (search_terms (query p)))
              allEntries with
      | Ok scored =>
          (Ok (Ranked (rank scored (default (Num 10) (maxResults p)))), S n)
      | Throw _ => searchContent cs (fallback_params p) (S n)
      end.
Proof.
  intros Hfetch. unfold intelligentSearch.
  pose proof (getAllEntries_next cs (default "tour" (contentType p)) 100 n)
    as Hn.
  destruct (getAllEntries _ _ _ _) as [fetched n']. simpl in *. subst.
  cbn [mbind result_bind]. unfold search_terms, fallback_params.
  destruct (String.eqb (query p) "" || (length allEntries =? 0)); [done|].
  cbn [mbind result_bind]. by destruct (map_result _ _).
Qed.

Lemma intelligentSearch_failed cs p n e :
  (getAllEntries cs (default "tour" (contentType p)) 100 n).1 = Throw e →
  intelligentSearch cs p n = searchContent cs (fallback_params p) (S n).
Proof.
  intros Hfetch. unfold intelligentSearch.
  pose proof (getAllEntries_next cs (default "tour" (contentType p)) 100 n)
    as Hn.
  destruct (getAllEntries _ _ _ _) as [fetched n']. simpl in *. by subst.
Qed.

Lemma searchContent_ranked cs p n z r :
  query p ≠ "" →
  default (Num 10) (maxResults p) = Num z → (0 ≤ z)%Z →
  (searchContent cs p n).1 = Ok r →
  ∃ scored l,
    r = Ranked l
    ∧ (getAllEntries cs (default "tours" (contentType p)) 100 n).1
      = Ok (entry <$> scored)
    ∧ well_ranked scored z l.
Proof.
  intros Hq%String.eqb_neq Hm Hz.
  destruct ((getAllEntries cs (default "tours" (contentType p)) 100 n).1)
    as [entries|e] eqn:Hfetch.
  - rewrite (searchContent_fetched _ _ _ _ Hfetch), Hq, Hm. simpl.
    destruct (map_result _ entries) as [scored|] eqn:Hscored; [|done].
    intros [= <-]. exists scored, (rank scored (Num z)).
    split; [done|]. split; [|by apply rank_well_ranked].
    f_equal. symmetry. eapply map_result_entries; [|done].
    apply plain_score_entry.
  - by rewrite (searchContent_failed _ _ _ _ Hfetch).
Qed.

(** C1, for the bounds the code honours.  For a non-empty query and a
    maximum that is not negative (10 when none is given), what plain
    search returns is a ranking of the scored fetched entries: only scores
    above 0, no more entries than the maximum, scores never increasing,
    and the entries of one score in the order they were fetched.  What
    intelligent search returns is such a ranking too, of the entries of
    its own request or of the one its fallback makes, or the empty
    sequence when nothing was fetched. *)
Theorem ranked_output (cs : store) (p : SearchParams) (n : nat) (z : Z)
    (r : SearchResult) :
  query p ≠ "" →
  default (Num 10) (maxResults p) = Num z → (0 ≤ z)%Z →
  ((searchContent cs p n).1 = Ok r →
   ∃ scored l,
     r = Ranked l
     ∧ (getAllEntries cs (default "tours" (contentType p)) 100 n).1
       = Ok (entry <$> scored)
     ∧ well_ranked scored z l)
  ∧ ((intelligentSearch cs p n).1 = Ok r →
     r = Unranked [] ∨
     ∃ scored l k,
       r = Ranked l
       ∧ (k = n ∨ k = S n)
       ∧ (getAllEntries cs (default "tour" (contentType p)) 100 k).1
         = Ok (entry <$> scored)
       ∧ well_ranked scored z l).
Proof.
  intros Hq Hm Hz. split; [by apply searchContent_ranked|].
  assert ((searchContent cs (fallback_params p) (S n)).1 = Ok r →
          ∃ scored l k,
            r = Ranked l ∧ (k = n ∨ k = S n)
            ∧ (getAllEntries cs (default "tour" (contentType p)) 100 k).1
              = Ok (entry <$> scored)
            ∧ well_ranked scored z l) as Hfallback.
  { intros Hr.
    destruct (searchContent_ranked cs (fallback_params p) (S n) z r)
      as (scored & l & -> & Hfetch & Hl); try done.
    exists scored, l, (S n). eauto. }
  destruct ((getAllEntries cs (default "tour" (contentType p)) 100 n).1)
    as [allEntries|e] eqn:Hfetch.
  - rewrite (intelligentSearch_fetched _ _ _ _ Hfetch).
    apply String.eqb_neq in Hq. rewrite Hq. cbn [orb].
    destruct (length allEntries =? 0) eqn:Hlen.
    { apply Nat.eqb_eq, length_zero_iff_nil in Hlen as ->.
      intros [= <-]. left. by rewrite Hm, slice0_nonneg, take_nil. }
    destruct (map_result _ allEntries) as [scored|] eqn:Hscored;
      [|by intros ?; right; apply Hfallback].
    simpl. intros [= <-]. right.
    exists scored, (rank scored (default (Num 10) (maxResults p))), n.
    split; [done|]. split; [by left|].
    split; [|rewrite Hm; by apply rank_well_ranked].
    rewrite Hfetch. f_equal. symmetry. eapply map_result_entries; [|done].
    apply intelligent_score_entry.
  - rewrite (intelligentSearch_failed _ _ _ _ Hfetch).
    intros ?. right. by apply Hfallback.
Qed.

Lemma ranked_output_witness :
  ∃ scored l,
    Ranked [ {| entry := paris_museums; score := 9; relevance := None |};
             {| entry := paris_getaway; score := 6; relevance := None |} ]
    = Ranked l
    ∧ (getAllEntries tours_store "tours" 100 0).1 = Ok (entry <$> scored)
    ∧ well_ranked scored 2 l.
Proof.
  apply (proj1 (ranked_output tours_store (search_for "paris" (Some (Num 2)))
                  0 2 _ ltac:(done) eq_refl ltac:(done))).
  vm_compute. reflexivity.
Defined.

(** C1 as stated fails for a negative maximum: with -1, plain search
    returns one of the two entries that match, which is more than the
    maximum, and more than none. *)
Lemma negative_maximum_exceeded :
  (searchContent tours_store (search_for "paris" (Some (Num (-1)))) 0).1
  = Ok (Ranked [ {| entry := paris_museums; score := 9; relevance := None |} ])
  ∧ ¬ (Z.of_nat
         (length [ {| entry := paris_museums; score := 9;
                      relevance := None |} ])
       ≤ Z.max (-1) 0)%Z.
Proof. split; [by vm_compute|]. simpl. lia. Qed.

(** ** The maximum only cuts the result *)

Lemma rank_slice scored m : rank scored m = slice0 (rank scored PosInf) m.
Proof. done. Qed.

Lemma searchContent_slices cs p n m :
  (searchContent cs (with_maxResults p m) n).1
  = map_Ok (slice_result m) (searchContent cs (with_maxResults p PosInf) n).1.
Proof.
  destruct ((getAllEntries cs (default "tours" (contentType p)) 100 n).1)
    as [entries|e] eqn:Hfetch.
  - rewrite !(searchContent_fetched _ _ _ entries) by done. simpl.
    destruct (String.eqb (query p) ""); [done|].
    by destruct (map_result _ entries).
  - by rewrite !(searchContent_failed _ _ _ e).
Qed.

Lemma intelligentSearch_slices cs p n m :
  (intelligentSearch cs (with_maxResults p m) n).1
  = map_Ok (slice_result m)
      (intelligentSearch cs (with_maxResults p PosInf) n).1.
Proof.
  pose proof (searchContent_slices cs (fallback_params p) (S n) m)
    as Hfallback.
  destruct ((getAllEntries cs (default "tour" (contentType p)) 100 n).1)
    as [allEntries|e] eqn:Hfetch.
  - rewrite !(intelligentSearch_fetched _ _ _ allEntries) by done. simpl.
    destruct (String.eqb (query p) "" || (length allEntries =? 0)); [done|].
    by destruct (map_result _ allEntries).
  - by rewrite !(intelligentSearch_failed _ _ _ e).
Qed.

(** C6, as the code has it.  The maximum reaches [slice] as it is given and
    does nothing but cut the result of the unbounded call: a call throws
    for no maximum that the unbounded call does not throw for.  With 0
    or NaN (what a value that is no number converts to) the result is
    empty; with a negative maximum -k it is the unbounded result without
    its last k entries. *)
Theorem maxResults_cuts_the_result (cs : store) (p : SearchParams) (n : nat)
    (m : number) :
  (searchContent cs (with_maxResults p m) n).1
  = map_Ok (slice_result m) (searchContent cs (with_maxResults p PosInf) n).1
  ∧ (intelligentSearch cs (with_maxResults p m) n).1
    = map_Ok (slice_result m)
        (intelligentSearch cs (with_maxResults p PosInf) n).1
  ∧ ∀ r,
      result_length (slice_result (Num 0) r) = 0
      ∧ result_length (slice_result NaN r) = 0
      ∧ ∀ k, result_length (slice_result (Num (Z.neg k)) r)
             = result_length r - Pos.to_nat k.
Proof.
  split; [apply searchContent_slices|].
  split; [apply intelligentSearch_slices|].
  intros [l|l]; unfold slice_result, result_length;
    rewrite slice0_nonneg by done; (split; [done|]); (split; [done|]);
    intros k; rewrite slice0_negative, length_take; lia.
Qed.

(** C6 as stated fails for a negative maximum: with -1 both searches
    return an entry. *)
Lemma negative_maximum_returns_entries :
  (searchContent tours_store (search_for "paris" (Some (Num (-1)))) 0).1
  = Ok (Ranked [ {| entry := paris_museums; score := 9; relevance := None |} ])
  ∧ (intelligentSearch tours_store (search_for "paris" (Some (Num (-1)))) 0).1
    = Ok (Ranked [ {| entry := paris_getaway; score := 16;
                      relevance := Some (16 # 1)%Q |} ])
  ∧ ¬ (∀ r,
         (searchContent tours_store (search_for "paris" (Some (Num (-1)))) 0).1
         = Ok r → result_length r = 0)
  ∧ ¬ (∀ r,
         (intelligentSearch tours_store
            (search_for "paris" (Some (Num (-1)))) 0).1
         = Ok r → result_length r = 0).
Proof.
  split; [by vm_compute|]. split; [by vm_compute|].
  split; intros Hempty.
  - by specialize (Hempty _ eq_refl).
  - by specialize (Hempty _ eq_refl).
Qed.

(** ** Failures *)

(** C7.  When the request for the entries fails, intelligent search
    returns what plain search returns for the same query, content type and
    maximum, called after it; plain search throws an error whose message
    ends with the message of the failed request. *)
Theorem fetch_failure_policy (cs : store) (p : SearchParams) (n : nat)
    (error_message message : string) :
  (cs n (default "tour" (contentType p)) 100%Z = Failed error_message message →
   intelligentSearch cs p n
   = searchContent cs
       {| query := query p;
          contentType := Some (default "tour" (contentType p));
          maxResults := Some (default (Num 10) (maxResults p)) |} (S n))
  ∧ (cs n (default "tours" (contentType p)) 100%Z
     = Failed error_message message →
     searchContent cs p n
     = (Throw (Error ("Failed to search content: Failed to fetch entries: "
                      +:+ (if String.eqb error_message "" then message
                           else error_message))),
        S n)).
Proof.
  split; intros Hfail.
  - apply (intelligentSearch_failed _ _ _
             (Error ("Failed to fetch entries: "
                     +:+ describe (RequestError error_message message)))).
    unfold getAllEntries. by rewrite Hfail.
  - rewrite (searchContent_failed _ _ _
               (Error ("Failed to fetch entries: "
                       +:+ describe (RequestError error_message message)))).
    + done.
    + unfold getAllEntries. by rewrite Hfail.
Qed.

Lemma fetch_failure_policy_witness :
  intelligentSearch recovering_store (search_for "paris" None) 0
  = searchContent recovering_store
      {| query := "paris"; contentType := Some "tour";
         maxResults := Some (Num 10) |} 1
  ∧ searchContent recovering_store (search_for "paris" None) 0
    = (Throw (Error "Failed to search content: Failed to fetch entries: Unauthorized"),
       1).
Proof.
  pose proof (fetch_failure_policy recovering_store (search_for "paris" None)
                0 "Unauthorized" "Request failed with status code 401")
    as [Hi Hs].
  split; [exact (Hi eq_refl)|exact (Hs eq_refl)].
Defined.

(** The fallback of the example answers. *)
Lemma fallback_answers :
  (intelligentSearch recovering_store (search_for "paris" None) 0).1
  = Ok (Ranked [ {| entry := paris_getaway; score := 6; relevance := None |} ]).
Proof. by vm_compute. Qed.

(** A failure that lasts reaches the caller of intelligent search. *)
Lemma lasting_failure_propagates :
  (intelligentSearch failing_store (search_for "paris" None) 0).1
  = Throw (Error "Failed to search content: Failed to fetch entries: timeout").
Proof. by vm_compute. Qed.

(** ** Fields that are no strings *)

Lemma or_else_readable a b : readable a → readable b → readable (a ||| b).
Proof. intros Ha Hb. unfold or_else. by case_match. Qed.

Lemma or_else_string a :
  readable a → ∃ s, toLowerCase_of (a ||| VStr "") = Ok s.
Proof.
  intros Ha. unfold or_else.
  destruct a; simpl in *; try done; try rewrite Ha; eauto.
  case_match; eauto.
Qed.

(** Scoring is defined on the entries whose probed fields are strings or
    values that [||] passes over (absent, null, false, 0). *)
Lemma scoring_defined (e : Entry) (q : string) (searchTerms : list string) :
  Forall (λ key, readable (field e key))
    ["title"; "description"; "paris"; "india"; "content"; "body"] →
  (∃ scored, plain_score searchTerms e = Ok scored)
  ∧ (∃ scored, intelligent_score q searchTerms e = Ok scored).
Proof.
  intros Hr. rewrite !Forall_cons in Hr.
  destruct Hr as (Ht & Hd & Hp & Hi & Hc & Hb & _).
  destruct (or_else_string _ Ht) as [title Htitle].
  split.
  - destruct (or_else_string
                (field e "description" ||| field e "paris" ||| field e "india"
                   ||| field e "content" ||| field e "body"))
      as [description Hdesc]; [by repeat apply or_else_readable|].
    unfold plain_score, plain_description. rewrite Htitle, Hdesc. simpl. eauto.
  - destruct (or_else_string
                (field e "description" ||| field e "paris" ||| field e "india"))
      as [description Hdesc]; [by repeat apply or_else_readable|].
    unfold intelligent_score, intelligent_description.
    rewrite Htitle, Hdesc. simpl. eauto.
Qed.

Lemma map_result_defined {A B} (f : A → result B) l :
  Forall (λ a, ∃ b, f a = Ok b) l → ∃ bs, map_result f l = Ok bs.
Proof.
  induction 1 as [|a l [b Hb] _ [bs Hbs]]; simpl; [by eexists|].
  rewrite Hb, Hbs. simpl. by eexists.
Qed.

(** Both searches return when the store answers with entries whose probed
    fields are strings or values that [||] passes over. *)
Lemma searches_return (cs : store) (p : SearchParams) (n : nat)
    (entries : list Entry) :
  (∀ contentType, cs n contentType 100%Z = Entries (Some entries)) →
  Forall (λ e, Forall (λ key, readable (field e key))
                 ["title"; "description"; "paris"; "india"; "content"; "body"])
    entries →
  (∃ r, (searchContent cs p n).1 = Ok r)
  ∧ (∃ r, (intelligentSearch cs p n).1 = Ok r).
Proof.
  intros Hcs Hentries. split.
  - rewrite (searchContent_fetched _ _ _ entries)
      by (unfold getAllEntries; by rewrite Hcs).
    simpl. destruct (String.eqb (query p) ""); [by eexists|].
    destruct (map_result_defined
                (plain_score (Str.split " " (Str.toLowerCase (query p))))
                entries) as [scored ->]; [|by eexists].
    eapply Forall_impl; [done|]. intros e He.
    by apply (scoring_defined e "").
  - rewrite (intelligentSearch_fetched _ _ _ entries)
      by (unfold getAllEntries; by rewrite Hcs).
    destruct (String.eqb (query p) "" || (length entries =? 0));
      [by eexists|].
    destruct (map_result_defined
                (intelligent_score (query p) (search_terms (query p)))
                entries) as [scored ->]; [|by eexists].
    eapply Forall_impl; [done|]. intros e He.
    by apply (scoring_defined e).
Qed.

(** C9 at an entry whose title is a number, and at one whose description
    is an object.  The scoring passes throw a [TypeError]; plain search
    throws it again as its own failure, and the fallback of intelligent
    search runs into the same, also when another entry of the store
    matches the query. *)
Theorem non_string_field_throws :
  plain_score ["paris"] numbered
  = Throw (TypeError "toLowerCase is not a function")
  ∧ intelligent_score "paris" (search_terms "paris") numbered
    = Throw (TypeError "toLowerCase is not a function")
  ∧ plain_score ["tokyo"] rich_text
    = Throw (TypeError "toLowerCase is not a function")
  ∧ intelligent_score "tokyo" (search_terms "tokyo") rich_text
    = Throw (TypeError "toLowerCase is not a function")
  ∧ (searchContent numbered_store (search_for "paris" None) 0).1
    = Throw (Error "Failed to search content: toLowerCase is not a function")
  ∧ (intelligentSearch numbered_store (search_for "paris" None) 0).1
    = Throw (Error "Failed to search content: toLowerCase is not a function")
  ∧ (searchContent rich_text_store (search_for "tokyo" None) 0).1
    = Throw (Error "Failed to search content: toLowerCase is not a function")
  ∧ (intelligentSearch rich_text_store (search_for "tokyo" None) 0).1
    = Throw (Error "Failed to search content: toLowerCase is not a function").
Proof. repeat split; by vm_compute. Qed.

(** ** The score of intelligent search *)

Lemma fold_intelligent_term title description content terms score :
  fold_left (intelligent_term title description content) terms score
  = (score
     + foldr Z.add 0
         ((λ term,
             (if Str.includes title term then 5 else 0)
             + (if Str.includes description term then 2 else 0)
             + (if fuzzyMatch term content then 1 else 0)) <$> terms))%Z.
Proof.
  revert score. induction terms as [|term terms IH]; intros score.
  - simpl. lia.
  - rewrite fmap_cons. cbn [fold_left foldr]. rewrite IH.
    unfold intelligent_term.
    destruct (Str.includes title term), (Str.includes description term),
      (fuzzyMatch term content); lia.
Qed.

(** The callback of intelligent search computes the weighted score. *)
Lemma intelligent_score_weighted (q : string) (e : Entry)
    (title description : string) :
  toLowerCase_of (field e "title" ||| VStr "") = Ok title →
  toLowerCase_of (intelligent_description e) = Ok description →
  intelligent_score q (search_terms q) e
  = Ok {| entry := e;
          score := weighted_score q (search_terms q) title description;
          relevance :=
            Some (weighted_score q (search_terms q) title description
                  # Pos.of_nat (length (search_terms q) `max` 1))%Q |}.
Proof.
  intros Htitle Hdesc.
  unfold intelligent_score. rewrite Htitle, Hdesc. simpl.
  by rewrite fold_intelligent_term.
Qed.

Lemma toLowerCase_of_lowered a :
  readable a → toLowerCase_of (a ||| VStr "") = Ok (lowered a).
Proof.
  intros Ha. unfold lowered, or_else.
  destruct a; simpl in *; try done; try (by rewrite Ha).
  by case_match.
Qed.

Lemma intelligent_score_annotated (q : string) (e : Entry) :
  scorable e → intelligent_score q (search_terms q) e = Ok (annotated q e).
Proof.
  intros Hr. unfold scorable in Hr. rewrite !Forall_cons in Hr.
  destruct Hr as (Ht & Hd & Hp & Hi & _).
  apply intelligent_score_weighted.
  - by apply toLowerCase_of_lowered.
  - unfold intelligent_description. apply toLowerCase_of_lowered.
    by repeat apply or_else_readable.
Qed.

Lemma map_intelligent_score_annotated (q : string) (entries : list Entry) :
  Forall scorable entries →
  map_result (intelligent_score q (search_terms q)) entries
  = Ok (annotated q <$> entries).
Proof.
  induction 1 as [|e entries He _ IH]; [done|].
  cbn [map_result]. by rewrite (intelligent_score_annotated q e He), IH.
Qed.

(** C2, with the terms and the text as the code takes them.  For a query
    that is not empty, when the store answers the request with entries
    whose title and description fields are strings or absent,
    [intelligentSearch] gives every fetched entry the score and the
    relevance of the formula, and returns the ranking of the entries so
    annotated after its one request.  The terms are the pieces of the
    lowercased enhanced query between its space characters (empty pieces
    count), the text is the lowercased title, a space and the lowercased
    description.  The score is 10 if the text contains the lowercased
    query as given, plus for each term 5 if the title contains it, 2 if
    the description does and 1 if it fuzzy-matches the text; the relevance
    is the score divided by the number of terms, which is at least 1.
    Every entry of the result is a fetched entry with this score and this
    relevance.  (For an empty query nothing is scored, and when the
    request fails or a field cannot be read the result is that of plain
    search, with its scores and without a relevance.) *)
Theorem intelligent_score_formula (cs : store) (p : SearchParams) (n : nat)
    (entries : list Entry) :
  query p ≠ "" →
  cs n (default "tour" (contentType p)) 100%Z = Entries (Some entries) →
  entries ≠ [] →
  Forall scorable entries →
  intelligentSearch cs p n
  = (Ok (Ranked (rank (annotated (query p) <$> entries)
                   (default (Num 10) (maxResults p)))),
     S n)
  ∧ (∀ e,
       entry (annotated (query p) e) = e
       ∧ score (annotated (query p) e)
         = weighted_score (query p) (search_terms (query p))
             (lowered (field e "title"))
             (lowered (field e "description" ||| field e "paris"
                         ||| field e "india"))
       ∧ relevance (annotated (query p) e)
         = Some (score (annotated (query p) e)
                 # Pos.of_nat (length (search_terms (query p)) `max` 1))%Q)
  ∧ (∀ scored,
       scored ∈ rank (annotated (query p) <$> entries)
                  (default (Num 10) (maxResults p)) →
       entry scored ∈ entries ∧ scored = annotated (query p) (entry scored))
  ∧ search_terms (query p)
    = Str.split " " (Str.toLowerCase (enhanceQuery (query p)))
  ∧ 1 ≤ length (search_terms (query p)).
Proof.
  intros Hq Hcs Hne Hentries.
  split; [|split; [done|split; [|split; [done|]]]].
  - rewrite (intelligentSearch_fetched _ _ _ entries)
      by (unfold getAllEntries; by rewrite Hcs).
    apply String.eqb_neq in Hq. rewrite Hq.
    assert ((length entries =? 0) = false) as ->.
    { apply Nat.eqb_neq. by destruct entries. }
    cbn [orb]. by rewrite map_intelligent_score_annotated.
  - intros scored Hin.
    destruct (rank_prefix (annotated (query p) <$> entries)
                (default (Num 10) (maxResults p))) as [rest Hrest].
    assert (scored ∈ sort (λ a b, score b - score a)%Z
                       (filter (λ e, 0 < score e)%Z
                          (annotated (query p) <$> entries))) as Hsorted.
    { rewrite Hrest. apply elem_of_app. by left. }
    assert (scored ∈ annotated (query p) <$> entries) as Hscored.
    { rewrite (sort_perm score) in Hsorted.
      by apply list_elem_of_filter in Hsorted as [_ ?]. }
    by apply list_elem_of_fmap in Hscored as (e & -> & He).
  - pose proof (StrFacts.split_nonempty " "
                  (Str.toLowerCase (enhanceQuery (query p)))).
    unfold search_terms. destruct (Str.split _ _); simpl; [done|lia].
Qed.

Lemma intelligent_score_formula_witness :
  intelligentSearch tours_store (search_for "Paris" None) 0
  = (Ok (Ranked
           [ {| entry := paris_getaway; score := 16;
                relevance := Some (16 # 1)%Q |};
             {| entry := paris_museums; score := 16;
                relevance := Some (16 # 1)%Q |} ]),
     1).
Proof.
  etrans; [|by vm_compute].
  apply (intelligent_score_formula tours_store (search_for "Paris" None) 0
           [paris_getaway; tokyo_adventure; paris_museums]).
  - done.
  - reflexivity.
  - done.
  - repeat constructor.
Defined.

(** C2 as stated fails where the query has whitespace that is no space:
    for the query of the words rome and paris on two lines the code has
    the one term it gets from splitting at spaces, and the entry titled
    paris scores 0, where the terms split at whitespace give it 6; so
    [intelligentSearch] returns nothing from a store that holds this
    entry. *)
Lemma terms_not_split_at_whitespace :
  intelligent_score two_line_query (search_terms two_line_query) paris_only
  = Ok {| entry := paris_only; score := 0; relevance := Some (0 # 1)%Q |}
  ∧ search_terms two_line_query = [two_line_query]
  ∧ String.words (Str.toLowerCase (enhanceQuery two_line_query))
    = ["rome"; "paris"]
  ∧ weighted_score two_line_query
      (String.words (Str.toLowerCase (enhanceQuery two_line_query)))
      "paris" ""
    = 6%Z
  ∧ ¬ (∀ scored,
         intelligent_score two_line_query (search_terms two_line_query)
           paris_only = Ok scored →
         score scored
         = weighted_score two_line_query
             (String.words (Str.toLowerCase (enhanceQuery two_line_query)))
             "paris" "")
  ∧ intelligentSearch paris_only_store (search_for two_line_query None) 0
    = (Ok (Ranked []), 1).
Proof.
  split; [by vm_compute|]. split; [by vm_compute|].
  split; [by vm_compute|]. split; [by vm_compute|].
  split; [|by vm_compute].
  intros Hclaim.
  specialize (Hclaim {| entry := paris_only; score := 0;
                        relevance := Some (0 # 1)%Q |}).
  assert (0 = 6)%Z; [|done].
  etrans; [apply Hclaim; by vm_compute|]. by vm_compute.
Qed.

(** A space at the end of the query leaves an empty term, which every
    title and every description contains: an entry that has nothing of
    the query scores 7. *)
Lemma empty_term_matches_every_entry :
  search_terms "paris " = ["paris"; ""]
  ∧ intelligent_score "paris " (search_terms "paris ") tokyo_adventure
    = Ok {| entry := tokyo_adventure; score := 7;
            relevance := Some (7 # 2)%Q |}.
Proof. split; by vm_compute. Qed.

(** ** Fuzzy matching *)

Lemma similarity_sym a b : similarity a b = similarity b a.
Proof.
  unfold similarity.
  destruct (String.length b <? String.length a) eqn:Hba,
    (String.length a <? String.length b) eqn:Hab; try done.
  - apply Nat.ltb_lt in Hba, Hab. lia.
  - apply Nat.ltb_ge in Hba, Hab.
    assert (String.length a = String.length b) as Hlen by lia.
    rewrite Hlen. case_match; [done|].
    by rewrite (lev_sym (Str.chars b)).
Qed.

Lemma quotient_complement (len d : nat) :
  len ≠ 0 →
  ((Z.of_nat len - Z.of_nat d) # Pos.of_nat len
   == 1 - (Z.of_nat d # Pos.of_nat len))%Q.
Proof.
  intros Hlen. unfold Qeq, Qminus, Qplus, Qopp. simpl.
  rewrite <-(Nat2Pos.id len) at 1 by done.
  rewrite positive_nat_Z, Pos.mul_1_l. lia.
Qed.

Lemma calculateSimilarity_similarity a b :
  ∃ q, calculateSimilarity a b = Some q ∧ (q == similarity a b)%Q.
Proof.
  unfold calculateSimilarity, similarity.
  set (longer := if String.length b <? String.length a then a else b).
  set (shorter := if String.length b <? String.length a then b else a).
  destruct (String.length longer =? 0) eqn:Hlen.
  - eexists. split; [done|reflexivity].
  - apply Nat.eqb_neq in Hlen.
    rewrite LevenshteinFacts.levenshteinDistance_lev. simpl.
    eexists. split; [done|]. by apply quotient_complement.
Qed.

Lemma exceeds_threshold_similarity a b :
  exceeds_threshold (calculateSimilarity a b) = true
  ↔ (7 # 10 < similarity a b)%Q.
Proof.
  destruct (calculateSimilarity_similarity a b) as (q & -> & Hq).
  unfold exceeds_threshold. rewrite <-Hq, negb_true_iff.
  rewrite <-not_true_iff_false, Qle_bool_iff. split.
  - apply Qnot_le_lt.
  - apply Qlt_not_le.
Qed.

(** C4, with the words as the code takes them.  [fuzzyMatch] holds exactly
    when one of the pieces of the text between its space characters has,
    like the term, at least 3 characters, and a similarity to the term
    above 0.7.  The similarity the code computes is 1 less the edit
    distance of the longer and the shorter string over the length of the
    longer; it is the same in both orders and 1 when both are empty.  A
    term of fewer than 3 characters matches no text. *)
Theorem fuzzyMatch_spec (term text : string) :
  (fuzzyMatch term text = true ↔
     ∃ word, word ∈ Str.split " " text
             ∧ 3 ≤ String.length term ∧ 3 ≤ String.length word
             ∧ (7 # 10 < similarity term word)%Q)
  ∧ (∀ a b, ∃ q, calculateSimilarity a b = Some q
                 ∧ (q == similarity a b)%Q
                 ∧ similarity a b = similarity b a)
  ∧ calculateSimilarity "" "" = Some 1%Q
  ∧ (String.length term < 3 → fuzzyMatch term text = false).
Proof.
  split; [|split; [|split; [done|]]].
  - unfold fuzzyMatch. rewrite existsb_exists. split.
    + intros (word & Hin & Hword). exists word.
      split; [by apply list_elem_of_In|].
      destruct (String.length word <? 3) eqn:Hw; [done|].
      destruct (String.length term <? 3) eqn:Ht; [done|].
      apply Nat.ltb_ge in Hw, Ht. simpl in Hword.
      by apply exceeds_threshold_similarity in Hword.
    + intros (word & Hin & Ht & Hw & Hsim). exists word.
      split; [by apply list_elem_of_In|].
      rewrite (proj2 (Nat.ltb_ge _ _) Ht), (proj2 (Nat.ltb_ge _ _) Hw). simpl.
      by apply exceeds_threshold_similarity.
  - intros a b. destruct (calculateSimilarity_similarity a b) as (q & ? & ?).
    exists q. eauto using similarity_sym.
  - intros Ht. unfold fuzzyMatch.
    apply not_true_iff_false. rewrite existsb_exists.
    intros (word & _ & Hword).
    rewrite (proj2 (Nat.ltb_lt _ _) Ht), orb_true_r in Hword. done.
Qed.

Lemma fuzzyMatch_spec_witness : fuzzyMatch "of" "offer of the day" = false.
Proof.
  apply (proj2 (proj2 (proj2 (fuzzyMatch_spec "of" "offer of the day")))).
  simpl. lia.
Defined.

(** C4 as stated fails where the text has whitespace that is no space: in
    the text of the words abc and def with a tab between them, the word
    def is the term itself, and the code, which takes the text for one
    word of 7 characters, finds no match. *)
Lemma tab_separated_word_not_matched :
  ¬ (fuzzyMatch "def" tabbed_text = true ↔
       ∃ word, word ∈ String.words tabbed_text
               ∧ 3 ≤ String.length "def" ∧ 3 ≤ String.length word
               ∧ (7 # 10 < similarity "def" word)%Q).
Proof.
  intros [_ Hmatch].
  assert (fuzzyMatch "def" tabbed_text = false) as Hcode by (by vm_compute).
  rewrite Hcode in Hmatch. enough (false = true) by done.
  apply Hmatch. exists "def". split; [|split; [simpl; lia|split; [simpl; lia|]]].
  - assert (String.words tabbed_text = ["abc"; "def"]) as -> by (by vm_compute).
    apply list_elem_of_further, list_elem_of_here.
  - by vm_compute.
Qed.

(** ** The edit distance the code computes *)

Lemma levenshteinMatrix_recurrence a b :
  ∃ m, Levenshtein.levenshteinMatrix a b = Some m
       ∧ reference_recurrence a b m
       ∧ ∀ i j, i ≤ String.length b → j ≤ String.length a →
           Levenshtein.cell m i j
           = Some (lev (take i (Str.chars b)) (take j (Str.chars a))).
Proof.
  eexists. split; [apply LevenshteinFacts.levenshteinMatrix_full|].
  assert (∀ i j, i ≤ String.length b → j ≤ String.length a →
            Levenshtein.cell
              (Levenshtein.distance_matrix a b (λ _, S (String.length a))) i j
            = Some (Levenshtein.prefix_distance a b i j)) as Hcell.
  { intros i j Hi Hj. apply LevenshteinFacts.distance_matrix_cell; lia. }
  split; [|done]. split; [|split].
  - intros j Hj. rewrite Hcell by lia.
    by rewrite LevenshteinFacts.prefix_distance_0_l.
  - intros i Hi. rewrite Hcell by lia.
    by rewrite LevenshteinFacts.prefix_distance_0_r.
  - intros i j Hi Hj. rewrite !Hcell by lia.
    rewrite LevenshteinFacts.prefix_distance_S by done.
    case_decide; [done|]. simpl. f_equal. lia.
Qed.

(** C3.  [levenshteinDistance] returns, for every two strings, their
    Levenshtein distance: the least number of insertions, deletions and
    substitutions that turn one into the other.  Its matrix obeys the
    reference recurrence (first row and column counting from 0, the
    diagonal copied where the characters match, otherwise 1 more than the
    least of left, up and diagonal), and each cell holds the distance of
    the two prefixes.  The distance of kitten and sitting is 3. *)
Theorem levenshteinDistance_classic (a b : string) :
  Levenshtein.levenshteinDistance a b
  = Some (lev (Str.chars a) (Str.chars b))
  ∧ min_edit_cost (Str.chars a) (Str.chars b)
      (lev (Str.chars a) (Str.chars b))
  ∧ (∃ m, Levenshtein.levenshteinMatrix a b = Some m
          ∧ reference_recurrence a b m
          ∧ ∀ i j, i ≤ String.length b → j ≤ String.length a →
              Levenshtein.cell m i j
              = Some (lev (take i (Str.chars b)) (take j (Str.chars a))))
  ∧ Levenshtein.levenshteinDistance "kitten" "sitting" = Some 3.
Proof.
  split; [apply LevenshteinFacts.levenshteinDistance_lev|].
  split; [apply lev_min_edit_cost|].
  split; [apply levenshteinMatrix_recurrence|].
  by vm_compute.
Qed.

(** * Further properties of the search engine *)

(** ** The edit distance is a metric *)

Section LevMetric.
Context {A : Type} `{EqDecision A}.
Implicit Types s t u : list A.

Lemma lev_refl s : lev s s = 0.
Proof.
  induction s as [|x s IH]; [done|]. rewrite lev_cons. by rewrite decide_True.
Qed.

Lemma lev_zero s t : lev s t = 0 → s = t.
Proof.
  revert t. induction s as [|x s IH]; intros [|y t].
  - done.
  - rewrite lev_nil_l. done.
  - rewrite lev_nil_r. done.
  - rewrite lev_cons. case_decide; [|done]. intros ?%IH. by subst.
Qed.

Lemma edit_lengths s t n :
  edit s t n → length s ≤ length t + n ∧ length t ≤ length s + n.
Proof. induction 1; simpl; lia. Qed.

Lemma lev_upper s t : lev s t ≤ length s `max` length t.
Proof.
  revert t. induction s as [|x s IH]; intros [|y t].
  - done.
  - rewrite lev_nil_l. lia.
  - rewrite lev_nil_r. lia.
  - rewrite lev_cons. specialize (IH t). cbn [length].
    case_decide; lia.
Qed.

(** What is known of a script that ends in [x :: t], by the last step that
    wrote [x]. *)
Lemma edit_cons_r_ind x t (Q : list A → nat → Prop) :
  (∀ s n, edit s t n → Q (x :: s) n) →
  (∀ w s n, edit s t n → Q (w :: s) (S n)) →
  (∀ s n, edit s t n → Q s (S n)) →
  (∀ w s n, Q s n → Q (w :: s) (S n)) →
  ∀ s n, edit s (x :: t) n → Q s n.
Proof.
  intros Hkeep Hsubst Hinsert Hdelete s n Hedit.
  remember (x :: t) as xt eqn:Hxt.
  induction Hedit; simplify_eq; eauto.
Qed.

(** Scripts compose, at no more than the sum of their costs. *)
Lemma edit_trans t u m :
  edit t u m → ∀ s n, edit s t n → ∃ k, k ≤ n + m ∧ edit s u k.
Proof.
  induction 1 as [|x t u m _ IH|x y t u m _ IH|x t u m _ IH|y t u m _ IH].
  - intros s n Hs. exists n. split; [lia|done].
  - apply (edit_cons_r_ind x t (λ s n, ∃ k, k ≤ n + m ∧ edit s (x :: u) k)).
    + intros s n (k & ? & ?)%IH. exists k. split; [lia|by constructor].
    + intros w s n (k & ? & ?)%IH. exists (S k). split; [lia|by constructor].
    + intros s n (k & ? & ?)%IH. exists (S k). split; [lia|by constructor].
    + intros w s n (k & ? & ?). exists (S k). split; [lia|by constructor].
  - apply (edit_cons_r_ind x t
             (λ s n, ∃ k, k ≤ n + S m ∧ edit s (y :: u) k)).
    + intros s n (k & ? & ?)%IH. exists (S k). split; [lia|by constructor].
    + intros w s n (k & ? & ?)%IH. exists (S k). split; [lia|by constructor].
    + intros s n (k & ? & ?)%IH. exists (S k). split; [lia|by constructor].
    + intros w s n (k & ? & ?). exists (S k). split; [lia|by constructor].
  - apply (edit_cons_r_ind x t (λ s n, ∃ k, k ≤ n + S m ∧ edit s u k)).
    + intros s n (k & ? & ?)%IH. exists (S k). split; [lia|by constructor].
    + intros w s n (k & ? & ?)%IH. exists (S k). split; [lia|by constructor].
    + intros s n (k & ? & ?)%IH. exists k. split; [lia|done].
    + intros w s n (k & ? & ?). exists (S k). split; [lia|by constructor].
  - intros s n (k & ? & ?)%IH. exists (S k). split; [lia|by constructor].
Qed.

Lemma lev_triangle s t u : lev s u ≤ lev s t + lev t u.
Proof.
  destruct (edit_trans t u _ (edit_lev t u) s _ (edit_lev s t))
    as (k & Hk & Hedit).
  apply lev_least in Hedit. lia.
Qed.

Lemma lev_lower s t :
  length s - length t ≤ lev s t ∧ length t - length s ≤ lev s t.
Proof. pose proof (edit_lengths s t _ (edit_lev s t)). lia. Qed.
End LevMetric.

Lemma chars_inj a b : Str.chars a = Str.chars b → a = b.
Proof.
  intros Hab.
  by rewrite <-(string_of_list_ascii_of_string a),
    <-(string_of_list_ascii_of_string b); unfold Str.chars in Hab; rewrite Hab.
Qed.

(** X1.  The distance [levenshteinDistance] returns is a metric on
    strings: 0 exactly between equal strings, the same in both orders,
    and never more between two strings than by way of a third.  It is at
    least the difference of the two lengths and at most the greater
    length. *)
Theorem levenshteinDistance_metric (a b c : string) :
  ∃ dab dba dac dcb,
    Levenshtein.levenshteinDistance a b = Some dab
    ∧ Levenshtein.levenshteinDistance b a = Some dba
    ∧ Levenshtein.levenshteinDistance a c = Some dac
    ∧ Levenshtein.levenshteinDistance c b = Some dcb
    ∧ dab = dba
    ∧ (dab = 0 ↔ a = b)
    ∧ dab ≤ dac + dcb
    ∧ String.length a - String.length b ≤ dab
    ∧ String.length b - String.length a ≤ dab
    ∧ dab ≤ String.length a `max` String.length b.
Proof.
  exists (lev (Str.chars a) (Str.chars b)), (lev (Str.chars b) (Str.chars a)),
    (lev (Str.chars a) (Str.chars c)), (lev (Str.chars c) (Str.chars b)).
  rewrite !LevenshteinFacts.levenshteinDistance_lev.
  do 4 (split; [done|]).
  split; [apply lev_sym|].
  split; [split; [by intros ?%lev_zero%chars_inj|intros ->; apply lev_refl]|].
  split; [apply lev_triangle|].
  pose proof (lev_lower (Str.chars a) (Str.chars b)) as [? ?].
  pose proof (lev_upper (Str.chars a) (Str.chars b)).
  rewrite !LevenshteinFacts.length_chars in *. done.
Qed.

(** ** Splitting and joining *)

Lemma join_split sep s : Str.join (String sep "") (Str.split sep s) = s.
Proof.
  induction s as [|c s IH]; [done|]. cbn [Str.split].
  pose proof (StrFacts.split_nonempty sep s) as Hne.
  case_decide as Hc.
  - subst c. by rewrite StrFacts.join_cons, IH by done.
  - destruct (Str.split sep s) as [|w ws]; [done|].
    destruct ws as [|w' ws].
    + simpl in *. by rewrite IH.
    + rewrite StrFacts.join_cons by done.
      rewrite StrFacts.join_cons in IH by done.
      by rewrite StrFacts.append_cons, IH.
Qed.

Lemma split_includes sep s w : w ∈ Str.split sep s → Str.includes s w = true.
Proof.
  intros Hw. rewrite <-(join_split sep s) at 1.
  by apply StrFacts.join_includes.
Qed.

Lemma split_append sep s t :
  Str.split sep (s +:+ String sep t) = Str.split sep s ++ Str.split sep t.
Proof.
  induction s as [|c s IH].
  - rewrite StrFacts.append_nil_l. cbn [Str.split]. by rewrite decide_True.
  - rewrite StrFacts.append_cons. cbn [Str.split]. rewrite IH.
    pose proof (StrFacts.split_nonempty sep s) as Hne.
    case_decide; [done|]. by destruct (Str.split sep s).
Qed.

(** ** Similarity and fuzzy matches *)

Lemma length_zero_empty s : String.length s = 0 → s = "".
Proof. by destruct s. Qed.

(** X2.  The similarity [calculateSimilarity] returns is a number from 0
    to 1, and is 1 exactly for two equal strings. *)
Theorem calculateSimilarity_range (a b : string) :
  ∃ q, calculateSimilarity a b = Some q
       ∧ (0 <= q)%Q ∧ (q <= 1)%Q ∧ ((q == 1)%Q ↔ a = b).
Proof.
  unfold calculateSimilarity.
  set (longer := if String.length b <? String.length a then a else b).
  set (shorter := if String.length b <? String.length a then b else a).
  assert (String.length shorter ≤ String.length longer) as Hlen.
  { subst longer shorter.
    destruct (String.length b <? String.length a) eqn:Hba;
      [apply Nat.ltb_lt in Hba|apply Nat.ltb_ge in Hba]; lia. }
  assert (longer = shorter ↔ a = b) as Heq.
  { subst longer shorter.
    by destruct (String.length b <? String.length a). }
  destruct (String.length longer =? 0) eqn:Hzero.
  - apply Nat.eqb_eq in Hzero. exists 1%Q.
    split; [done|]. split; [done|]. split; [done|].
    split; [|done]. intros _. apply Heq.
    rewrite (length_zero_empty longer) by done.
    by rewrite (length_zero_empty shorter) by lia.
  - apply Nat.eqb_neq in Hzero.
    rewrite LevenshteinFacts.levenshteinDistance_lev. cbn [mbind option_bind].
    eexists. split; [done|].
    pose proof (lev_upper (Str.chars longer) (Str.chars shorter)) as Hup.
    rewrite !LevenshteinFacts.length_chars in Hup.
    assert (Z.pos (Pos.of_nat (String.length longer))
            = Z.of_nat (String.length longer)) as Hpos.
    { rewrite <-(Nat2Pos.id (String.length longer)) at 2 by done.
      by rewrite positive_nat_Z. }
    unfold Qle, Qeq. simpl. rewrite Hpos.
    split; [lia|]. split; [lia|]. rewrite <-Heq. split.
    + intros Hq. apply chars_inj, lev_zero. lia.
    + intros ->. rewrite lev_refl. lia.
Qed.

Lemma calculateSimilarity_self w :
  exceeds_threshold (calculateSimilarity w w) = true.
Proof.
  destruct (calculateSimilarity_range w w) as (q & -> & _ & _ & Hq).
  assert (q == 1)%Q as Hone by by apply Hq.
  unfold exceeds_threshold. rewrite negb_true_iff.
  apply not_true_iff_false. rewrite Qle_bool_iff, Hone. by vm_compute.
Qed.

(** X3.  A term of at least 3 characters that is itself a word of the
    text, as the text splits at spaces, fuzzy-matches the text.  In
    intelligent search such a term that is a word of the title therefore
    adds at least 6 to the score: 5 for the title and 1 for the fuzzy
    match. *)
Theorem whole_word_fuzzy_matches (term : string) :
  3 ≤ String.length term →
  (∀ content, term ∈ Str.split " " content → fuzzyMatch term content = true)
  ∧ ∀ title description score,
      term ∈ Str.split " " title →
      (score + 6
       ≤ intelligent_term title description
           (title +:+ " " +:+ description) score term)%Z.
Proof.
  intros Hlen.
  assert (∀ content, term ∈ Str.split " " content →
                     fuzzyMatch term content = true) as Hfuzzy.
  { intros content Hin. unfold fuzzyMatch. apply existsb_exists. exists term.
    split; [by apply list_elem_of_In|].
    rewrite (proj2 (Nat.ltb_ge _ _) Hlen). simpl.
    apply calculateSimilarity_self. }
  split; [done|].
  intros title description score Hword. unfold intelligent_term.
  rewrite (split_includes " " title term Hword).
  rewrite Hfuzzy.
  - case_match; lia.
  - change (title +:+ " " +:+ description)
      with (title +:+ String " " description).
    rewrite split_append. apply elem_of_app. by left.
Qed.

Lemma whole_word_fuzzy_matches_witness :
  fuzzyMatch "paris" "paris getaway" = true.
Proof.
  apply (proj1 (whole_word_fuzzy_matches "paris" ltac:(simpl; lia))).
  apply list_elem_of_here.
Defined.

(** ** The terms of the two searches *)

Lemma enhancement_suffix q :
  ∃ suffix, enhanceQuery q = q +:+ suffix
            ∧ (suffix = "" ∨ ∃ rest, suffix = String " " rest)
            ∧ (Forall (λ kv, Str.includes (Str.toLowerCase q) kv.1 = false)
                 synonyms → suffix = "").
Proof.
  unfold enhanceQuery.
  rewrite (fold_left_append
             (λ kv, Str.includes (Str.toLowerCase q) kv.1)
             (λ kv, " " +:+ Str.join " " kv.2)).
  eexists. split; [done|].
  generalize synonyms. intros l. split.
  - induction l as [|kv l [IH|[rest IH]]]; [by left|..]; cbn [fmap list_fmap foldr].
    + rewrite IH. destruct (Str.includes _ _); [|by left].
      right. eexists. by rewrite StrFacts.append_nil_r.
    + rewrite IH. destruct (Str.includes _ _); [|right; eauto].
      right. eexists. by rewrite StrFacts.append_assoc.
  - induction 1 as [|kv l Hkv _ IH]; [done|]. cbn [fmap list_fmap foldr].
    by rewrite Hkv, IH.
Qed.

(** X4.  The enhancement only adds terms: the terms intelligent search
    scores with begin with the terms plain search takes from the same
    query, in the same order, and are exactly those when no trigger
    occurs in the query. *)
Theorem enhancement_only_adds_terms (q : string) :
  Str.split " " (Str.toLowerCase q) `prefix_of` search_terms q
  ∧ (Forall (λ kv, Str.includes (Str.toLowerCase q) kv.1 = false) synonyms →
     search_terms q = Str.split " " (Str.toLowerCase q)).
Proof.
  destruct (enhancement_suffix q) as (suffix & Hq & Hshape & Hnone).
  unfold search_terms. rewrite Hq. split.
  - destruct Hshape as [->|[rest ->]].
    + by rewrite StrFacts.append_nil_r.
    + rewrite StrFacts.toLowerCase_append.
      change (Str.toLowerCase (String " " rest))
        with (String " " (Str.toLowerCase rest)).
      rewrite split_append. by apply prefix_app_r.
  - intros ->%Hnone. by rewrite StrFacts.append_nil_r.
Qed.

Lemma enhancement_only_adds_terms_witness :
  search_terms "Rome by night" = ["rome"; "by"; "night"].
Proof.
  apply (proj2 (enhancement_only_adds_terms "Rome by night")).
  repeat constructor.
Defined.

(** ** Bounds of the scores *)

Lemma fold_plain_term_bounds title description allText terms score :
  (score ≤ fold_left (plain_term title description allText) terms score
   ≤ score + 9 * Z.of_nat (length terms))%Z.
Proof.
  revert score. induction terms as [|term terms IH]; intros score.
  - simpl. lia.
  - cbn [fold_left length].
    specialize (IH (plain_term title description allText score term)).
    assert (score ≤ plain_term title description allText score term
            ≤ score + 9)%Z; [|lia].
    unfold plain_term. repeat case_match; lia.
Qed.

Lemma fold_intelligent_term_bounds title description content terms score :
  (score ≤ fold_left (intelligent_term title description content) terms score
   ≤ score + 8 * Z.of_nat (length terms))%Z.
Proof.
  revert score. induction terms as [|term terms IH]; intros score.
  - simpl. lia.
  - cbn [fold_left length].
    specialize (IH (intelligent_term title description content score term)).
    assert (score ≤ intelligent_term title description content score term
            ≤ score + 8)%Z; [|lia].
    unfold intelligent_term. repeat case_match; lia.
Qed.

(** X5.  No score is negative.  The scoring pass of plain search gives
    an entry at most 9 for each term; the scoring pass of intelligent
    search at most 10 and 8 for each term, and a relevance from 0 to
    18. *)
Theorem scores_bounded (q : string) (terms : list string) (e : Entry)
    (scored : ScoredEntry) :
  (plain_score terms e = Ok scored →
   (0 ≤ score scored ≤ 9 * Z.of_nat (length terms))%Z)
  ∧ (intelligent_score q terms e = Ok scored →
     (0 ≤ score scored ≤ 10 + 8 * Z.of_nat (length terms))%Z
     ∧ ∃ r, relevance scored = Some r ∧ (0 <= r)%Q ∧ (r <= 18)%Q).
Proof.
  split.
  - unfold plain_score.
    destruct (toLowerCase_of (field e "title" ||| VStr "")) as [title|];
      [|done].
    destruct (toLowerCase_of (plain_description e)) as [description|];
      [|done].
    cbn [mbind result_bind]. intros [= <-]. cbn [score].
    apply fold_plain_term_bounds.
  - unfold intelligent_score.
    destruct (toLowerCase_of (field e "title" ||| VStr "")) as [title|];
      [|done].
    destruct (toLowerCase_of (intelligent_description e)) as [description|];
      [|done].
    cbn [mbind result_bind]. intros [= <-]. cbn [score relevance].
    set (start := if Str.includes _ _ then 10%Z else 0%Z).
    pose proof (fold_intelligent_term_bounds title description
                  (title +:+ " " +:+ description) terms start) as Hfold.
    assert (0 ≤ start ≤ 10)%Z by (subst start; case_match; lia).
    split; [lia|]. eexists. split; [done|].
    assert (Z.pos (Pos.of_nat (length terms `max` 1))
            = Z.of_nat (length terms `max` 1)) as Hpos.
    { rewrite <-(Nat2Pos.id (length terms `max` 1)) at 2 by lia.
      by rewrite positive_nat_Z. }
    unfold Qle. simpl. rewrite Hpos. split; lia.
Qed.

Lemma scores_bounded_witness :
  (0 ≤ 16 ≤ 10 + 8 * Z.of_nat (length (search_terms "Paris")))%Z.
Proof.
  exact (proj1 (proj2 (scores_bounded "Paris" (search_terms "Paris")
                         paris_getaway
                         {| entry := paris_getaway; score := 16;
                            relevance := Some (16 # 1)%Q |}) eq_refl)).
Defined.

(** ** Ranking loses nothing within the maximum *)

Lemma take_nil_inv {A} (l : list A) n : 0 < n → take n l = [] → l = [].
Proof. destruct n, l; simpl; done || lia. Qed.

(** X6.  With a maximum that is no less than the number of scored
    entries, the ranking is a rearrangement of all the entries that score
    above 0: none is lost and none is doubled.  With a maximum of at least
    1 the ranking is empty only when no entry scores above 0, and its
    first entry has the greatest score of all.  A smaller maximum gives
    the beginning of what a greater one gives. *)
Theorem rank_complete (scored : list ScoredEntry) (z : Z) :
  ((Z.of_nat (length scored) ≤ z)%Z →
   rank scored (Num z) ≡ₚ filter (λ e, 0 < score e)%Z scored)
  ∧ ((1 ≤ z)%Z →
     (rank scored (Num z) = [] ↔ Forall (λ e, score e ≤ 0)%Z scored)
     ∧ ∀ top rest, rank scored (Num z) = top :: rest →
         Forall (λ e, score e ≤ score top)%Z scored)
  ∧ ∀ z', (0 ≤ z ≤ z')%Z →
      rank scored (Num z) `prefix_of` rank scored (Num z').
Proof.
  set (sorted := sort (λ a b, score b - score a)%Z
                   (filter (λ e, 0 < score e)%Z scored)).
  assert (sorted ≡ₚ filter (λ e, 0 < score e)%Z scored) as Hperm
    by apply (sort_perm score).
  assert (∀ y, (0 ≤ y)%Z → rank scored (Num y) = take (Z.to_nat y) sorted)
    as Hrank by (intros y Hy; unfold rank; by rewrite slice0_nonneg).
  split; [|split].
  - intros Hz. rewrite Hrank by lia. rewrite take_ge; [done|].
    rewrite Hperm. pose proof (length_filter (λ e, 0 < score e)%Z scored).
    lia.
  - intros Hz. rewrite Hrank by lia. split.
    + split.
      * intros Hnil%take_nil_inv; [|lia].
        rewrite Hnil in Hperm. symmetry in Hperm.
        apply Permutation_nil_r in Hperm.
        apply Forall_forall. intros e He.
        destruct (decide (0 < score e)%Z) as [Hpos|]; [|lia].
        assert (e ∈ filter (λ e, 0 < score e)%Z scored) as Hin
          by by apply list_elem_of_filter.
        rewrite Hperm in Hin. by apply elem_of_nil in Hin.
      * intros Hall.
        assert (filter (λ e, 0 < score e)%Z scored = []) as Hnone.
        { apply elem_of_nil_inv. intros e [Hpos He]%list_elem_of_filter.
          rewrite Forall_forall in Hall. specialize (Hall e He). lia. }
        rewrite Hnone in Hperm. apply Permutation_nil_r in Hperm.
        by rewrite Hperm, take_nil.
    + intros top rest Htop. apply Forall_forall. intros e He.
      assert (∃ rest', sorted = top :: rest') as [rest' Hsorted].
      { destruct sorted as [|top' rest']; [by rewrite take_nil in Htop|].
        destruct (Z.to_nat z) eqn:Hn; [lia|]. simpl in Htop.
        simplify_eq. eauto. }
      pose proof (sort_sorted score (filter (λ e, 0 < score e)%Z scored))
        as Hsort.
      fold sorted in Hsort. rewrite Hsorted in Hsort.
      apply StronglySorted_inv in Hsort as [_ Hrest].
      assert (top ∈ filter (λ e, 0 < score e)%Z scored) as Htoppos.
      { rewrite <-Hperm, Hsorted. apply list_elem_of_here. }
      apply list_elem_of_filter in Htoppos as [Htoppos _].
      destruct (decide (0 < score e)%Z) as [Hpos|]; [|lia].
      assert (e ∈ top :: rest') as Hin.
      { rewrite <-Hsorted, Hperm. by apply list_elem_of_filter. }
      apply elem_of_cons in Hin as [->|Hin]; [done|].
      rewrite Forall_forall in Hrest. by apply Hrest.
  - intros z' Hz. rewrite !Hrank by lia.
    replace (Z.to_nat z') with (Z.to_nat z + (Z.to_nat z' - Z.to_nat z))
      by lia.
    rewrite <-(take_take_drop sorted (Z.to_nat z)
                 (Z.to_nat z' - Z.to_nat z)).
    by apply prefix_app_r.
Qed.

Lemma rank_complete_witness :
  rank [ {| entry := tokyo_adventure; score := 0; relevance := None |};
         {| entry := paris_getaway; score := 6; relevance := None |};
         {| entry := paris_museums; score := 9; relevance := None |} ]
    (Num 3)
  ≡ₚ [ {| entry := paris_getaway; score := 6; relevance := None |};
       {| entry := paris_museums; score := 9; relevance := None |} ].
Proof.
  exact (proj1 (rank_complete
                  [ {| entry := tokyo_adventure; score := 0;
                       relevance := None |};
                    {| entry := paris_getaway; score := 6;
                       relevance := None |};
                    {| entry := paris_museums; score := 9;
                       relevance := None |} ] 3) ltac:(simpl; lia)).
Defined.

(** ** Searches without a query, and without entries *)

Lemma slice0_nil {A} m : slice0 (@nil A) m = [].
Proof. destruct m; simpl; try done. by case_match; rewrite take_nil. Qed.

Lemma getAllEntries_answer cs contentType n entries :
  cs n contentType 100%Z = Entries entries →
  (getAllEntries cs contentType 100 n).1 = Ok (default [] entries).
Proof. intros Hcs. unfold getAllEntries. by rewrite Hcs. Qed.

(** X7.  Without a query neither search scores anything: both return the
    first entries of the answer, as many as the maximum allows, as they
    were fetched and without a score, whatever the fields of the entries
    hold.  Intelligent search does the same for any query when the answer
    has no entries: it returns the empty sequence after its one
    request. *)
Theorem unscored_results (cs : store) (p : SearchParams) (n : nat) :
  (∀ entries z,
     query p = "" →
     default (Num 10) (maxResults p) = Num z → (0 ≤ z)%Z →
     (cs n (default "tours" (contentType p)) 100%Z = Entries (Some entries) →
      searchContent cs p n
      = (Ok (Unranked (take (Z.to_nat z) entries)), S n))
     ∧ (cs n (default "tour" (contentType p)) 100%Z = Entries (Some entries) →
        intelligentSearch cs p n
        = (Ok (Unranked (take (Z.to_nat z) entries)), S n)))
  ∧ (cs n (default "tour" (contentType p)) 100%Z = Entries None
     ∨ cs n (default "tour" (contentType p)) 100%Z = Entries (Some []) →
     intelligentSearch cs p n = (Ok (Unranked []), S n)).
Proof.
  split.
  - intros entries z Hq Hm Hz. split; intros Hcs.
    + rewrite (searchContent_fetched _ _ _ entries)
        by by rewrite (getAllEntries_answer _ _ _ _ Hcs).
      by rewrite Hq, Hm, slice0_nonneg.
    + rewrite (intelligentSearch_fetched _ _ _ entries)
        by by rewrite (getAllEntries_answer _ _ _ _ Hcs).
      by rewrite Hq, Hm, slice0_nonneg.
  - intros Hcs.
    rewrite (intelligentSearch_fetched _ _ _ [])
      by by destruct Hcs as [Hcs|Hcs];
           rewrite (getAllEntries_answer _ _ _ _ Hcs).
    rewrite orb_true_r. by rewrite slice0_nil.
Qed.

Lemma unscored_results_witness :
  searchContent numbered_store (search_for "" (Some (Num 5))) 0
  = (Ok (Unranked [numbered]), 1).
Proof.
  exact (proj1 (proj1 (unscored_results numbered_store
                         (search_for "" (Some (Num 5))) 0)
                  [numbered] 5%Z eq_refl eq_refl ltac:(done)) eq_refl).
Defined.

(** ** What the searches throw, and how many requests they make *)

(** X8.  Plain search makes one request, and whatever goes wrong in it,
    a failed request or a failed scoring, it throws as one error whose
    message begins with "Failed to search content: ".  Intelligent search
    makes one request or two, and throws nothing of its own: when it
    throws, it is the error of plain search, after the second request. *)
Theorem search_failures (cs : store) (p : SearchParams) (n : nat) :
  (searchContent cs p n).2 = S n
  ∧ (∀ e, (searchContent cs p n).1 = Throw e →
          ∃ cause, e = Error ("Failed to search content: " +:+ describe cause))
  ∧ ((intelligentSearch cs p n).2 = S n
     ∨ (intelligentSearch cs p n).2 = S (S n))
  ∧ (∀ e, (intelligentSearch cs p n).1 = Throw e →
          (intelligentSearch cs p n).2 = S (S n)
          ∧ ∃ cause,
              e = Error ("Failed to search content: " +:+ describe cause)).
Proof.
  assert (∀ p n,
            (searchContent cs p n).2 = S n
            ∧ ∀ e, (searchContent cs p n).1 = Throw e →
                   ∃ cause, e = search_failure cause) as Hplain.
  { intros p' n'.
    destruct ((getAllEntries cs (default "tours" (contentType p')) 100 n').1)
      as [entries|e0] eqn:Hfetch.
    - rewrite (searchContent_fetched _ _ _ _ Hfetch). split; [done|].
      cbn [fst]. destruct (String.eqb (query p') ""); [done|].
      destruct (map_result _ entries) as [scored|e1]; [done|].
      intros e [= <-]. eauto.
    - rewrite (searchContent_failed _ _ _ _ Hfetch). split; [done|].
      intros e [= <-]. eauto. }
  split; [apply Hplain|]. split; [apply Hplain|].
  destruct (Hplain (fallback_params p) (S n)) as [Hn Hthrow].
  destruct ((getAllEntries cs (default "tour" (contentType p)) 100 n).1)
    as [allEntries|e0] eqn:Hfetch.
  - rewrite (intelligentSearch_fetched _ _ _ _ Hfetch).
    destruct (String.eqb (query p) "" || (length allEntries =? 0)).
    { split; [by left|done]. }
    destruct (map_result _ allEntries) as [scored|e1].
    { split; [by left|done]. }
    split; [by right|]. intros e He. split; [done|by apply Hthrow].
  - rewrite (intelligentSearch_failed _ _ _ _ Hfetch).
    split; [by right|]. intros e He. split; [done|by apply Hthrow].
Qed.

Lemma search_failures_witness :
  (intelligentSearch failing_store (search_for "paris" None) 0).2 = 2
  ∧ ∃ cause,
      Error "Failed to search content: Failed to fetch entries: timeout"
      = Error ("Failed to search content: " +:+ describe cause).
Proof.
  exact (proj2 (proj2 (proj2 (search_failures failing_store
                                (search_for "paris" None) 0)))
           (Error "Failed to search content: Failed to fetch entries: timeout")
           eq_refl).
Defined.

(** ** The fallback and entries that cannot be scored *)

Lemma map_result_throws {A B} (f : A → result B) l a ex :
  a ∈ l → f a = Throw ex → ∃ ex', map_result f l = Throw ex'.
Proof.
  intros Ha Hf. induction l as [|a' l IH]; [by apply elem_of_nil in Ha|].
  simpl. destruct (f a') as [b|ex'] eqn:Ha'; [|by eexists].
  apply elem_of_cons in Ha as [->|Ha]; [congruence|].
  destruct (IH Ha) as [ex' ->]. by eexists.
Qed.

Lemma or_else_truthy a b : truthy a = true → a ||| b = a.
Proof. intros Ha. unfold or_else. by rewrite Ha. Qed.

(** An entry intelligent search cannot score is one plain search cannot
    score either, with the same error. *)
Lemma intelligent_throws_plain_throws q terms terms' e ex :
  intelligent_score q terms e = Throw ex → plain_score terms' e = Throw ex.
Proof.
  unfold intelligent_score, plain_score.
  destruct (toLowerCase_of (field e "title" ||| VStr "")) as [title|];
    [|done].
  cbn [mbind result_bind].
  unfold intelligent_description, plain_description.
  set (probed := field e "description" ||| field e "paris" ||| field e "india").
  destruct (truthy probed) eqn:Hprobed.
  - rewrite !(or_else_truthy probed) by done.
    destruct (toLowerCase_of probed); [done|]. by intros [= <-].
  - unfold or_else at 1. rewrite Hprobed. done.
Qed.

(** X9.  The fallback does not cure an entry that cannot be scored: when
    one of the fetched entries makes the scoring of intelligent search
    throw, and the store answers the request of the fallback with the same
    entries, intelligent search throws the failure of plain search. *)
Theorem fallback_meets_the_same_entries (cs : store) (p : SearchParams)
    (n : nat) (entries : list Entry) (e : Entry) (ex : exn) :
  query p ≠ "" →
  cs n (default "tour" (contentType p)) 100%Z = Entries (Some entries) →
  cs (S n) (default "tour" (contentType p)) 100%Z = Entries (Some entries) →
  e ∈ entries →
  intelligent_score (query p) (search_terms (query p)) e = Throw ex →
  ∃ cause,
    intelligentSearch cs p n
    = (Throw (Error ("Failed to search content: " +:+ describe cause)),
       S (S n)).
Proof.
  intros Hq%String.eqb_neq Hcs Hcs' He Hex.
  rewrite (intelligentSearch_fetched _ _ _ entries)
    by by rewrite (getAllEntries_answer _ _ _ _ Hcs).
  rewrite Hq. cbn [orb].
  assert ((length entries =? 0) = false) as ->.
  { apply Nat.eqb_neq. destruct entries; [by apply elem_of_nil in He|done]. }
  destruct (map_result_throws _ _ _ _ He Hex) as [ex1 ->].
  rewrite (searchContent_fetched _ _ _ entries)
    by by cbn; rewrite (getAllEntries_answer _ _ _ _ Hcs').
  cbn [query fallback_params]. rewrite Hq.
  destruct (map_result_throws
              (plain_score (Str.split " " (Str.toLowerCase (query p))))
              _ _ _ He (intelligent_throws_plain_throws _ _ _ _ _ Hex))
    as [ex2 ->].
  by exists ex2.
Qed.

Lemma fallback_meets_the_same_entries_witness :
  ∃ cause,
    intelligentSearch rich_text_store (search_for "tokyo" None) 0
    = (Throw (Error ("Failed to search content: " +:+ describe cause)), 2).
Proof.
  apply (fallback_meets_the_same_entries rich_text_store
           (search_for "tokyo" None) 0 [tokyo_adventure; rich_text]
           rich_text (TypeError "toLowerCase is not a function")).
  - done.
  - reflexivity.
  - reflexivity.
  - apply list_elem_of_further, list_elem_of_here.
  - reflexivity.
Defined.

(** * Creating entries in bulk *)

(** What one turn of the loop does: one request to create, at most one to
    publish, and one record more, among the successful or the failed. *)
Lemma bulk_step_cases api contentType publish results log entryData :
  ∃ reqs,
    (bulk_step api contentType publish (results, log) entryData).2
    = log ++ create_request contentType entryData :: reqs
    ∧ ((reqs = []
        ∧ ∀ entry, api (length log) (create_request contentType entryData)
                   = Replied (Some entry) → publish = false)
       ∨ (publish = true
          ∧ ∃ entry,
              api (length log) (create_request contentType entryData)
              = Replied (Some entry)
              ∧ reqs = [PublishEntry contentType (prop entry "uid")]))
    ∧ ((∃ created,
          (bulk_step api contentType publish (results, log) entryData).1
          = {| successful := successful results ++ [created];
               failed := failed results |}
          ∧ published created = publish
          ∧ (publish = true → reqs ≠ []))
       ∨ (∃ message,
            (bulk_step api contentType publish (results, log) entryData).1
            = {| successful := successful results;
                 failed :=
                   failed results
                   ++ [{| rejected_title := up_title entryData;
                          rejected_error := message |}] |})).
Proof.
  unfold bulk_step, createEntry, create_request. cbn [default].
  destruct (api (length log) _) as [[entry|]|em m] eqn:Hcreate.
  - destruct publish.
    + unfold publishEntry. cbn [default].
      destruct (api (length (log ++ _)) _) as [?|em m] eqn:Hpublish;
        cbn [mbind result_bind fst snd];
        (eexists; split; [by rewrite <-app_assoc|]);
        (split; [right; eauto|]); [left|right]; eauto.
    + cbn [fst snd]. exists []. split; [done|].
      split; [left; eauto|]. left. eauto.
  - cbn [fst snd]. exists []. split; [done|].
    split; [by left|]. right. eauto.
  - cbn [fst snd]. exists []. split; [done|].
    split; [by left|]. right. eauto.
Qed.

Lemma bulk_fold api contentType publish entries results log :
  let out := fold_left (bulk_step api contentType publish) entries
               (results, log) in
  ∃ more_successful more_failed more_requests,
    successful out.1 = successful results ++ more_successful
    ∧ failed out.1 = failed results ++ more_failed
    ∧ out.2 = log ++ more_requests
    ∧ length more_successful + length more_failed = length entries
    ∧ rejected_title <$> more_failed `sublist_of` up_title <$> entries
    ∧ Forall (λ created, published created = publish) more_successful
    ∧ filter (λ r, is_publish r = false) more_requests
      = create_request contentType <$> entries
    ∧ (publish = false →
       more_requests = create_request contentType <$> entries)
    ∧ (publish = true →
       length more_successful
       ≤ length (filter (λ r, is_publish r = true) more_requests)
       ≤ length entries).
Proof.
  revert results log.
  induction entries as [|entryData entries IH]; intros results log out.
  - exists [], [], []. subst out. simpl. rewrite !app_nil_r.
    repeat split; try done; try lia.
  - subst out. cbn [fold_left].
    destruct (bulk_step_cases api contentType publish results log entryData)
      as (reqs & Hlog & Hreqs & Hres).
    destruct (bulk_step api contentType publish (results, log) entryData)
      as [results1 log1] eqn:Hstep.
    cbn [fst snd] in *.
    destruct (IH results1 log1) as (ms & mf & mr & Hs & Hf & Hl & Hlen
                                     & Hsub & Hpub & Hcreates & Hoff & Hon).
    assert (filter (λ r, is_publish r = false) reqs = []
            ∧ length (filter (λ r, is_publish r = true) reqs) = length reqs
            ∧ length reqs ≤ 1) as (Hreqs0 & Hreqs1 & Hreqs2).
    { destruct Hreqs as [[-> _]|(_ & entry & _ & ->)];
        (split; [|split]); try (by vm_compute); simpl; lia. }
    destruct Hres as [(created & -> & Hcreated & Hne)|(message & ->)];
      cbn [successful failed] in *.
    + exists (created :: ms), mf, (create_request contentType entryData
                                    :: reqs ++ mr).
      rewrite Hs, Hf, Hl, Hlog, <-!app_assoc. cbn [app length fmap list_fmap].
      split; [done|]. split; [done|]. split; [done|]. split; [lia|].
      split; [by apply sublist_cons|]. split; [by constructor|].
      rewrite !(filter_cons _ (create_request _ _)).
      rewrite decide_True by done. rewrite decide_False by done.
      rewrite !filter_app, Hreqs0, Hcreates, !length_app, Hreqs1.
      split; [done|]. split.
      * intros ->. destruct Hreqs as [[-> _]|[? _]]; [|done].
        by rewrite (Hoff eq_refl).
      * intros ->. specialize (Hon eq_refl). specialize (Hne eq_refl).
        destruct reqs; [done|]. simpl in *. lia.
    + exists ms, ({| rejected_title := up_title entryData;
                    rejected_error := message |} :: mf),
        (create_request contentType entryData :: reqs ++ mr).
      rewrite Hs, Hf, Hl, Hlog, <-!app_assoc. cbn [app length fmap list_fmap].
      split; [done|]. split; [done|]. split; [done|]. split; [lia|].
      split; [by apply sublist_skip|]. split; [done|].
      rewrite !(filter_cons _ (create_request _ _)).
      rewrite decide_True by done. rewrite decide_False by done.
      rewrite !filter_app, Hreqs0, Hcreates, !length_app, Hreqs1.
      split; [done|]. split.
      * intros ->. destruct Hreqs as [[-> _]|[? _]]; [|done].
        by rewrite (Hoff eq_refl).
      * intros ->. specialize (Hon eq_refl). lia.
Qed.

(** X10.  [bulkCreateEntries] accounts for every element once: the
    successful and the failed records together are as many as the
    elements, the failed ones carry the titles of their elements in the
    order of the elements, and every successful record has the publish flag
    of the call.  A failure of one element stops nothing: the requests made
    before stay as they are and the loop goes on. *)
Theorem bulkCreateEntries_accounts (api : management) (entries : list Upload)
    (contentType : option string) (publish : bool) (log : list request) :
  let out := bulkCreateEntries api entries contentType publish log in
  length (successful out.1) + length (failed out.1) = length entries
  ∧ rejected_title <$> failed out.1 `sublist_of` up_title <$> entries
  ∧ Forall (λ created, published created = publish) (successful out.1)
  ∧ log `prefix_of` out.2.
Proof.
  intros out. subst out. unfold bulkCreateEntries.
  destruct (bulk_fold api (default "tour" contentType) publish entries
              {| successful := []; failed := [] |} log)
    as (ms & mf & mr & Hs & Hf & Hl & Hlen & Hsub & Hpub & _).
  cbn [successful failed app] in *. rewrite Hs, Hf, Hl.
  repeat split; try done. by eexists.
Qed.

(** X11.  [bulkCreateEntries] asks the API to create each element once,
    in the order of the elements and with the content type of the call
    ("tour" when none is given), whether or not earlier elements failed.
    Without publishing these are all its requests; with publishing it
    asks to publish at most once for each element, and at least once for
    each successful record. *)
Theorem bulkCreateEntries_requests (api : management) (entries : list Upload)
    (contentType : option string) (publish : bool) (log : list request) :
  ∃ made,
    (bulkCreateEntries api entries contentType publish log).2 = log ++ made
    ∧ filter (λ r, is_publish r = false) made
      = create_request (default "tour" contentType) <$> entries
    ∧ (publish = false →
       made = create_request (default "tour" contentType) <$> entries)
    ∧ (publish = true →
       length (successful
                 (bulkCreateEntries api entries contentType publish log).1)
       ≤ length (filter (λ r, is_publish r = true) made)
       ≤ length entries).
Proof.
  unfold bulkCreateEntries.
  destruct (bulk_fold api (default "tour" contentType) publish entries
              {| successful := []; failed := [] |} log)
    as (ms & mf & mr & Hs & Hf & Hl & Hlen & Hsub & Hpub & Hcreates
        & Hoff & Hon).
  cbn [successful failed app] in *. exists mr. rewrite Hs.
  repeat split; try done; by apply Hon.
Qed.

Lemma bulkCreateEntries_requests_witness :
  ∃ made,
    (bulkCreateEntries publish_refusing [paris_upload] None false []).2 = made
    ∧ made = [create_request "tour" paris_upload].
Proof.
  destruct (bulkCreateEntries_requests publish_refusing [paris_upload] None
              false []) as (made & Hlog & _ & Hoff & _).
  exists made. split; [exact Hlog|exact (Hoff eq_refl)].
Defined.

(** X12.  An element that the API created and then refused to publish is
    recorded as failed, with the message of the refusal: the entry is in
    the store, and the caller is told it failed. *)
Theorem created_but_unpublished_is_failed (api : management)
    (entryData : Upload) (contentType : string) (log : list request)
    (entry : gmap string value) (error_message message : string) :
  api (length log) (create_request contentType entryData)
  = Replied (Some entry) →
  api (S (length log)) (PublishEntry contentType (prop entry "uid"))
  = Refused error_message message →
  bulkCreateEntries api [entryData] (Some contentType) true log
  = ({| successful := [];
        failed :=
          [{| rejected_title := up_title entryData;
              rejected_error :=
                "Failed to publish entry: "
                +:+ (if String.eqb error_message "" then message
                     else error_message) |}] |},
     log ++ [create_request contentType entryData;
             PublishEntry contentType (prop entry "uid")]).
Proof.
  intros Hcreate Hpublish.
  unfold bulkCreateEntries. cbn [fold_left]. unfold bulk_step, createEntry.
  change (default "tour" (Some contentType)) with contentType.
  change (default "tours" (Some contentType)) with contentType.
  fold (create_request contentType entryData). rewrite Hcreate.
  unfold publishEntry.
  change (default "tours" (Some contentType)) with contentType.
  rewrite length_app. cbn [length]. rewrite Nat.add_1_r, Hpublish.
  cbn [mbind result_bind]. by rewrite <-app_assoc.
Qed.

Lemma created_but_unpublished_is_failed_witness :
  bulkCreateEntries publish_refusing [paris_upload] (Some "tour") true []
  = ({| successful := [];
        failed :=
          [{| rejected_title := VStr "Paris Tour";
              rejected_error :=
                "Failed to publish entry: Request failed with status code 422"
           |}] |},
     [create_request "tour" paris_upload; PublishEntry "tour" (VStr "blt1")]).
Proof.
  etrans.
  - apply (created_but_unpublished_is_failed publish_refusing paris_upload
             "tour" []
             (<["uid" := VStr "blt1"]>
                (entry_data (VStr "Paris Tour") (VStr "Three days") ∅))
             "" "Request failed with status code 422"); reflexivity.
  - vm_compute. reflexivity.
Defined.

(** * Rows of a sheet *)

(** ** Trimming *)

Lemma trimStart_head s :
  trimStart s = "" ∨ ∃ c t, trimStart s = String c t ∧ is_white c = false.
Proof.
  induction s as [|c s IH]; [by left|]. simpl.
  destruct (is_white c) eqn:Hc; [done|]. right. eauto.
Qed.

Lemma trimEnd_head c s :
  is_white c = false → ∃ t, trimEnd (String c s) = String c t.
Proof. intros Hc. simpl. rewrite Hc. destruct (trimEnd s); eauto. Qed.

Lemma trimEnd_idemp s : trimEnd (trimEnd s) = trimEnd s.
Proof.
  induction s as [|c s IH]; [done|]. simpl.
  destruct (trimEnd s) as [|d t] eqn:Ht.
  - destruct (is_white c) eqn:Hc; [done|]. simpl. by rewrite Hc.
  - cbn [trimEnd]. cbn [trimEnd] in IH. by rewrite IH.
Qed.

Lemma trim_idemp s : trim (trim s) = trim s.
Proof.
  unfold trim. destruct (trimStart_head s) as [->|(c & t & -> & Hc)]; [done|].
  destruct (trimEnd_head c t Hc) as [t' Ht'].
  rewrite Ht'. cbn [trimStart]. rewrite Hc, <-Ht'. apply trimEnd_idemp.
Qed.

(** ** What [processData] returns *)

Lemma map_result_lookup {A B} (f : A → result B) l bs :
  map_result f l = Ok bs →
  length bs = length l
  ∧ ∀ i a, l !! i = Some a → ∃ b, bs !! i = Some b ∧ f a = Ok b.
Proof.
  revert bs. induction l as [|a l IH]; intros bs; simpl.
  - intros [= <-]. split; [done|]. intros i a. by rewrite lookup_nil.
  - destruct (f a) as [b|] eqn:Ha; [|done]. cbn [mbind result_bind].
    destruct (map_result f l) as [bs'|]; [|done]. cbn [mbind result_bind].
    intros [= <-]. destruct (IH bs' eq_refl) as [Hlen Hlookup].
    split; [simpl; lia|]. intros [|i] a'; simpl.
    + intros [= <-]. eauto.
    + apply Hlookup.
Qed.

Lemma map_result_first_throw {A B} (f : A → result B) l i a ex :
  l !! i = Some a →
  (∀ j a', j < i → l !! j = Some a' → ∃ b, f a' = Ok b) →
  f a = Throw ex →
  map_result f l = Throw ex.
Proof.
  revert i. induction l as [|a0 l IH]; intros i Hi Hbefore Hex;
    [by rewrite lookup_nil in Hi|].
  destruct i as [|i]; simpl in *.
  - simplify_eq. by rewrite Hex.
  - destruct (Hbefore 0 a0 ltac:(lia) eq_refl) as [b ->].
    cbn [mbind result_bind].
    rewrite (IH i Hi); [done| |done].
    intros j a' Hj Ha'. apply (Hbefore (S j) a'); [lia|done].
Qed.

Lemma trim_of_string v s : trim_of v = Ok s → ∃ raw, v = VStr raw ∧ s = trim raw.
Proof. destruct v; simpl; try done. intros [= <-]. eauto. Qed.

Section ProcessDataFacts.
Variable stringify : Entry → string.

Lemma process_row_Ok titleColumn descriptionColumn row upload :
  process_row stringify titleColumn descriptionColumn row = Ok upload →
  ∃ title description,
    title_cell titleColumn row = VStr title
    ∧ description_cell descriptionColumn row = VStr description
    ∧ trim title ≠ ""
    ∧ upload
      = {| up_title := VStr (trim title);
           up_description := VStr (trim description);
           up_additionalFields :=
             Some (additional_fields titleColumn descriptionColumn row) |}.
Proof.
  unfold process_row.
  destruct (trim_of (title_cell titleColumn row)) as [trimmed|] eqn:Ht;
    [|done].
  apply trim_of_string in Ht as (title & Htitle & ->).
  cbn [mbind result_bind].
  destruct (String.eqb (trim title) "") eqn:Hempty; [done|].
  apply String.eqb_neq in Hempty.
  destruct (trim_of (description_cell descriptionColumn row))
    as [trimmed|] eqn:Hd; [|done].
  apply trim_of_string in Hd as (description & Hdescription & ->).
  cbn [mbind result_bind]. intros [= <-]. eauto 10.
Qed.

(** X13.  What [processData] returns has one element for each row, in
    the order of the rows.  The title of an element is the first of the
    cells under the title column, title, Title, NAME and name that is not
    empty, trimmed: it is never empty and has no white space at either
    end.  The description is found and trimmed likewise, and the
    additional fields are the other cells of the row. *)
Theorem processData_elements (jsonData : list Entry)
    (titleColumn descriptionColumn : string) (uploads : list Upload) :
  processData stringify jsonData titleColumn descriptionColumn = Ok uploads →
  length uploads = length jsonData
  ∧ ∀ i row, jsonData !! i = Some row →
      ∃ title description,
        title_cell titleColumn row = VStr title
        ∧ description_cell descriptionColumn row = VStr description
        ∧ trim title ≠ ""
        ∧ trim (trim title) = trim title
        ∧ uploads !! i
          = Some {| up_title := VStr (trim title);
                    up_description := VStr (trim description);
                    up_additionalFields :=
                      Some (additional_fields titleColumn descriptionColumn
                              row) |}.
Proof.
  intros [Hlen Hrows]%map_result_lookup. split; [done|].
  intros i row Hrow.
  destruct (Hrows i row Hrow) as (upload & Hupload & Hprocess).
  apply process_row_Ok in Hprocess
    as (title & description & Ht & Hd & Hne & ->).
  exists title, description. by rewrite trim_idemp.
Qed.


(** X14.  [processData] returns nothing when one row is bad, and the first
    bad row decides the error.  A row with no title, or a title of white
    space only, gives "Missing title in row: " with the row.  A row whose
    title cell is not a string (a number cell) gives a [TypeError]
    instead, as does a row with a good title whose description cell is not
    a string. *)
Theorem processData_first_bad_row (jsonData : list Entry)
    (titleColumn descriptionColumn : string) (i : nat) (row : Entry) :
  jsonData !! i = Some row →
  (∀ j row', j < i → jsonData !! j = Some row' →
     ∃ upload,
       process_row stringify titleColumn descriptionColumn row' = Ok upload) →
  (∀ title, title_cell titleColumn row = VStr title → trim title = "" →
     processData stringify jsonData titleColumn descriptionColumn
     = Throw (Error ("Missing title in row: " +:+ stringify row)))
  ∧ ((∀ title, title_cell titleColumn row ≠ VStr title) →
     ∃ message,
       processData stringify jsonData titleColumn descriptionColumn
       = Throw (TypeError message))
  ∧ (∀ title,
       title_cell titleColumn row = VStr title → trim title ≠ "" →
       (∀ description,
          description_cell descriptionColumn row ≠ VStr description) →
       ∃ message,
         processData stringify jsonData titleColumn descriptionColumn
         = Throw (TypeError message)).
Proof.
  intros Hrow Hbefore.
  split; [|split].
  - intros title Htitle Hempty.
    apply (map_result_first_throw _ _ i row); [done..|].
    unfold process_row. rewrite Htitle. cbn [trim_of mbind result_bind].
    by rewrite Hempty.
  - intros Hnot. eexists.
    apply (map_result_first_throw _ _ i row); [done..|].
    unfold process_row.
    by destruct (title_cell titleColumn row) as [| | | |title|];
      try done; destruct (Hnot title).
  - intros title Htitle Hne Hnot. eexists.
    apply (map_result_first_throw _ _ i row); [done..|].
    unfold process_row. rewrite Htitle. cbn [trim_of mbind result_bind].
    apply String.eqb_neq in Hne. rewrite Hne.
    by destruct (description_cell descriptionColumn row)
         as [| | | |description|]; try done; destruct (Hnot description).
Qed.

End ProcessDataFacts.

Lemma processData_elements_witness :
  processData column_names [priced_row] "title" "description"
  = Ok [priced_upload]
  ∧ length [priced_upload] = length [priced_row].
Proof.
  assert (processData column_names [priced_row] "title" "description"
          = Ok [priced_upload]) as Hdata by (vm_compute; reflexivity).
  split; [exact Hdata|].
  exact (proj1 (processData_elements column_names [priced_row] "title"
                  "description" [priced_upload] Hdata)).
Defined.

Lemma processData_first_bad_row_witness :
  processData column_names [priced_row; unnamed_row] "title" "description"
  = Throw (Error "Missing title in row: {Title,Price}").
Proof.
  etrans; [|by vm_compute].
  refine (proj1 (processData_first_bad_row column_names
                   [priced_row; unnamed_row] "title" "description" 1
                   unnamed_row eq_refl _) "   " eq_refl eq_refl).
  intros j row' Hj Hrow'. destruct j as [|j]; [|lia].
  injection Hrow' as <-. exists priced_upload. by vm_compute.
Defined.

(** ** The additional fields *)

Lemma additional_fields_lookup titleColumn descriptionColumn row key :
  key ∈ row.*1 →
  is_additional titleColumn descriptionColumn key = true →
  (∀ key', key' ∈ row.*1 →
     Str.toLowerCase key' = Str.toLowerCase key → key' = key) →
  additional_fields titleColumn descriptionColumn row
    !! Str.toLowerCase key
  = Some (field row key).
Proof.
  unfold additional_fields. intros Hkey Hadd.
  assert (∀ keys (acc : gmap string value),
            (key ∈ keys
             ∨ acc !! Str.toLowerCase key = Some (field row key)) →
            (∀ key', key' ∈ keys →
               Str.toLowerCase key' = Str.toLowerCase key → key' = key) →
            fold_left
              (λ additionalFields key0,
                 if is_additional titleColumn descriptionColumn key0
                 then <[Str.toLowerCase key0 := field row key0]>
                        additionalFields
                 else additionalFields) keys acc
              !! Str.toLowerCase key
            = Some (field row key)) as Hfold.
  { induction keys as [|k keys IH]; intros acc Hin Hunique.
    - destruct Hin as [Hin|Hin]; [by apply elem_of_nil in Hin|done].
    - cbn [fold_left]. apply IH.
      + destruct (decide (k = key)) as [->|Hk].
        * right. rewrite Hadd. apply lookup_insert_eq.
        * destruct Hin as [Hin|Hin].
          { apply elem_of_cons in Hin as [->|Hin]; [done|by left]. }
          right. destruct (is_additional _ _ k); [|done].
          rewrite lookup_insert_ne; [done|].
          intros Hlower. apply Hk, Hunique; [apply list_elem_of_here|done].
      + intros key' Hkey'. apply Hunique. by apply list_elem_of_further. }
  intros Hunique. apply Hfold; [by left|done].
Qed.

(** X15.  A column the title is not read under, but whose name is title
    in another case (Title under the default title column), and which is
    the only column of the row with such a name, goes to the additional
    fields as [title], and in the entry that [createEntry] sends it takes
    the place of the title: what is sent as title is the cell as it is in
    the row, not the trimmed title of the element. *)
Theorem other_title_column_replaces_title (stringify : Entry → string)
    (titleColumn descriptionColumn key contentType : string) (row : Entry)
    (upload : Upload) :
  process_row stringify titleColumn descriptionColumn row = Ok upload →
  key ∈ row.*1 →
  is_additional titleColumn descriptionColumn key = true →
  Str.toLowerCase key = "title" →
  (∀ key', key' ∈ row.*1 → Str.toLowerCase key' = "title" → key' = key) →
  ∃ entryData,
    create_request contentType upload = CreateEntry contentType entryData
    ∧ entryData !! "title" = Some (field row key)
    ∧ ∃ title, title_cell titleColumn row = VStr title
               ∧ up_title upload = VStr (trim title).
Proof.
  intros (title & description & Ht & Hd & Hne & ->)%process_row_Ok
    Hkey Hadd Hlower Hunique.
  eexists. split; [done|]. split; [|eauto].
  cbn [up_title up_description up_additionalFields default].
  unfold entry_data. apply lookup_union_Some_l.
  rewrite <-Hlower. apply additional_fields_lookup; [done..|].
  intros key' Hkey'. rewrite Hlower. by apply Hunique.
Qed.

Lemma other_title_column_replaces_title_witness :
  ∃ entryData,
    create_request "tour" priced_upload = CreateEntry "tour" entryData
    ∧ entryData !! "title" = Some (VStr "  Paris Tour ")
    ∧ up_title priced_upload = VStr "Paris Tour".
Proof.
  destruct (other_title_column_replaces_title column_names "title"
              "description" "Title" "tour" priced_row priced_upload)
    as (entryData & Hrequest & Htitle & _).
  - by vm_compute.
  - apply list_elem_of_here.
  - reflexivity.
  - reflexivity.
  - intros key' [->|[->|[]%elem_of_nil]%elem_of_cons]%elem_of_cons; [done|].
    intros Hlower. by vm_compute in Hlower.
  - exists entryData. split; [exact Hrequest|]. split; [exact Htitle|done].
Defined.

(** ** Suggested columns *)

Lemma suggested_Some suggestions columns col :
  suggested suggestions columns = Some col →
  col ∈ columns
  ∧ ∃ suggestion, suggestion ∈ suggestions
                  ∧ Str.includes (Str.toLowerCase col) suggestion = true.
Proof.
  intros [Hin Hmatch]%find_some. split; [by apply list_elem_of_In|].
  apply existsb_exists in Hmatch as (suggestion & Hs & Hmatch).
  exists suggestion. split; [by apply list_elem_of_In|done].
Qed.

Lemma or_column_Some found columns i col :
  (∀ c, found = Some c → c ∈ columns) →
  or_column found columns i = Some col → col ∈ columns.
Proof.
  intros Hfound. unfold or_column.
  destruct found as [c|].
  - destruct (String.eqb c ""); [by apply list_elem_of_lookup_2|].
    intros [= <-]. by apply Hfound.
  - by apply list_elem_of_lookup_2.
Qed.

(** X16.  The columns [suggestColumnMapping] suggests are columns of the
    sheet.  The title column is the first column whose lowercased name
    contains one of title, name, heading, subject and topic, or else the
    first column, and is undefined only for a sheet without columns.  The
    description column is found likewise with its own words, or else is
    the second column: it is undefined exactly when no column has one of
    the words and the sheet has fewer than two columns. *)
Theorem suggestColumnMapping_columns (columns : list string) :
  let mapping := suggestColumnMapping columns in
  (∀ col, titleColumn mapping = Some col → col ∈ columns)
  ∧ (∀ col, descriptionColumn mapping = Some col → col ∈ columns)
  ∧ (∀ col, suggested titleSuggestions columns = Some col →
            titleColumn mapping = Some col)
  ∧ (suggested titleSuggestions columns = None →
     titleColumn mapping = columns !! 0)
  ∧ (∀ col, suggested descriptionSuggestions columns = Some col →
            descriptionColumn mapping = Some col)
  ∧ (suggested descriptionSuggestions columns = None →
     descriptionColumn mapping = columns !! 1)
  ∧ (titleColumn mapping = None ↔ columns = [])
  ∧ (descriptionColumn mapping = None ↔
       suggested descriptionSuggestions columns = None ∧ length columns ≤ 1)
  ∧ availableColumns mapping = columns.
Proof.
  intros mapping. subst mapping. cbn [suggestColumnMapping titleColumn
    descriptionColumn availableColumns].
  assert (∀ suggestions col,
            Forall (λ s, s ≠ "") suggestions →
            suggested suggestions columns = Some col →
            String.eqb col "" = false) as Hnonempty.
  { intros suggestions col Hs (_ & suggestion & Hin & Hmatch)%suggested_Some.
    apply String.eqb_neq. intros ->.
    rewrite Forall_forall in Hs. specialize (Hs _ Hin).
    by destruct suggestion. }
  assert (Forall (λ s, s ≠ "") titleSuggestions) as Ht
    by (repeat constructor; done).
  assert (Forall (λ s, s ≠ "") descriptionSuggestions) as Hd
    by (repeat constructor; done).
  split; [|split; [|split; [|split; [|split; [|split; [|split; [|split]]]]]]].
  - intros col. apply or_column_Some. by intros c [? _]%suggested_Some.
  - intros col. apply or_column_Some. by intros c [? _]%suggested_Some.
  - intros col Hcol. unfold or_column.
    by rewrite Hcol, (Hnonempty _ _ Ht Hcol).
  - by intros ->.
  - intros col Hcol. unfold or_column.
    by rewrite Hcol, (Hnonempty _ _ Hd Hcol).
  - by intros ->.
  - unfold or_column.
    destruct (suggested titleSuggestions columns) as [col|] eqn:Hcol.
    + rewrite (Hnonempty _ _ Ht Hcol). split; [done|]. intros ->.
      by apply suggested_Some in Hcol as [?%elem_of_nil _].
    + by destruct columns.
  - unfold or_column.
    destruct (suggested descriptionSuggestions columns) as [col|] eqn:Hcol.
    + rewrite (Hnonempty _ _ Hd Hcol). split; [done|]. by intros [? _].
    + rewrite lookup_ge_None. split; [intros ?; split; [done|lia]|].
      intros [_ ?]. lia.
  - done.
Qed.

Lemma suggestColumnMapping_columns_witness :
  titleColumn (suggestColumnMapping ["Id"; "Tour Name"; "Details"])
  = Some "Tour Name"
  ∧ descriptionColumn (suggestColumnMapping ["Id"; "Price"]) = Some "Price".
Proof.
  split.
  - by apply (suggestColumnMapping_columns ["Id"; "Tour Name"; "Details"]).
  - etrans; [|exact (eq_refl : ["Id"; "Price"] !! 1 = Some "Price")].
    by apply (suggestColumnMapping_columns ["Id"; "Price"]).
Defined.

(** ** The upload history *)

(** X17.  [getUploadHistory] returns records of the history in the order
    of the history.  With a bot id that is not empty all of them are of
    that bot; with a limit that is not negative (10 when none is given)
    they are the first so many of the bot's records, never more than the
    limit. *)
Theorem getUploadHistory_selects (history : list UploadRecord)
    (botId : option string) (limit : option number) :
  getUploadHistory history botId limit `sublist_of` history
  ∧ (∀ id, botId = Some id → id ≠ "" →
     Forall (λ record, rec_botId record = Some id)
       (getUploadHistory history botId limit))
  ∧ (∀ z, default (Num 10) limit = Num z → (0 ≤ z)%Z →
     (Z.of_nat (length (getUploadHistory history botId limit)) ≤ z)%Z
     ∧ (botId = None →
        getUploadHistory history botId limit = take (Z.to_nat z) history)
     ∧ ∀ id, botId = Some id → id ≠ "" →
         getUploadHistory history botId limit
         = take (Z.to_nat z)
             (filter (λ record, rec_botId record = Some id) history)).
Proof.
  unfold getUploadHistory.
  set (selected := match botId with
                   | Some id =>
                       if String.eqb id "" then history
                       else filter (λ record, rec_botId record = Some id)
                              history
                   | None => history
                   end).
  assert (selected `sublist_of` history) as Hsub.
  { subst selected. destruct botId as [id|]; [|done].
    destruct (String.eqb id ""); [done|]. apply sublist_filter. }
  split; [|split].
  - etrans; [|done].
    destruct (slice0_prefix selected (default (Num 10) limit)) as [rest Hrest].
    rewrite Hrest at 2. by apply sublist_inserts_r.
  - intros id -> Hid%String.eqb_neq. subst selected. rewrite Hid.
    destruct (slice0_prefix
                (filter (λ record, rec_botId record = Some id) history)
                (default (Num 10) limit)) as [rest Hrest].
    assert (Forall (λ record, rec_botId record = Some id)
              (filter (λ record, rec_botId record = Some id) history)) as Hall.
    { apply Forall_forall. by intros record [? _]%list_elem_of_filter. }
    rewrite Hrest in Hall. by apply Forall_app in Hall as [? _].
  - intros z -> Hz. rewrite slice0_nonneg by done.
    split; [rewrite length_take; lia|]. split.
    + by intros ->.
    + intros id -> Hid%String.eqb_neq. subst selected. by rewrite Hid.
Qed.

Lemma getUploadHistory_selects_witness :
  getUploadHistory
    [upload_of "u3" (Some "bot-1"); upload_of "u2" None;
     upload_of "u1" (Some "bot-1")]
    (Some "bot-1") (Some (Num 1))
  = [upload_of "u3" (Some "bot-1")].
Proof.
  etrans; [|exact (eq_refl :
    take (Z.to_nat 1)
      (filter (λ record, rec_botId record = Some "bot-1")
         [upload_of "u3" (Some "bot-1"); upload_of "u2" None;
          upload_of "u1" (Some "bot-1")]) = _)].
  apply (getUploadHistory_selects
           [upload_of "u3" (Some "bot-1"); upload_of "u2" None;
            upload_of "u1" (Some "bot-1")]
           (Some "bot-1") (Some (Num 1))); [reflexivity|lia|reflexivity|done].
Defined.

(** ** Uploading JSON data *)

Lemma map_indexed_length {A B} (f : nat → A → result B) k l bs :
  map_indexed f k l = Ok bs → length bs = length l.
Proof.
  revert k bs. induction l as [|a l IH]; intros k bs; simpl.
  - by intros [= <-].
  - destruct (f k a); [|done]. cbn [mbind result_bind].
    destruct (map_indexed f (S k) l) as [bs'|] eqn:Hbs; [|done].
    cbn [mbind result_bind]. intros [= <-]. simpl. by rewrite (IH _ _ Hbs).
Qed.

Lemma map_indexed_first_throw {A B} (f : nat → A → result B) k l i a ex :
  l !! i = Some a →
  (∀ j a', j < i → l !! j = Some a' → ∃ b, f (k + j) a' = Ok b) →
  f (k + i) a = Throw ex →
  map_indexed f k l = Throw ex.
Proof.
  revert k i. induction l as [|a0 l IH]; intros k i Hi Hbefore Hex;
    [by rewrite lookup_nil in Hi|].
  destruct i as [|i]; simpl in *.
  - simplify_eq. rewrite Nat.add_0_r in Hex. by rewrite Hex.
  - destruct (Hbefore 0 a0 ltac:(lia) eq_refl) as [b Hb].
    rewrite Nat.add_0_r in Hb. rewrite Hb. cbn [mbind result_bind].
    rewrite (IH (S k) i Hi); [done| |].
    + intros j a' Hj Ha'.
      replace (S k + j) with (k + S j) by lia.
      apply (Hbefore (S j) a'); [lia|done].
    + by replace (S k + i) with (k + S i) by lia.
Qed.

(** X18.  [processJsonData] checks all of the data before it sends
    anything.  When it throws, its error begins with "Failed to process
    JSON data: ", no request has been made and the upload history is as it
    was.  When it returns, the data was an array with elements, all of
    them were handed to [bulkCreateEntries], the successful and the failed
    together are as many as the elements, and the history has one record
    more, at its head, with these counts. *)
Theorem processJsonData_outcome (api : management) (uuid now : string)
    (data : option (list JsonItem)) (contentType : option string)
    (publish : bool) (botId : option string) (st : UploadState) :
  let run := processJsonData api uuid now data contentType publish botId st in
  (∀ e, run.1 = Throw e →
        run.2 = st
        ∧ ∃ cause, e = Error ("Failed to process JSON data: " +:+ cause))
  ∧ (∀ outcome, run.1 = Ok outcome →
       ∃ items record,
         data = Some items ∧ items ≠ []
         ∧ totalProcessed outcome = length items
         ∧ length (out_successful outcome) + length (out_failed outcome)
           = length items
         ∧ requests st `prefix_of` requests run.2
         ∧ uploadHistory run.2 = record :: uploadHistory st
         ∧ rec_id record = uuid ∧ uploadId outcome = uuid
         ∧ rec_totalEntries record = length items
         ∧ rec_successful record = length (out_successful outcome)
         ∧ rec_failed record = length (out_failed outcome)).
Proof.
  intros run. subst run. unfold processJsonData.
  destruct (validate_data data) as [processedEntries|e0] eqn:Hvalidated.
  - unfold bulkCreateEntries.
    destruct (bulk_fold api (default "tour" (Some (default "tour" contentType)))
                publish processedEntries
                {| successful := []; failed := [] |} (requests st))
      as (ms & mf & mr & Hs & Hf & Hl & Hlen & _).
    destruct (fold_left _ processedEntries _) as [result log].
    cbn [fst snd successful failed app] in *. subst.
    split; [done|]. intros outcome [= <-].
    destruct data as [[|item items]|]; try done.
    unfold validate_data in Hvalidated.
    apply map_indexed_length in Hvalidated.
    eexists (item :: items), _.
    cbn [totalProcessed out_successful out_failed requests uploadHistory
         rec_id uploadId rec_totalEntries rec_successful rec_failed].
    split; [done|]. split; [done|]. split; [done|]. split; [lia|].
    split; [by eexists|]. split; [done|]. cbn. repeat split; done || lia.
  - cbn [fst snd]. split; [|done]. intros e [= <-]. eauto.
Qed.

Lemma processJsonData_outcome_witness :
  (processJsonData publish_refusing "u1" "2024-05-01T10:00:00.000Z" (Some [])
     None true None no_uploads).2
  = no_uploads.
Proof.
  pose proof (processJsonData_outcome publish_refusing "u1"
                "2024-05-01T10:00:00.000Z" (Some []) None true None
                no_uploads) as Houtcome.
  cbv zeta in Houtcome. destruct Houtcome as [Hthrow _].
  exact (proj1 (Hthrow _ eq_refl)).
Defined.

(** X19.  [processJsonData] names the first element whose title is not a
    string with characters by its index, and lets a title of white space
    only pass: such an element goes on with the empty title, where
    [processData] refuses the row. *)
Theorem json_titles (api : management) (uuid now : string)
    (items : list JsonItem) (contentType : option string) (publish : bool)
    (botId : option string) (st : UploadState) (i : nat) (item : JsonItem) :
  items !! i = Some item →
  (∀ j item', j < i → items !! j = Some item' →
     ∃ upload, validate_item j item' = Ok upload) →
  ((∀ title, item_title item = VStr title → title = "") →
   processJsonData api uuid now (Some items) contentType publish botId st
   = (Throw
        (Error ("Failed to process JSON data: "
                +:+ "Missing or invalid title at index " +:+ pretty i)),
      st))
  ∧ (∀ title description,
       item_title item = VStr title → title ≠ "" → trim title = "" →
       trim_of (item_description item ||| VStr "") = Ok description →
       validate_item i item
       = Ok {| up_title := VStr ""; up_description := VStr description;
               up_additionalFields :=
                 Some (default ∅ (item_additionalFields item)) |}
       ∧ ∀ stringify titleColumn descriptionColumn row,
           title_cell titleColumn row = VStr title →
           process_row stringify titleColumn descriptionColumn row
           = Throw (Error ("Missing title in row: " +:+ stringify row))).
Proof.
  intros Hitem Hbefore. split.
  - intros Htitle. unfold processJsonData.
    assert (validate_data (Some items)
            = Throw (Error ("Missing or invalid title at index "
                            +:+ pretty i))) as ->; [|done].
    assert (validate_data (Some items) = map_indexed validate_item 0 items)
      as ->.
    { destruct items; [by rewrite lookup_nil in Hitem|done]. }
    apply (map_indexed_first_throw _ 0 items i item); [done..|].
    cbn [Nat.add]. unfold validate_item.
    destruct (item_title item) as [| | | |title|] eqn:Ht; try done.
    by rewrite (Htitle title eq_refl).
  - intros title description Ht Hne Hwhite Hd. split.
    + unfold validate_item. rewrite Ht.
      apply String.eqb_neq in Hne. rewrite Hne, Hd.
      cbn [mbind result_bind]. by rewrite Hwhite.
    + intros stringify tc dc row Hcell. unfold process_row.
      rewrite Hcell. cbn [trim_of mbind result_bind]. by rewrite Hwhite.
Qed.

Lemma json_titles_witness :
  processJsonData publish_refusing "u1" "2024-05-01T10:00:00.000Z"
    (Some [rome_item; numbered_item]) None true None no_uploads
  = (Throw
       (Error "Failed to process JSON data: Missing or invalid title at index 1"),
     no_uploads).
Proof.
  etrans; [|by vm_compute].
  refine (proj1 (json_titles publish_refusing "u1" "2024-05-01T10:00:00.000Z"
                   [rome_item; numbered_item] None true None no_uploads 1
                   numbered_item eq_refl _) _).
  - intros j item' Hj Hitem'. destruct j as [|j]; [|lia].
    injection Hitem' as <-. eexists. by vm_compute.
  - intros title Htitle. discriminate Htitle.
Defined.

(** ** Uploading a sheet *)

(** X20.  [processExcelFile] takes all rows of a sheet or none.  When it
    throws, its error begins with "Failed to process Excel file: ", no
    request has been made and the upload history is as it was.  One row
    without a title is enough for that: the first such row is named in the
    error, and no entry is created, also for the good rows before it.
    When it returns, the sheet had rows, all of them were handed to
    [bulkCreateEntries], the successful and the failed together are as
    many as the rows, and the history has one record more, at its head,
    with these counts and the name of the file. *)
Theorem processExcelFile_all_or_nothing (stringify : Entry → string)
    (api : management) (uuid now fileName : string)
    (sheet : result (list Entry)) (contentType : option string)
    (publish : bool) (titleColumn descriptionColumn botId : option string)
    (st : UploadState) :
  let run :=
    processExcelFile stringify api uuid now fileName sheet contentType
      publish titleColumn descriptionColumn botId st in
  (∀ e, run.1 = Throw e →
        run.2 = st
        ∧ ∃ cause, e = Error ("Failed to process Excel file: " +:+ cause))
  ∧ (∀ jsonData i row title,
       sheet = Ok jsonData → jsonData !! i = Some row →
       (∀ j row', j < i → jsonData !! j = Some row' →
          ∃ upload,
            process_row stringify (default "title" titleColumn)
              (default "description" descriptionColumn) row' = Ok upload) →
       title_cell (default "title" titleColumn) row = VStr title →
       trim title = "" →
       run = (Throw (Error ("Failed to process Excel file: "
                            +:+ "Missing title in row: " +:+ stringify row)),
              st))
  ∧ (∀ outcome, run.1 = Ok outcome →
       ∃ jsonData record,
         sheet = Ok jsonData ∧ jsonData ≠ []
         ∧ totalProcessed outcome = length jsonData
         ∧ length (out_successful outcome) + length (out_failed outcome)
           = length jsonData
         ∧ requests st `prefix_of` requests run.2
         ∧ uploadHistory run.2 = record :: uploadHistory st
         ∧ rec_fileName record = fileName
         ∧ rec_totalEntries record = length jsonData
         ∧ rec_successful record = length (out_successful outcome)
         ∧ rec_failed record = length (out_failed outcome)).
Proof.
  intros run. subst run. unfold processExcelFile.
  set (tc := default "title" titleColumn).
  set (dc := default "description" descriptionColumn).
  split; [|split].
  - intros e.
    destruct sheet as [jsonData|e0]; cbn [mbind result_bind];
      [|intros [= <-]; eauto].
    destruct (length jsonData =? 0); [intros [= <-]; eauto|].
    destruct (processData stringify jsonData tc dc)
      as [processedEntries|e0]; [|intros [= <-]; eauto].
    by destruct (bulkCreateEntries _ _ _ _ _).
  - intros jsonData i row title -> Hrow Hbefore Htitle Hblank.
    cbn [mbind result_bind].
    assert ((length jsonData =? 0) = false) as ->.
    { apply Nat.eqb_neq. apply lookup_lt_Some in Hrow. lia. }
    unfold processData.
    rewrite (map_result_first_throw _ jsonData i row
               (Error ("Missing title in row: " +:+ stringify row)));
      [done..|].
    unfold process_row. fold tc. rewrite Htitle.
    cbn [trim_of mbind result_bind]. by rewrite Hblank.
  - intros outcome.
    destruct sheet as [jsonData|e0]; [|done]. cbn [mbind result_bind].
    destruct (length jsonData =? 0) eqn:Hrows; [done|].
    apply Nat.eqb_neq in Hrows.
    destruct (processData stringify jsonData tc dc)
      as [processedEntries|e0] eqn:Hdata; [|done].
    apply map_result_lookup in Hdata as [Hlen _].
    unfold bulkCreateEntries.
    destruct (bulk_fold api (default "tour" (Some (default "tour" contentType)))
                publish processedEntries
                {| successful := []; failed := [] |} (requests st))
      as (ms & mf & mr & Hs & Hf & Hl & Hcount & _).
    destruct (fold_left _ processedEntries _) as [result log].
    cbn [fst snd successful failed app] in *. subst.
    intros [= <-]. eexists jsonData, _.
    cbn [totalProcessed out_successful out_failed requests uploadHistory
         rec_fileName rec_totalEntries rec_successful rec_failed].
    split; [done|]. split; [by destruct jsonData|]. split; [done|].
    split; [lia|]. split; [by eexists|]. split; [done|].
    cbn. repeat split; done || lia.
Qed.

Lemma processExcelFile_all_or_nothing_witness :
  processExcelFile column_names publish_refusing "u1"
    "2024-05-01T10:00:00.000Z" "tours.xlsx" (Ok [priced_row; unnamed_row])
    None true None None None no_uploads
  = (Throw (Error "Failed to process Excel file: Missing title in row: {Title,Price}"),
     no_uploads).
Proof.
  etrans; [|by vm_compute].
  refine (proj1 (proj2 (processExcelFile_all_or_nothing column_names
                          publish_refusing "u1" "2024-05-01T10:00:00.000Z"
                          "tours.xlsx" (Ok [priced_row; unnamed_row]) None
                          true None None None no_uploads))
            [priced_row; unnamed_row] 1 unnamed_row "   " eq_refl eq_refl _
            eq_refl eq_refl).
  intros j row' Hj Hrow'. destruct j as [|j]; [|lia].
  injection Hrow' as <-. exists priced_upload. by vm_compute.
Defined.

(** * The bot service *)

(** ** Finding a bot *)

Lemma findIndex_find {A} (p : A → bool) (arr : list A) :
  match findIndex p arr with
  | Some i =>
      ∃ a, arr !! i = Some a ∧ List.find p arr = Some a ∧ p a = true
           ∧ Forall (λ b, p b = false) (take i arr)
  | None => List.find p arr = None ∧ Forall (λ b, p b = false) arr
  end.
Proof.
  induction arr as [|a arr IH]; simpl; [done|].
  destruct (p a) eqn:Hp; simpl.
  - exists a. by rewrite Hp.
  - destruct (findIndex p arr) as [i|]; simpl.
    + destruct IH as (b & Hb & Hfind & Hpb & Hbefore).
      exists b. repeat split; try done. by constructor.
    + destruct IH as [Hfind Hall]. split; [done|]. by constructor.
Qed.

Lemma find_Some_findIndex {A} (p : A → bool) (arr : list A) a :
  List.find p arr = Some a →
  ∃ i, findIndex p arr = Some i ∧ arr !! i = Some a ∧ p a = true
       ∧ Forall (λ b, p b = false) (take i arr).
Proof.
  intros Hfind. pose proof (findIndex_find p arr) as H.
  destruct (findIndex p arr) as [i|].
  - destruct H as (b & Hb & Hfind' & Hp & Hbefore).
    rewrite Hfind in Hfind'. injection Hfind' as ->. by exists i.
  - destruct H as [Hnone _]. by rewrite Hnone in Hfind.
Qed.

Lemma find_None_findIndex {A} (p : A → bool) (arr : list A) :
  List.find p arr = None → findIndex p arr = None.
Proof.
  intros Hfind. pose proof (findIndex_find p arr) as H.
  destruct (findIndex p arr) as [i|]; [|done].
  destruct H as (b & _ & Hfind' & _). by rewrite Hfind in Hfind'.
Qed.

Lemma find_insert_first {A} (p : A → bool) (arr : list A) i a' :
  i < length arr → Forall (λ b, p b = false) (take i arr) → p a' = true →
  List.find p (<[i := a']> arr) = Some a'.
Proof.
  revert i. induction arr as [|b arr IH]; intros i Hi Hbefore Hp;
    simpl in *; [lia|].
  destruct i as [|i]; simpl in *; [by rewrite Hp|].
  apply Forall_cons in Hbefore as [-> Hbefore]. apply IH; [lia|done..].
Qed.

Lemma find_insert_other {A} (q : A → bool) (arr : list A) i a a' :
  arr !! i = Some a → q a = false → q a' = false →
  List.find q (<[i := a']> arr) = List.find q arr.
Proof.
  revert i. induction arr as [|b arr IH]; intros i Hi Hq Hq'; [done|].
  destruct i as [|i]; simpl in *.
  - injection Hi as ->. by rewrite Hq, Hq'.
  - by rewrite (IH i Hi Hq Hq').
Qed.

Lemma find_delete_other {A} (q : A → bool) (arr : list A) i a :
  arr !! i = Some a → q a = false →
  List.find q (delete i arr) = List.find q arr.
Proof.
  revert i. induction arr as [|b arr IH]; intros i Hi Hq; [done|].
  destruct i as [|i]; simpl in *.
  - injection Hi as ->. by rewrite Hq.
  - by rewrite (IH i Hi Hq).
Qed.

Lemma has_id_true id bot : has_id id bot = true ↔ prop bot "id" = VStr id.
Proof.
  unfold has_id. destruct (prop bot "id"); try done.
  rewrite String.eqb_eq. split; [by intros ->|by intros [= ->]].
Qed.

Lemma has_id_other id other bot :
  has_id id bot = true → other ≠ id → has_id other bot = false.
Proof.
  intros Hid%has_id_true Hother. apply not_true_is_false.
  intros Hid'%has_id_true. congruence.
Qed.

Lemma prop_insert (obj : gmap string value) key key' v :
  prop (<[key := v]> obj) key' = if decide (key = key') then v else prop obj key'.
Proof.
  unfold prop. case_decide as Hk.
  - subst. by rewrite lookup_insert_eq.
  - by rewrite lookup_insert_ne.
Qed.

(** ** Updating and deleting a bot *)

Lemma updated_props bot updateData now :
  prop (updated bot updateData now) "id" = prop bot "id"
  ∧ prop (updated bot updateData now) "createdAt" = prop bot "createdAt"
  ∧ prop (updated bot updateData now) "updatedAt" = VStr now
  ∧ ∀ key, key ≠ "id" → key ≠ "createdAt" → key ≠ "updatedAt" →
      prop (updated bot updateData now) key
      = match updateData !! key with
        | Some v => v
        | None => prop bot key
        end.
Proof.
  unfold updated. repeat split.
  - by rewrite !prop_insert.
  - by rewrite !prop_insert.
  - by rewrite !prop_insert.
  - intros key H1 H2 H3. rewrite !prop_insert.
    rewrite !decide_False by done.
    unfold prop. rewrite lookup_union.
    by destruct (updateData !! key), (bot !! key).
Qed.

(** X21.  [updateBot] cannot change the id of a bot or the date it was
    created, whatever the update holds, and sets the date of the update;
    every other property is the one of the update, or else the one the bot
    had.  The bot is replaced where it was: the number of bots stays, a
    look-up of the id gives the updated bot, and the look-up of another id
    gives what it gave before.  All this holds in memory also when the
    write fails and the call throws.  For an id that no bot has the call
    returns null and changes nothing. *)
Theorem updateBot_keeps_identity (id : string)
    (updateData : gmap string value) (now : string) (written : bool)
    (bots : list Bot) :
  let run := updateBot id updateData now written bots in
  (getBotById bots id = None → run = (Ok None, bots))
  ∧ ∀ bot, getBotById bots id = Some bot →
      ∃ updatedBot,
        run.1 = (if written then Ok (Some updatedBot)
                 else Throw (Error "Failed to save bot data"))
        ∧ prop updatedBot "id" = VStr id
        ∧ prop updatedBot "createdAt" = prop bot "createdAt"
        ∧ prop updatedBot "updatedAt" = VStr now
        ∧ (∀ key, key ≠ "id" → key ≠ "createdAt" → key ≠ "updatedAt" →
             prop updatedBot key
             = match updateData !! key with
               | Some v => v
               | None => prop bot key
               end)
        ∧ length run.2 = length bots
        ∧ getBotById run.2 id = Some updatedBot
        ∧ ∀ other, other ≠ id →
            getBotById run.2 other = getBotById bots other.
Proof.
  intros run. subst run. unfold updateBot, getBotById. split.
  - by intros ->%find_None_findIndex.
  - intros bot (i & -> & Hi & Hid & Hbefore)%find_Some_findIndex.
    rewrite Hi. cbn [default from_option Datatypes.id fst snd].
    destruct (updated_props bot updateData now) as (Hpid & Hpc & Hpu & Hrest).
    assert (has_id id (updated bot updateData now) = true) as Hid'.
    { apply has_id_true. rewrite Hpid. by apply has_id_true. }
    exists (updated bot updateData now).
    split; [by destruct written|].
    split; [by rewrite Hpid; apply has_id_true|].
    split; [done|]. split; [done|]. split; [done|].
    split; [by rewrite length_insert|]. split.
    + apply find_insert_first; [by eapply lookup_lt_Some|done..].
    + intros other Hother.
      apply (find_insert_other _ _ _ bot); [done|by eapply has_id_other..].
Qed.

Lemma updateBot_keeps_identity_witness :
  ∃ updatedBot,
    (updateBot "b1" (<["id" := VStr "b2"]> {["name" := VStr "Scout"]})
       "2024-05-02T08:00:00.000Z" true [guide]).1
    = Ok (Some updatedBot)
    ∧ prop updatedBot "id" = VStr "b1"
    ∧ prop updatedBot "name" = VStr "Scout".
Proof.
  destruct (proj2 (updateBot_keeps_identity "b1"
                     (<["id" := VStr "b2"]> {["name" := VStr "Scout"]})
                     "2024-05-02T08:00:00.000Z" true [guide])
              guide eq_refl)
    as (updatedBot & Hrun & Hid & _ & _ & Hrest & _).
  exists updatedBot. split; [exact Hrun|]. split; [exact Hid|].
  by apply (Hrest "name").
Defined.

(** X22.  [deleteBot] removes one bot, the first that has the id, and
    leaves the others in their order: look-ups of other ids give what they
    gave before.  The bot is gone from memory also when the write fails
    and the call throws.  For an id that no bot has the call returns false
    and changes nothing. *)
Theorem deleteBot_removes_one (id : string) (written : bool)
    (bots : list Bot) :
  let run := deleteBot id written bots in
  (getBotById bots id = None → run = (Ok false, bots))
  ∧ ∀ bot, getBotById bots id = Some bot →
      run.1 = (if written then Ok true
               else Throw (Error "Failed to save bot data"))
      ∧ (∃ before after,
           bots = before ++ bot :: after ∧ run.2 = before ++ after
           ∧ Forall (λ b, has_id id b = false) before)
      ∧ ∀ other, other ≠ id →
          getBotById run.2 other = getBotById bots other.
Proof.
  intros run. subst run. unfold deleteBot, getBotById. split.
  - by intros ->%find_None_findIndex.
  - intros bot (i & -> & Hi & Hid & Hbefore)%find_Some_findIndex.
    cbn [fst snd]. split; [by destruct written|]. split.
    + exists (take i bots), (drop (S i) bots).
      split; [by rewrite take_drop_middle|]. split; [|done].
      apply delete_take_drop.
    + intros other Hother.
      apply (find_delete_other _ _ _ bot); [done|by eapply has_id_other].
Qed.

Lemma deleteBot_removes_one_witness :
  (deleteBot "b1" false [guide]).1 = Throw (Error "Failed to save bot data").
Proof.
  exact (proj1 (proj2 (deleteBot_removes_one "b1" false [guide])
                  guide eq_refl)).
Defined.

(** ** Testing a bot *)

(** X23.  [updateBotUsage] counts one more conversation for the bot and
    sets the time of its last use: a count that is absent or 0 becomes 1,
    a count [z] becomes [z + 1].  Nothing else of the bot and no other bot
    changes.  The count is raised in memory also when the write fails and
    the call throws; for an id that no bot has nothing happens and nothing
    is written. *)
Theorem updateBotUsage_counts (text_of : value → string) (id now : string)
    (written : bool) (bots : list Bot) :
  let run := updateBotUsage text_of id now written bots in
  (getBotById bots id = None → run = (Ok (), bots))
  ∧ ∀ bot, getBotById bots id = Some bot →
      ∃ used,
        getBotById run.2 id = Some used
        ∧ run.1 = (if written then Ok ()
                   else Throw (Error "Failed to save bot data"))
        ∧ prop used "lastUsed" = VStr now
        ∧ (truthy (prop bot "conversationCount") = false →
           prop used "conversationCount" = VNum 1)
        ∧ (∀ z, prop bot "conversationCount" = VNum z →
                (Z.abs z < 2 ^ 53)%Z →
                prop used "conversationCount" = VNum (z + 1))
        ∧ (∀ key, key ≠ "conversationCount" → key ≠ "lastUsed" →
                  used !! key = bot !! key)
        ∧ length run.2 = length bots
        ∧ ∀ other, other ≠ id →
            getBotById run.2 other = getBotById bots other.
Proof.
  intros run. subst run. unfold updateBotUsage, getBotById. split.
  - by intros ->%find_None_findIndex.
  - intros bot (i & -> & Hi & Hid & Hbefore)%find_Some_findIndex.
    rewrite Hi. cbn [default from_option Datatypes.id fst snd].
    set (used := <["lastUsed" := VStr now]> _).
    assert (has_id id used = true) as Hid'.
    { apply has_id_true. subst used. rewrite !prop_insert.
      rewrite !decide_False by done. by apply has_id_true. }
    exists used. split.
    { apply find_insert_first; [by eapply lookup_lt_Some|done..]. }
    split; [done|]. split; [by subst used; rewrite prop_insert|].
    split; [|split; [|split; [|split]]].
    + intros Hfalsy. subst used. rewrite !prop_insert.
      rewrite decide_False, decide_True by done.
      unfold next_count, or_else. by rewrite Hfalsy.
    + intros z Hz _. subst used. rewrite !prop_insert.
      rewrite decide_False, decide_True by done.
      unfold next_count, or_else. rewrite Hz. simpl.
      by destruct (z =? 0)%Z eqn:Hzero; [apply Z.eqb_eq in Hzero as ->|].
    + intros key H1 H2. subst used. by rewrite !lookup_insert_ne.
    + by rewrite length_insert.
    + intros other Hother.
      apply (find_insert_other _ _ _ bot); [done|by eapply has_id_other..].
Qed.

Lemma updateBotUsage_counts_witness :
  ∃ used,
    getBotById
      (updateBotUsage plain_text "b1" "2024-05-02T08:00:00.000Z" false
         [guide]).2 "b1"
    = Some used
    ∧ prop used "conversationCount" = VNum 5.
Proof.
  destruct (proj2 (updateBotUsage_counts plain_text "b1"
                     "2024-05-02T08:00:00.000Z" false [guide])
              guide eq_refl)
    as (used & Hget & _ & _ & _ & Hcount & _).
  exists used. split; [exact Hget|].
  exact (Hcount 4%Z eq_refl eq_refl).
Defined.

(** What [intelligentSearch] can do, as its callers see it: one request
    or two; an error only of plain search, after the second request; and
    no more results than a maximum that is not negative. *)
Lemma intelligentSearch_outcome cs p n :
  ((intelligentSearch cs p n).2 = S n ∨ (intelligentSearch cs p n).2 = S (S n))
  ∧ (∀ e, (intelligentSearch cs p n).1 = Throw e →
          (intelligentSearch cs p n).2 = S (S n)
          ∧ ∃ cause, e = search_failure cause)
  ∧ ∀ r z, (intelligentSearch cs p n).1 = Ok r →
           default (Num 10) (maxResults p) = Num z → (0 ≤ z)%Z →
           (Z.of_nat (result_length r) ≤ z)%Z.
Proof.
  assert (∀ (l : list Entry) z, (0 ≤ z)%Z →
            (Z.of_nat (length (slice0 l (Num z))) ≤ z)%Z) as Hslice.
  { intros l z Hz. rewrite slice0_nonneg, length_take by done. lia. }
  assert (∀ scored z, (0 ≤ z)%Z →
            (Z.of_nat (length (rank scored (Num z))) ≤ z)%Z) as Hrank.
  { intros scored z Hz. unfold rank.
    rewrite slice0_nonneg, length_take by done. lia. }
  assert (∀ p n,
            (searchContent cs p n).2 = S n
            ∧ (∀ e, (searchContent cs p n).1 = Throw e →
                    ∃ cause, e = search_failure cause)
            ∧ ∀ r z, (searchContent cs p n).1 = Ok r →
                     default (Num 10) (maxResults p) = Num z → (0 ≤ z)%Z →
                     (Z.of_nat (result_length r) ≤ z)%Z) as Hplain.
  { intros p' n'.
    destruct ((getAllEntries cs (default "tours" (contentType p')) 100 n').1)
      as [entries|e0] eqn:Hfetch.
    - rewrite (searchContent_fetched _ _ _ _ Hfetch). split; [done|].
      cbn [fst]. destruct (String.eqb (query p') "").
      { split; [done|]. intros r z [= <-] -> Hz. by apply Hslice. }
      destruct (map_result _ entries) as [scored|e1].
      { split; [done|]. intros r z [= <-] -> Hz. by apply Hrank. }
      split; [|done]. intros e [= <-]. eauto.
    - rewrite (searchContent_failed _ _ _ _ Hfetch). split; [done|].
      split; [|done]. intros e [= <-]. eauto. }
  destruct (Hplain (fallback_params p) (S n)) as (Hn & Hthrow & Hlen).
  destruct ((getAllEntries cs (default "tour" (contentType p)) 100 n).1)
    as [allEntries|e0] eqn:Hfetch.
  - rewrite (intelligentSearch_fetched _ _ _ _ Hfetch).
    destruct (String.eqb (query p) "" || (length allEntries =? 0)).
    { split; [by left|]. split; [done|].
      intros r z [= <-] -> Hz. by apply Hslice. }
    destruct (map_result _ allEntries) as [scored|e1].
    { split; [by left|]. split; [done|].
      intros r z [= <-] -> Hz. by apply Hrank. }
    split; [by right|]. split.
    + intros e He. split; [done|by apply Hthrow].
    + intros r z Hr Hm Hz. apply (Hlen r z Hr); [|done].
      by cbn [fallback_params maxResults default]; rewrite Hm.
  - rewrite (intelligentSearch_failed _ _ _ _ Hfetch).
    split; [by right|]. split.
    + intros e He. split; [done|by apply Hthrow].
    + intros r z Hr Hm Hz. apply (Hlen r z Hr); [|done].
      by cbn [fallback_params maxResults default]; rewrite Hm.
Qed.

(** X24.  The errors of [testBot].  For an id that no bot has it throws
    "Bot not found", for a bot that is not active "Bot is not active":
    both before anything is asked of the content store or the LLM, and
    neither is wrapped.  Every other error begins with "Bot test failed: "
    and is one of three.  The search failed, after two requests to the
    store: the LLM is not asked.  The LLM failed: the usage of the bot is
    not counted.  Or the write of the bots failed: then the LLM has
    answered and the usage is counted in memory, but the answer is
    lost. *)
Theorem testBot_errors (text_of : value → string) (cs : store)
    (generateResponse : llm) (id message now : string) (written : bool)
    (st : BotState) (e : exn) :
  let run := testBot text_of cs generateResponse id message now written st in
  run.1 = Throw e →
  (e = Error "Bot not found" ∧ getBotById (bots st) id = None ∧ run.2 = st)
  ∨ (e = Error "Bot is not active" ∧ run.2 = st
     ∧ ∃ bot, getBotById (bots st) id = Some bot
              ∧ truthy (prop bot "isActive") = false)
  ∨ ∃ bot cause,
      getBotById (bots st) id = Some bot
      ∧ truthy (prop bot "isActive") = true
      ∧ e = Error ("Bot test failed: " +:+ cause)
      ∧ ((∃ reason, cause = "Failed to search content: " +:+ reason)
         ∧ run.2 = {| bots := bots st; fetches := S (S (fetches st));
                      prompts := prompts st |}
         ∨ (∃ request failure,
              generateResponse request = Throw failure
              ∧ cause = message_of failure
              ∧ bots run.2 = bots st
              ∧ prompts run.2 = prompts st ++ [request])
         ∨ (∃ request response,
              generateResponse request = Ok response
              ∧ written = false
              ∧ cause = "Failed to save bot data"
              ∧ bots run.2 = (updateBotUsage text_of id now false (bots st)).2
              ∧ prompts run.2 = prompts st ++ [request])).
Proof.
  intros run. subst run. unfold testBot.
  destruct (getBotById (bots st) id) as [bot|] eqn:Hbot.
  2:{ intros [= <-]. by left. }
  destruct (truthy (prop bot "isActive")) eqn:Hactive; cbn [negb].
  2:{ intros [= <-]. right. left. eauto. }
  set (p := {| query := message; contentType := _; maxResults := _ |}).
  destruct (intelligentSearch_outcome cs p (fetches st))
    as (_ & Hthrow & _).
  destruct (intelligentSearch cs p (fetches st)) as [found n] eqn:Hsearch.
  cbn [fst snd] in Hthrow.
  intros He. right. right. exists bot.
  destruct found as [relevantContent|e0].
  - set (request := {| llm_message := message; llm_provider := _;
                       llm_model := _; llm_context := _; llm_botId := _ |})
      in *.
    destruct (generateResponse request) as [response|failure] eqn:Hllm.
    + destruct (updateBotUsage text_of id now written (bots st))
        as [saved bots'] eqn:Husage.
      cbn [fst] in He. destruct saved as [[]|e1]; [done|].
      injection He as <-.
      assert (written = false ∧ e1 = Error "Failed to save bot data")
        as [-> ->].
      { revert Husage. unfold updateBotUsage.
        destruct (findIndex _ _); [|done].
        by destruct written; intros [= <- _]. }
      exists "Failed to save bot data". repeat split; try done.
      right. right. exists request, response. by rewrite Husage.
    + cbn [fst] in He. injection He as <-.
      exists (message_of failure). repeat split; try done.
      right. left. by exists request, failure.
  - cbn [fst] in He. injection He as <-.
    destruct (Hthrow e0 eq_refl) as (-> & cause & ->).
    eexists. repeat split; try done. left. split; [|done]. by eexists.
Qed.

Lemma testBot_errors_witness :
  ∃ bot,
    getBotById (bots one_guide) "b1" = Some bot
    ∧ bots (testBot plain_text tours_store answering "b1" "paris"
              "2024-05-02T08:00:00.000Z" false one_guide).2
      = (updateBotUsage plain_text "b1" "2024-05-02T08:00:00.000Z" false
           (bots one_guide)).2.
Proof.
  destruct (testBot_errors plain_text tours_store answering "b1" "paris"
              "2024-05-02T08:00:00.000Z" false one_guide
              (Error "Bot test failed: Failed to save bot data")
              ltac:(vm_compute; reflexivity))
    as [(Hnone & _)|[(Hactive & _)
        |(bot & cause & Hbot & _ & _
          & [(_ & Hst)|[(request & failure & Hllm & _)
             |(request & response & _ & _ & _ & Hbots & _)]])]].
  - discriminate Hnone.
  - discriminate Hactive.
  - exfalso. apply (f_equal prompts) in Hst. vm_compute in Hst.
    discriminate Hst.
  - discriminate Hllm.
  - exists bot. split; [exact Hbot|exact Hbots].
Defined.

(** X25.  What [testBot] returns.  It has asked the content store once
    or twice and the LLM once, after the search; the reply holds the
    answer of the LLM and the results of the search, of which there are
    never more than 3, with their number.  The context of the request
    opens with the system prompt of the bot, and has a second message
    exactly when the search gave a result.  The bots were written, and of
    the bots only the usage of the tested one has changed. *)
Theorem testBot_reply (text_of : value → string) (cs : store)
    (generateResponse : llm) (id message now : string) (written : bool)
    (st : BotState) (reply : TestReply) :
  let run := testBot text_of cs generateResponse id message now written st in
  run.1 = Ok reply →
  ∃ bot request response,
    getBotById (bots st) id = Some bot
    ∧ truthy (prop bot "isActive") = true
    ∧ written = true
    ∧ (fetches run.2 = S (fetches st) ∨ fetches run.2 = S (S (fetches st)))
    ∧ prompts run.2 = prompts st ++ [request]
    ∧ generateResponse request = Ok response
    ∧ reply_message reply = res_content response
    ∧ llm_message request = message
    ∧ relevantContent reply = result_length (sources reply)
    ∧ relevantContent reply ≤ 3
    ∧ head (llm_context request)
      = Some {| msg_role := "system"; msg_content := prop bot "systemPrompt" |}
    ∧ length (llm_context request)
      = (if relevantContent reply =? 0 then 1 else 2)
    ∧ bots run.2 = (updateBotUsage text_of id now true (bots st)).2.
Proof.
  intros run. subst run. unfold testBot.
  destruct (getBotById (bots st) id) as [bot|] eqn:Hbot; [|done].
  destruct (truthy (prop bot "isActive")) eqn:Hactive; cbn [negb]; [|done].
  set (p := {| query := message; contentType := _; maxResults := _ |}).
  destruct (intelligentSearch_outcome cs p (fetches st))
    as (Hn & _ & Hlen).
  destruct (intelligentSearch cs p (fetches st)) as [found n] eqn:Hsearch.
  cbn [fst snd] in Hn, Hlen.
  destruct found as [results|e0]; [|done].
  set (request := {| llm_message := message; llm_provider := _;
                     llm_model := _; llm_context := _; llm_botId := _ |})
    in *.
  destruct (generateResponse request) as [response|failure] eqn:Hllm;
    [|done].
  destruct (updateBotUsage text_of id now written (bots st))
    as [saved bots'] eqn:Husage.
  cbn [fst snd]. destruct saved as [[]|e1]; [|done]. intros [= <-].
  assert (written = true) as ->.
  { revert Husage. unfold updateBotUsage.
    apply find_Some_findIndex in Hbot as (i & -> & _).
    by destruct written. }
  specialize (Hlen results 3%Z eq_refl eq_refl ltac:(lia)).
  exists bot, request, response.
  cbn [reply_message relevantContent sources fetches prompts bots].
  rewrite Husage. repeat split; try done; [lia|].
  subst request. cbn [llm_context]. unfold context_of.
  by destruct (result_length results).
Qed.

Lemma testBot_reply_witness :
  ∃ reply,
    (testBot plain_text tours_store answering "b1" "paris"
       "2024-05-02T08:00:00.000Z" true one_guide).1
    = Ok reply
    ∧ relevantContent reply ≤ 3.
Proof.
  assert (∃ reply,
            (testBot plain_text tours_store answering "b1" "paris"
               "2024-05-02T08:00:00.000Z" true one_guide).1
            = Ok reply) as [reply Hreply]
    by (eexists; vm_compute; reflexivity).
  exists reply. split; [exact Hreply|].
  destruct (testBot_reply plain_text tours_store answering "b1" "paris"
              "2024-05-02T08:00:00.000Z" true one_guide reply Hreply)
    as (bot & request & response & _ & _ & _ & _ & _ & _ & _ & _ & _
        & Hmost & _).
  exact Hmost.
Defined.
